(** * audit-log: identity resolution and audit-table provisioning

    A shallow embedding of [src/utils/primary-key.ts] (identity resolver) and
    of the audit-table schema module (drizzle table [auditLogs] and the setup
    SQL), together with the properties the specification states about them.

    The TypeScript code runs on a JavaScript host, so the first part of the
    development models the host operations the code calls: [String(v)],
    [JSON.stringify(v, replacer)], [Date.prototype.toISOString], property
    assignment and own-key enumeration, and [RegExp.prototype.test].  Objects
    live in a heap indexed by locations, so that aliasing and reference cycles
    among the values of a row can be expressed.

    Scope of the host model.  A string is a sequence of code units, one
    [ascii] each, so the model covers the code units below 256; the default
    order of [sort] is the order of code units.  Rows, the primary-key map and
    the objects of the heap are plain objects: their properties are own data
    properties with string keys and values of type [value] (no functions, no
    accessors); the members they inherit from [Object.prototype] and the
    setter of [__proto__] are not part of the model.  Module [Scope] names
    the inputs on which this matters, and the properties that depend on it
    exclude them.  Module [PrimaryKey] is the resolver on a host whose call
    stack suffices for the values at hand; module [Bounded] is the resolver
    on a host that can exhaust its stack.

    The change-capture engine that calls the resolver is not among the source
    files; module [Engine] follows the specification's description of it. *)

From Stdlib Require Import ZArith NArith Ascii String List Lia.
From stdpp Require Import gmap strings list sorting.

#[local] Set Warnings "-clear-no-such-hyp".

(** ** Host values *)

Module JS.

(** *** Text helpers *)

Definition dquote : ascii := ascii_of_nat 34.
Definition backslash : ascii := ascii_of_nat 92.

Definition str1 (c : ascii) : string := String c EmptyString.

Definition digit_char (d : N) : ascii := ascii_of_N (48 + d).

Fixpoint dec_go (fuel : nat) (n : N) (acc : string) : string :=
  match fuel with
  | O => acc
  | S f =>
      let acc' := String (digit_char (n mod 10)) acc in
      if (n / 10 =? 0)%N then acc' else dec_go f (n / 10)%N acc'
  end.

(** Decimal numeral of a natural number; [N.size_nat n] bounds the number of
    decimal digits. *)
Definition N_to_dec (n : N) : string := dec_go (S (N.size_nat n)) n "".

Definition Z_to_dec (z : Z) : string :=
  match z with
  | Z0 => "0"
  | Zpos p => N_to_dec (Npos p)
  | Zneg p => "-" +:+ N_to_dec (Npos p)
  end.

Definition nat_to_dec (n : nat) : string := N_to_dec (N.of_nat n).

(** Expected texts are written with apostrophes where the text has double
    quotes. *)
Fixpoint with_dquotes (s : string) : string :=
  match s with
  | EmptyString => EmptyString
  | String c r =>
      String (if Ascii.eqb c "'"%char then dquote else c) (with_dquotes r)
  end.

(** [ToZeroPaddedDecimalString(n, w)] *)
Fixpoint zeros (k : nat) : string :=
  match k with O => "" | S k' => String "0"%char (zeros k') end.

Definition zero_pad (w : nat) (n : Z) : string :=
  let s := Z_to_dec n in zeros (w - String.length s) +:+ s.

Fixpoint join (sep : string) (l : list string) : string :=
  match l with
  | [] => ""
  | [s] => s
  | s :: rest => s +:+ sep +:+ join sep rest
  end.

(** *** Numbers

    The code only observes a Number through [String(n)] and through its JSON
    text.  [NInt z] stands for the Number of value [z]; [Number::toString]
    prints it as the decimal numeral of [z] when [z] is a safe integer (at
    most 2^53 - 1 in magnitude, see [Scope.safe_integer]; the negative zero
    is included as [0]).  Larger Numbers, which the host prints with the
    shortest digits that read back to the same double, and fractions are
    outside the model; the three non-finite values are in it. *)
Inductive number :=
| NInt (z : Z)
| NNaN
| NInf (negative : bool).

Definition number_finite (n : number) : bool :=
  match n with NInt _ => true | _ => false end.

Definition NumberToString (n : number) : string :=
  match n with
  | NInt z => Z_to_dec z
  | NNaN => "NaN"
  | NInf false => "Infinity"
  | NInf true => "-Infinity"
  end.

(** *** Values and the object heap *)

Definition loc := positive.

Inductive value :=
| VUndefined
| VNull
| VBool (b : bool)
| VNumber (n : number)
| VBigInt (z : Z)
| VString (s : string)
| VDate (tv : option Z)   (* time value in ms since the epoch; [None]: invalid date *)
| VRef (l : loc).         (* reference to an object of the heap *)

(** Own enumerable string-keyed properties, kept in the order in which
    [OrdinaryOwnPropertyKeys] lists them. *)
Definition props := list (string * value).

Inductive object :=
| OObject (ps : props)          (* ordinary object *)
| OArray (es : list value)      (* array *)
| ORevokedProxy.                (* every operation on it throws a TypeError *)

Abbreviation heap := (gmap loc object).

(** A location that is not allocated reads as an empty ordinary object. *)
Definition obj_at (h : heap) (l : loc) : object := default (OObject []) (h !! l).

Inductive js_error :=
| Error (message : string)   (* [new Error(message)] *)
| TypeError                  (* raised by a built-in *)
| RangeError.                (* raised by the host when its call stack is exhausted *)

(** Result of running a piece of code: it returns, throws, or the model's
    recursion budget is exhausted. *)
Inductive outcome (A : Type) :=
| Returns (a : A)
| Throws (e : js_error)
| OutOfFuel.
Arguments Returns {A} a.
Arguments Throws {A} e.
Arguments OutOfFuel {A}.

Global Instance number_eq_dec : EqDecision number.
Proof. solve_decision. Defined.
Global Instance value_eq_dec : EqDecision value.
Proof. solve_decision. Defined.
Global Instance js_error_eq_dec : EqDecision js_error.
Proof. solve_decision. Defined.
Global Instance outcome_eq_dec {A} `{EqDecision A} : EqDecision (outcome A).
Proof. solve_decision. Defined.

Definition bind {A B} (m : outcome A) (k : A → outcome B) : outcome B :=
  match m with
  | Returns a => k a
  | Throws e => Throws e
  | OutOfFuel => OutOfFuel
  end.

Notation "'let*' x ':=' m 'in' k" := (bind m (λ x, k))
  (at level 10, x pattern, m at level 100, k at level 200, only parsing).

(** [v == null] *)
Definition nullish (v : value) : bool :=
  match v with VUndefined | VNull => true | _ => false end.

(** *** Property access on ordinary objects *)

Fixpoint obj_lookup (ps : props) (k : string) : option value :=
  match ps with
  | [] => None
  | (k', v) :: rest => if String.eqb k' k then Some v else obj_lookup rest k
  end.

(** [o[k]] for an own data property.  This is what the code reads unless the
    object lacks [k] and [Object.prototype] defines it (see
    [Scope.inherited]). *)
Definition obj_get (ps : props) (k : string) : value :=
  default VUndefined (obj_lookup ps k).

Definition is_digit (c : ascii) : bool :=
  let n := N_of_ascii c in ((48 <=? n) && (n <=? 57))%N.

Fixpoint digits_value (s : string) (acc : N) : N :=
  match s with
  | EmptyString => acc
  | String c r => digits_value r (10 * acc + (N_of_ascii c - 48))%N
  end.

Fixpoint all_digits (s : string) : bool :=
  match s with
  | EmptyString => true
  | String c r => is_digit c && all_digits r
  end.

(** A property key is an array index when it is the canonical decimal numeral
    of an integer in [0, 2^32 - 2]. *)
Definition array_index (k : string) : option N :=
  match k with
  | EmptyString => None
  | String c r =>
      if all_digits k && (negb (Ascii.eqb c "0"%char) || String.eqb r "")
      then let n := digits_value k 0 in
           if (n <? 4294967295)%N then Some n else None
      else None
  end.

(** Position of a new key in the enumeration order: array indices ascending
    first, then the other keys in creation order. *)
Fixpoint insert_index (ps : props) (i : N) (k : string) (v : value) : props :=
  match ps with
  | [] => [(k, v)]
  | (k', v') :: rest =>
      match array_index k' with
      | Some j => if (j <? i)%N then (k', v') :: insert_index rest i k v
                  else (k, v) :: ps
      | None => (k, v) :: ps
      end
  end.

Fixpoint obj_replace (ps : props) (k : string) (v : value) : props :=
  match ps with
  | [] => []
  | (k', v') :: rest =>
      if String.eqb k' k then (k', v) :: rest else (k', v') :: obj_replace rest k v
  end.

(** [o[k] = v] on an ordinary extensible object, for every key but
    [__proto__], whose assignment runs the setter of [Object.prototype]. *)
Definition obj_set (ps : props) (k : string) (v : value) : props :=
  match obj_lookup ps k with
  | Some _ => obj_replace ps k v
  | None =>
      match array_index k with
      | Some i => insert_index ps i k v
      | None => ps ++ [(k, v)]
      end
  end.

(** [Object.keys(o)] *)
Definition Object_keys (ps : props) : list string := map fst ps.

(** [Array.prototype.sort] with the default comparator, on strings: ascending
    by code units.  A string of the model has one [ascii] per code unit, so
    this is the order of [String.leb]. *)
Fixpoint sort_insert (s : string) (l : list string) : list string :=
  match l with
  | [] => [s]
  | x :: rest => if String.leb s x then s :: l else x :: sort_insert s rest
  end.

Definition sort_strings (l : list string) : list string :=
  foldr sort_insert [] l.

(** *** Dates (time values, ECMA-262 section 21.4.1) *)

Definition msPerDay : Z := 86400000.
Definition Day (t : Z) : Z := (t / msPerDay)%Z.
Definition HourFromTime (t : Z) : Z := ((t / 3600000) mod 24)%Z.
Definition MinFromTime (t : Z) : Z := ((t / 60000) mod 60)%Z.
Definition SecFromTime (t : Z) : Z := ((t / 1000) mod 60)%Z.
Definition msFromTime (t : Z) : Z := (t mod 1000)%Z.
Definition WeekDay (t : Z) : Z := ((Day t + 4) mod 7)%Z.

(** Proleptic Gregorian date (year, month 1..12, day 1..31) of a day number
    counted from 1970-01-01. *)
Definition civil_from_days (d : Z) : Z * Z * Z :=
  let z := (d + 719468)%Z in
  let era := (z / 146097)%Z in
  let doe := (z - era * 146097)%Z in
  let yoe := ((doe - doe / 1460 + doe / 36524 - doe / 146096) / 365)%Z in
  let doy := (doe - (365 * yoe + yoe / 4 - yoe / 100))%Z in
  let mp := ((5 * doy + 2) / 153)%Z in
  let day := (doy - (153 * mp + 2) / 5 + 1)%Z in
  let month := (if (mp <? 10)%Z then mp + 3 else mp - 9)%Z in
  let year := (yoe + era * 400 + (if (month <=? 2)%Z then 1 else 0))%Z in
  (year, month, day).

Definition YearFromTime (t : Z) : Z := (civil_from_days (Day t)).1.1.
Definition MonthFromTime (t : Z) : Z := ((civil_from_days (Day t)).1.2 - 1)%Z.
Definition DateFromTime (t : Z) : Z := (civil_from_days (Day t)).2.

Definition name_of (names : list string) (i : Z) : string :=
  nth (Z.to_nat i) names "".

Definition day_names : list string :=
  ["Sun"; "Mon"; "Tue"; "Wed"; "Thu"; "Fri"; "Sat"].
Definition month_names : list string :=
  ["Jan"; "Feb"; "Mar"; "Apr"; "May"; "Jun";
   "Jul"; "Aug"; "Sep"; "Oct"; "Nov"; "Dec"].

(** [Date.prototype.toISOString] on a valid time value:
    [YYYY-MM-DDTHH:mm:ss.sssZ], with the expanded year outside 0..9999. *)
Definition toISOString (t : Z) : string :=
  let y := YearFromTime t in
  let year :=
    if ((0 <=? y) && (y <=? 9999))%Z then zero_pad 4 y
    else (if (y <? 0)%Z then "-" else "+") +:+ zero_pad 6 (Z.abs y) in
  year +:+ "-" +:+ zero_pad 2 (MonthFromTime t + 1) +:+ "-"
       +:+ zero_pad 2 (DateFromTime t) +:+ "T"
       +:+ zero_pad 2 (HourFromTime t) +:+ ":" +:+ zero_pad 2 (MinFromTime t)
       +:+ ":" +:+ zero_pad 2 (SecFromTime t) +:+ "." +:+ zero_pad 3 (msFromTime t)
       +:+ "Z".

(** The host's local time zone, as a fixed offset from UTC and the name the
    implementation appends to [Date.prototype.toString]. *)
Record Host := {
  tz_offset_minutes : Z;
  tz_name : string
}.

Definition UTC_host : Host :=
  {| tz_offset_minutes := 0; tz_name := " (Coordinated Universal Time)" |}.

(** [Date.prototype.toString]: [DateString], [TimeString], [TimeZoneString]. *)
Definition DateToString (host : Host) (tv : option Z) : string :=
  match tv with
  | None => "Invalid Date"
  | Some tv =>
      let off := tz_offset_minutes host in
      let t := (tv + off * 60000)%Z in
      let y := YearFromTime t in
      name_of day_names (WeekDay t) +:+ " "
        +:+ name_of month_names (MonthFromTime t) +:+ " "
        +:+ zero_pad 2 (DateFromTime t) +:+ " "
        +:+ (if (0 <=? y)%Z then "" else "-") +:+ zero_pad 4 (Z.abs y) +:+ " "
        +:+ zero_pad 2 (HourFromTime t) +:+ ":" +:+ zero_pad 2 (MinFromTime t)
        +:+ ":" +:+ zero_pad 2 (SecFromTime t) +:+ " GMT"
        +:+ (if (0 <=? off)%Z then "+" else "-")
        +:+ zero_pad 2 (Z.abs off / 60) +:+ zero_pad 2 (Z.abs off mod 60)
        +:+ tz_name host
  end.

(** *** [String(v)] *)

Definition has_own (ps : props) (k : string) : bool :=
  match obj_lookup ps k with Some _ => true | None => false end.

(** Elements of an array under [Array.prototype.join]: [null] and
    [undefined] print as the empty string. *)
Fixpoint join_items (rec : value → outcome string) (es : list value)
  : outcome (list string) :=
  match es with
  | [] => Returns []
  | e :: rest =>
      let* s := (if nullish e then Returns ""%string else rec e) in
      let* ss := join_items rec rest in
      Returns (s :: ss)
  end.

(** [String(v)].  An ordinary object prints through
    [Object.prototype.toString] unless an own (non-callable) [toString]
    property shadows it; an array prints through [join], where an array that
    is already being joined prints as the empty string ([stack] holds the
    arrays being joined). *)
Fixpoint ToString (fuel : nat) (host : Host) (h : heap) (stack : gset loc)
    (v : value) : outcome string :=
  match v with
  | VUndefined => Returns "undefined"%string
  | VNull => Returns "null"%string
  | VBool b => Returns (if b then "true" else "false")%string
  | VNumber n => Returns (NumberToString n)
  | VBigInt z => Returns (Z_to_dec z)
  | VString s => Returns s
  | VDate tv => Returns (DateToString host tv)
  | VRef l =>
      match obj_at h l with
      | ORevokedProxy => Throws TypeError
      | OObject ps =>
          if has_own ps "toString" then Throws TypeError
          else Returns "[object Object]"%string
      | OArray es =>
          if decide (l ∈ stack) then Returns ""%string
          else match fuel with
               | O => OutOfFuel
               | S n =>
                   let* parts := join_items (ToString n host h ({[l]} ∪ stack)) es in
                   Returns (join "," parts)
               end
      end
  end.

(** *** [JSON.stringify] *)

(** The text [JSON.stringify] builds, as a tree.  A member of an object whose
    value serializes to [undefined] is kept as [None] and left out by
    [render]. *)
#[warnings="-register-all"]
Inductive json :=
| JNull
| JBool (b : bool)
| JNum (text : string)
| JStr (s : string)
| JArr (items : list json)
| JObj (members : list (string * option json)).

Definition hex_digit (n : N) : ascii :=
  if (n <? 10)%N then ascii_of_N (48 + n) else ascii_of_N (87 + n).

(** [QuoteJSONString], one code unit at a time. *)
Definition quote_char (c : ascii) : string :=
  let n := N_of_ascii c in
  if (n =? 8)%N then String backslash "b"
  else if (n =? 9)%N then String backslash "t"
  else if (n =? 10)%N then String backslash "n"
  else if (n =? 12)%N then String backslash "f"
  else if (n =? 13)%N then String backslash "r"
  else if (n =? 34)%N then String backslash (str1 dquote)
  else if (n =? 92)%N then String backslash (str1 backslash)
  else if (n <? 32)%N then
    String backslash ("u00" +:+ String (hex_digit (n / 16)) (str1 (hex_digit (n mod 16))))
  else str1 c.

Fixpoint quote_body (s : string) : string :=
  match s with
  | EmptyString => ""
  | String c r => quote_char c +:+ quote_body r
  end.

Definition QuoteJSONString (s : string) : string :=
  String dquote (quote_body s +:+ str1 dquote).

Fixpoint render (j : json) : string :=
  match j with
  | JNull => "null"
  | JBool b => if b then "true" else "false"
  | JNum t => t
  | JStr s => QuoteJSONString s
  | JArr items => "[" +:+ join "," (map render items) +:+ "]"
  | JObj members =>
      "{" +:+ join ","
        ((fix go (ms : list (string * option json)) : list string :=
            match ms with
            | [] => []
            | (k, Some j') :: rest => (QuoteJSONString k +:+ ":" +:+ render j') :: go rest
            | (_, None) :: rest => go rest
            end) members)
      +:+ "}"
  end.

(** The token the replacer of [safeStringifyForPK] returns for an object it has
    already seen. *)
Definition Circular : string := "[Circular]".

(** [SerializeJSONObject]: the members in key order, the set of seen objects
    threaded through the replacer calls. *)
Fixpoint ser_members (rec : gset loc → value → outcome (gset loc * option json))
    (seen : gset loc) (ps : props)
  : outcome (gset loc * list (string * option json)) :=
  match ps with
  | [] => Returns (seen, [])
  | (k, v) :: rest =>
      let* r := rec seen v in
      let* rs := ser_members rec r.1 rest in
      Returns (rs.1, (k, r.2) :: rs.2)
  end.

(** [SerializeJSONArray]: an element that serializes to [undefined] is written
    as [null]. *)
Fixpoint ser_items (rec : gset loc → value → outcome (gset loc * option json))
    (seen : gset loc) (es : list value) : outcome (gset loc * list json) :=
  match es with
  | [] => Returns (seen, [])
  | v :: rest =>
      let* r := rec seen v in
      let* rs := ser_items rec r.1 rest in
      Returns (rs.1, default JNull r.2 :: rs.2)
  end.

(** [SerializeJSONProperty] with the replacer of [safeStringifyForPK] inlined.
    For each value, in this order: [toJSON] is looked up and called (a Date
    becomes its ISO string, or [null] when invalid; a revoked proxy throws);
    the replacer turns a BigInt into its decimal string, returns
    ["[Circular]"] for an object in [seen], and otherwise adds the object to
    [seen]; the result is serialized by type.  [seen] is the replacer's
    [WeakSet]: objects are added and never removed. *)
Fixpoint SerializeJSONProperty (fuel : nat) (h : heap) (seen : gset loc)
    (v : value) : outcome (gset loc * option json) :=
  match v with
  | VUndefined => Returns (seen, None)
  | VNull => Returns (seen, Some JNull)
  | VBool b => Returns (seen, Some (JBool b))
  | VNumber n =>
      Returns (seen, Some (if number_finite n then JNum (NumberToString n) else JNull))
  | VBigInt z => Returns (seen, Some (JStr (Z_to_dec z)))
  | VString s => Returns (seen, Some (JStr s))
  | VDate tv =>
      Returns (seen, Some (match tv with
                           | Some t => JStr (toISOString t)
                           | None => JNull
                           end))
  | VRef l =>
      match obj_at h l with
      | ORevokedProxy => Throws TypeError
      | OObject ps =>
          if decide (l ∈ seen) then Returns (seen, Some (JStr Circular))
          else match fuel with
               | O => OutOfFuel
               | S n =>
                   let* r := ser_members (SerializeJSONProperty n h) ({[l]} ∪ seen) ps in
                   Returns (r.1, Some (JObj r.2))
               end
      | OArray es =>
          if decide (l ∈ seen) then Returns (seen, Some (JStr Circular))
          else match fuel with
               | O => OutOfFuel
               | S n =>
                   let* r := ser_items (SerializeJSONProperty n h) ({[l]} ∪ seen) es in
                   Returns (r.1, Some (JArr r.2))
               end
      end
  end.

(** Nesting depth is bounded by the number of allocated objects, since an
    object is entered at most once: this budget is never exhausted.  (The
    limit the host puts on the depth of its call stack is the subject of
    module [Bounded].) *)
Definition fuel_for (h : heap) : nat := S (size h).

(** [JSON.stringify(v, replacer)] with a fresh [seen] set.  The result is
    [undefined] ([None]) when the value itself serializes to [undefined]. *)
Definition JSON_stringify (h : heap) (v : value) : outcome (option string) :=
  let* r := SerializeJSONProperty (fuel_for h) h ∅ v in
  Returns (render <$> r.2).

End JS.

(** ** The identity resolver ([src/utils/primary-key.ts]) *)

Module PrimaryKey.
Import JS.

(** A value of [primaryKeyMap]: [string | string[]]. *)
Inductive key_spec :=
| KeySingle (field : string)
| KeyList (fields : list string).

(** JavaScript truthiness of a [string | string[]]: only the empty string is
    falsy. *)
Definition truthy (key : key_spec) : bool :=
  match key with
  | KeySingle s => negb (String.eqb s "")
  | KeyList _ => true
  end.

(** [Array.isArray(key) ? key : [key]] *)
Definition keys_of (key : key_spec) : list string :=
  match key with
  | KeySingle s => [s]
  | KeyList l => l
  end.

(** The two errors the resolver raises itself, by their messages. *)
Definition ConfigurationError (tableName : string) : js_error :=
  Error ("primaryKeyMap missing key for table: " +:+ tableName).
Definition MissingKeyError (tableName : string) : js_error :=
  Error ("primaryKeyMap fields missing in record for table: " +:+ tableName).

(** The fallback of the [catch] clause. *)
Definition fallback_key (record : props) : string :=
  let keys := sort_strings (Object_keys record) in
  "composite_key_" +:+ join "_" keys +:+ "_" +:+ nat_to_dec (length keys).

(** The object under construction is allocated at a location the heap does not
    use yet (and which no value refers to, when the row and the heap are
    [Scope.well_formed]). *)
Definition alloc (h : heap) (o : object) : loc * heap :=
  let l := fresh (dom h) in (l, <[l := o]> h).

(** [safeStringifyForPK]: [JSON.stringify] with the replacer, inside
    [try]/[catch].  The result of [JSON.stringify] is returned as it is
    ([None] stands for [undefined], which an object never serializes to). *)
Definition safeStringifyForPK (h : heap) (record : props) : outcome (option string) :=
  let '(l, h') := alloc h (OObject record) in
  match JSON_stringify h' (VRef l) with
  | Returns r => Returns r
  | Throws _ => Returns (Some (fallback_key record))
  | OutOfFuel => OutOfFuel
  end.

(** The [for] loop of [extractConfiguredPrimaryKey]: [None] is the early
    [return null]. *)
Fixpoint resolve_fields (record : props) (keys : list string) (resolved : props)
  : option props :=
  match keys with
  | [] => Some resolved
  | field :: rest =>
      let value := obj_get record field in
      if nullish value then None
      else resolve_fields record rest (obj_set resolved field value)
  end.

Definition extractConfiguredPrimaryKey (host : Host) (h : heap) (record : props)
    (key : key_spec) : outcome (option string) :=
  let keys := keys_of key in
  match resolve_fields record keys [] with
  | None => Returns None
  | Some resolved =>
      match keys with
      | [k] =>
          let* s := ToString (fuel_for h) host h ∅ (obj_get resolved k) in
          Returns (Some s)
      | _ => safeStringifyForPK h resolved
      end
  end.

(** [extractPrimaryKey].  The map holds the own entries of [primaryKeyMap];
    for a table named like a member of [Object.prototype]
    ([Scope.inherited]) and without an entry, the code reads that member. *)
Definition extractPrimaryKey (host : Host) (h : heap) (record : props)
    (tableName : string) (primaryKeyMap : gmap string key_spec) : outcome string :=
  match primaryKeyMap !! tableName with
  | None => Throws (ConfigurationError tableName)
  | Some configuredKey =>
      if negb (truthy configuredKey) then Throws (ConfigurationError tableName)
      else
        let* configured := extractConfiguredPrimaryKey host h record configuredKey in
        match configured with
        | None => Throws (MissingKeyError tableName)
        | Some s => Returns s
        end
  end.

(** [records.map(record => extractPrimaryKey(...))] *)
Fixpoint extractPrimaryKeys (host : Host) (h : heap) (records : list props)
    (tableName : string) (primaryKeyMap : gmap string key_spec)
  : outcome (list string) :=
  match records with
  | [] => Returns []
  | r :: rest =>
      let* k := extractPrimaryKey host h r tableName primaryKeyMap in
      let* ks := extractPrimaryKeys host h rest tableName primaryKeyMap in
      Returns (k :: ks)
  end.

End PrimaryKey.

(** ** The resolver on a host with a bounded call stack

    [PrimaryKey] describes the resolver on a host whose call stack is deep
    enough for the values at hand: [String] and [JSON.stringify] run with
    [fuel_for h], which always suffices.  A real host can exhaust its stack in
    the recursion of these two built-ins, and then raises a [RangeError].
    Here the host says, for each call of the two built-ins, whether its stack
    suffices; the code of the resolver is the same. *)

Module Bounded.
Import JS PrimaryKey.

(** Whether the call stack of the host suffices for [String(v)] and for
    [JSON.stringify(v, replacer)] on the heap [h]. *)
Record Stack := {
  string_fits : heap → value → bool;
  json_fits : heap → value → bool
}.

(** A stack that suffices for every call. *)
Definition ample : Stack :=
  {| string_fits := λ _ _, true; json_fits := λ _ _, true |}.

(** A stack that holds [limit] nested calls of either built-in (the time
    zone of the host plays no part in the nesting). *)
Definition of_depth (limit : nat) : Stack :=
  {| string_fits := λ h v,
       match JS.ToString limit UTC_host h ∅ v with OutOfFuel => false | _ => true end;
     json_fits := λ h v,
       match SerializeJSONProperty limit h ∅ v with OutOfFuel => false | _ => true end |}.

(** [String(v)] *)
Definition ToString (stack : Stack) (host : Host) (h : heap) (v : value)
  : outcome string :=
  if string_fits stack h v then JS.ToString (fuel_for h) host h ∅ v
  else Throws RangeError.

(** [JSON.stringify(v, replacer)] *)
Definition JSON_stringify (stack : Stack) (h : heap) (v : value) : outcome (option string) :=
  if json_fits stack h v then JS.JSON_stringify h v
  else Throws RangeError.

Definition safeStringifyForPK (stack : Stack) (h : heap) (record : props)
  : outcome (option string) :=
  let '(l, h') := alloc h (OObject record) in
  match JSON_stringify stack h' (VRef l) with
  | Returns r => Returns r
  | Throws _ => Returns (Some (fallback_key record))
  | OutOfFuel => OutOfFuel
  end.

Definition extractConfiguredPrimaryKey (stack : Stack) (host : Host) (h : heap)
    (record : props) (key : key_spec) : outcome (option string) :=
  let keys := keys_of key in
  match resolve_fields record keys [] with
  | None => Returns None
  | Some resolved =>
      match keys with
      | [k] =>
          let* s := ToString stack host h (obj_get resolved k) in
          Returns (Some s)
      | _ => safeStringifyForPK stack h resolved
      end
  end.

Definition extractPrimaryKey (stack : Stack) (host : Host) (h : heap) (record : props)
    (tableName : string) (primaryKeyMap : gmap string key_spec) : outcome string :=
  match primaryKeyMap !! tableName with
  | None => Throws (ConfigurationError tableName)
  | Some configuredKey =>
      if negb (truthy configuredKey) then Throws (ConfigurationError tableName)
      else
        let* configured := extractConfiguredPrimaryKey stack host h record configuredKey in
        match configured with
        | None => Throws (MissingKeyError tableName)
        | Some s => Returns s
        end
  end.

End Bounded.

(** ** The audit table: schema declaration and setup SQL *)

Module Schema.
Import JS.

(** *** The drizzle table [auditLogs] *)

Inductive pg_type :=
| bigserial
| varchar (length : nat)
| text
| jsonb
| timestamp (withTimezone : bool).

Record column := {
  property : string;      (* key of the column in the TypeScript row object *)
  column_name : string;   (* name of the column in the store *)
  column_type : pg_type;
  notNull : bool;
  primaryKey : bool;
  defaultNow : bool
}.

Definition col (p n : string) (t : pg_type) : column :=
  {| property := p; column_name := n; column_type := t;
     notNull := false; primaryKey := false; defaultNow := false |}.
Definition with_notNull (c : column) : column :=
  {| property := property c; column_name := column_name c;
     column_type := column_type c; notNull := true;
     primaryKey := primaryKey c; defaultNow := defaultNow c |}.
(** A primary key is also not null. *)
Definition with_primaryKey (c : column) : column :=
  {| property := property c; column_name := column_name c;
     column_type := column_type c; notNull := true;
     primaryKey := true; defaultNow := defaultNow c |}.
Definition with_defaultNow (c : column) : column :=
  {| property := property c; column_name := column_name c;
     column_type := column_type c; notNull := notNull c;
     primaryKey := primaryKey c; defaultNow := true |}.

Definition auditLogs_name : string := "audit_logs".

Definition auditLogs : list column := [
  with_primaryKey (col "id" "id" bigserial);
  col "userId" "user_id" (varchar 255);
  col "ipAddress" "ip_address" (varchar 45);
  col "userAgent" "user_agent" text;
  with_notNull (col "action" "action" (varchar 255));
  with_notNull (col "tableName" "table_name" (varchar 255));
  with_notNull (col "recordId" "record_id" (varchar 255));
  col "values" "values" jsonb;
  with_defaultNow (with_notNull (col "createdAt" "created_at" (timestamp true)));
  col "metadata" "metadata" jsonb;
  col "transactionId" "transaction_id" (varchar 255);
  col "deletedAt" "deleted_at" (timestamp true)
].

(** [index(name).on(columns...)]: column properties, [true] for [.desc()]. *)
Record index_decl := {
  index_name : string;
  index_on : list (string * bool)
}.

Definition auditLogs_indexes : list index_decl := [
  {| index_name := "idx_audit_logs_table_record";
     index_on := [("tableName", false); ("recordId", false)] |};
  {| index_name := "idx_audit_logs_user_id"; index_on := [("userId", false)] |};
  {| index_name := "idx_audit_logs_created_at"; index_on := [("createdAt", true)] |};
  {| index_name := "idx_audit_logs_action"; index_on := [("action", false)] |};
  {| index_name := "idx_audit_logs_table_created";
     index_on := [("tableName", false); ("createdAt", true)] |}
].

Definition is_jsonb (c : column) : bool :=
  match column_type c with jsonb => true | _ => false end.

(** *** Identifier check: [/^[a-zA-Z_][a-zA-Z0-9_]*$/.test(name)] *)

(** Regular expressions over code units, with character classes given as
    inclusive ranges. *)
Inductive regex :=
| Void
| Eps
| Class (ranges : list (ascii * ascii))
| Cat (r1 r2 : regex)
| Alt (r1 r2 : regex)
| Star (r : regex).

Definition in_range (c : ascii) (r : ascii * ascii) : bool :=
  ((N_of_ascii r.1 <=? N_of_ascii c) && (N_of_ascii c <=? N_of_ascii r.2))%N.

Definition in_class (ranges : list (ascii * ascii)) (c : ascii) : bool :=
  existsb (in_range c) ranges.

Fixpoint nullable (r : regex) : bool :=
  match r with
  | Void => false
  | Eps => true
  | Class _ => false
  | Cat r1 r2 => nullable r1 && nullable r2
  | Alt r1 r2 => nullable r1 || nullable r2
  | Star _ => true
  end.

Fixpoint deriv (c : ascii) (r : regex) : regex :=
  match r with
  | Void => Void
  | Eps => Void
  | Class rs => if in_class rs c then Eps else Void
  | Cat r1 r2 =>
      if nullable r1 then Alt (Cat (deriv c r1) r2) (deriv c r2)
      else Cat (deriv c r1) r2
  | Alt r1 r2 => Alt (deriv c r1) (deriv c r2)
  | Star r' => Cat (deriv c r') (Star r')
  end.

(** [re.test(s)] for a pattern anchored at both ends ([^...$], no flags). *)
Fixpoint test (r : regex) (s : string) : bool :=
  match s with
  | EmptyString => nullable r
  | String c rest => test (deriv c r) rest
  end.

Definition ch (s : string) : ascii :=
  match s with String c _ => c | EmptyString => zero end.

Definition identifier_head : list (ascii * ascii) :=
  [(ch "a", ch "z"); (ch "A", ch "Z"); (ch "_", ch "_")].
Definition identifier_tail : list (ascii * ascii) :=
  [(ch "a", ch "z"); (ch "A", ch "Z"); (ch "0", ch "9"); (ch "_", ch "_")].

(** [^[a-zA-Z_][a-zA-Z0-9_]*$] *)
Definition identifier_pattern : regex :=
  Cat (Class identifier_head) (Star (Class identifier_tail)).

Definition assertSafeIdentifier (name : string) : outcome unit :=
  if negb (test identifier_pattern name)
  then Throws (Error ("Invalid table name: " +:+ name))
  else Returns tt.

(** *** The setup SQL *)

Definition DEFAULT_TABLE_NAME : string := "audit_logs".

(** A piece of the template literal: literal text, a double-quoted name, or
    the interpolation of [tableName]. *)
Inductive part :=
| Lit (s : string)
| Quoted (s : string)
| TableName.

Definition nl : string := str1 (ascii_of_nat 10).

(** The template literal of [buildCreateAuditTableSQL], line by line. *)
Definition template : list (list part) := [
  [];
  [Lit "-- Prevent concurrent test runs from racing on schema creation"];
  [Lit "SELECT pg_advisory_xact_lock(913742, 540129);"];
  [];
  [Lit "CREATE SEQUENCE IF NOT EXISTS "; TableName; Lit "_id_seq;"];
  [];
  [Lit "CREATE TABLE IF NOT EXISTS "; TableName; Lit " ("];
  [Lit "  id BIGINT PRIMARY KEY DEFAULT nextval('"; TableName; Lit "_id_seq'),"];
  [Lit "  "];
  [Lit "  user_id VARCHAR(255),"];
  [Lit "  ip_address VARCHAR(45),"];
  [Lit "  user_agent TEXT,"];
  [Lit "  "];
  [Lit "  action VARCHAR(255) NOT NULL,"];
  [Lit "  table_name VARCHAR(255) NOT NULL,"];
  [Lit "  record_id VARCHAR(255) NOT NULL,"];
  [Lit "  "];
  [Lit "  "; Quoted "values"; Lit " JSONB,"];
  [Lit "  "];
  [Lit "  created_at TIMESTAMPTZ NOT NULL DEFAULT NOW(),"];
  [Lit "  "];
  [Lit "  metadata JSONB,"];
  [Lit "  transaction_id VARCHAR(255),"];
  [Lit "  "];
  [Lit "  deleted_at TIMESTAMPTZ"];
  [Lit ");"];
  [];
  [Lit "ALTER SEQUENCE "; TableName; Lit "_id_seq OWNED BY "; TableName; Lit ".id;"];
  [];
  [Lit "-- Ensure custom actions are allowed when table already exists"];
  [Lit "ALTER TABLE "; TableName; Lit " DROP CONSTRAINT IF EXISTS audit_logs_action_check;"];
  [Lit "ALTER TABLE "; TableName; Lit " ALTER COLUMN action TYPE VARCHAR(255);"];
  [];
  [Lit "CREATE INDEX IF NOT EXISTS idx_audit_logs_table_record ON "; TableName;
   Lit "(table_name, record_id);"];
  [Lit "CREATE INDEX IF NOT EXISTS idx_audit_logs_user_id ON "; TableName;
   Lit "(user_id) WHERE user_id IS NOT NULL;"];
  [Lit "CREATE INDEX IF NOT EXISTS idx_audit_logs_created_at ON "; TableName;
   Lit "(created_at DESC);"];
  [Lit "CREATE INDEX IF NOT EXISTS idx_audit_logs_action ON "; TableName; Lit "(action);"];
  [Lit "CREATE INDEX IF NOT EXISTS idx_audit_logs_table_created ON "; TableName;
   Lit "(table_name, created_at DESC);"];
  [];
  [Lit "COMMENT ON TABLE "; TableName; Lit " IS 'Audit trail for all database operations';"];
  []
].

Definition render_part (tableName : string) (p : part) : string :=
  match p with
  | Lit s => s
  | Quoted s => String dquote (s +:+ str1 dquote)
  | TableName => tableName
  end.

Definition render_line (tableName : string) (ps : list part) : string :=
  foldr (λ p acc, render_part tableName p +:+ acc) "" ps.

Definition buildCreateAuditTableSQL (tableName : string) : outcome string :=
  let* _ := assertSafeIdentifier tableName in
  Returns (join nl (map (render_line tableName) template)).

Definition createAuditTableSQL : outcome string :=
  buildCreateAuditTableSQL DEFAULT_TABLE_NAME.

(** [createAuditTableSQLFor(tableName = DEFAULT_TABLE_NAME)]: [None] is the
    omitted argument. *)
Definition createAuditTableSQLFor (tableName : option string) : outcome string :=
  buildCreateAuditTableSQL (default DEFAULT_TABLE_NAME tableName).

End Schema.

(** ** Reading the generated SQL back

    The store receives the setup SQL as text.  The functions below read the
    statements the properties are about out of that text: the column
    definitions of [CREATE TABLE] and the [CREATE INDEX] statements. *)

Module SqlText.
Import JS.

Definition newline : ascii := ascii_of_nat 10.

(** The lines of a text (separated by line feeds). *)
Fixpoint lines (s : string) : list string :=
  match s with
  | EmptyString => [EmptyString]
  | String c rest =>
      if Ascii.eqb c newline then EmptyString :: lines rest
      else match lines rest with
           | l :: ls => String c l :: ls
           | [] => [str1 c]
           end
  end.

Fixpoint strip_prefix (p s : string) : option string :=
  match p, s with
  | EmptyString, _ => Some s
  | String a p', String b s' => if Ascii.eqb a b then strip_prefix p' s' else None
  | String _ _, EmptyString => None
  end.

(** The text before and after the first occurrence of [c]. *)
Fixpoint split_at_first (c : ascii) (s : string) : option (string * string) :=
  match s with
  | EmptyString => None
  | String a rest =>
      if Ascii.eqb a c then Some (EmptyString, rest)
      else match split_at_first c rest with
           | Some (before, after) => Some (String a before, after)
           | None => None
           end
  end.

Record create_index := {
  ci_name : string;
  ci_table : string
}.

(** [CREATE INDEX IF NOT EXISTS <name> ON <table>(...] *)
Definition read_create_index (line : string) : option create_index :=
  match strip_prefix "CREATE INDEX IF NOT EXISTS " line with
  | None => None
  | Some rest =>
      match split_at_first " " rest with
      | None => None
      | Some (name, rest) =>
          match strip_prefix "ON " rest with
          | None => None
          | Some rest =>
              match split_at_first "(" rest with
              | None => None
              | Some (table, _) => Some {| ci_name := name; ci_table := table |}
              end
          end
      end
  end.

Definition create_index_statements (sql : string) : list create_index :=
  omap read_create_index (lines sql).

Fixpoint trim_left (s : string) : string :=
  match s with
  | String c rest => if Ascii.eqb c " " then trim_left rest else s
  | EmptyString => s
  end.

Definition unquote (s : string) : string :=
  match s with
  | String c rest =>
      if Ascii.eqb c dquote
      then match split_at_first dquote rest with
           | Some (name, _) => name
           | None => s
           end
      else s
  | EmptyString => s
  end.

Definition strip_comma (s : string) : string :=
  match split_at_first "," s with
  | Some (before, _) => before
  | None => s
  end.

(** A column definition line: its name (unquoted) and the first word of its
    type. *)
Definition read_column (line : string) : option (string * string) :=
  match String.words line with
  | name :: type :: _ => Some (unquote name, strip_comma type)
  | _ => None
  end.

Fixpoint table_body (inside : bool) (ls : list string) : list string :=
  match ls with
  | [] => []
  | l :: rest =>
      if inside then
        if String.eqb l ");" then [] else l :: table_body true rest
      else
        match strip_prefix "CREATE TABLE IF NOT EXISTS " l with
        | Some _ => table_body true rest
        | None => table_body false rest
        end
  end.

(** The column definitions of the [CREATE TABLE] statement. *)
Definition table_columns (sql : string) : list (string * string) :=
  omap read_column (table_body false (lines sql)).

(** *** Index names in the store

    Index names are unique within a schema of the store, and
    [CREATE INDEX IF NOT EXISTS name ...] does nothing when a relation called
    [name] already exists.  The catalog records on which table each index
    name was created. *)
Definition exec_create_index (catalog : gmap string string) (c : create_index)
  : gmap string string :=
  match catalog !! ci_name c with
  | Some _ => catalog
  | None => <[ci_name c := ci_table c]> catalog
  end.

Definition run_create_indexes (catalog : gmap string string) (sql : string)
  : gmap string string :=
  foldl exec_create_index catalog (create_index_statements sql).

End SqlText.

(** ** The change-capture engine

    The engine that intercepts statements and derives audit records is not
    among the source files; this module follows the specification (sections
    2, 3 and 4.2 to 4.4) and calls the identity resolver of [PrimaryKey]. *)

Module Engine.
Import JS PrimaryKey.

(** Modelled from the spec: the action kinds of an AuditRecord (section 3);
    the interception code that produces them is missing. *)
Inductive Action := INSERT | UPDATE | DELETE.

(** Modelled from the spec: the ambient context supplied by the caller
    (section 4.4); the engine code that carries it is missing. *)
Record Context := {
  ctx_actorId : option string;
  ctx_ipAddress : option string;
  ctx_userAgent : option string;
  ctx_metadata : option props;
  ctx_transactionId : option string
}.

(** Modelled from the spec: an AuditRecord (section 3) before it is stored
    ([id] and [createdAt] are assigned by the store); the record builder is
    missing. *)
Record AuditRecord := {
  actorId : option string;
  ipAddress : option string;
  userAgent : option string;
  action : Action;
  tableName : string;
  recordId : string;
  oldValues : option props;
  newValues : option props;
  changedFields : option (list string);
  metadata : option props;
  transactionId : string
}.

(** Modelled from the spec: the engine configuration, which the missing
    [createAuditLogger] takes: whether the before-state of an UPDATE is
    captured, and the primary-key specification.  [captureDeletedValues] is
    the option [history/2-delete-simplification.md] says was removed; callers
    such as the test at [capture-config.test.ts:147-170] still pass it
    ([None]: not passed). *)
Record AuditConfig := {
  captureOldValues : bool;
  captureDeletedValues : option bool;
  primaryKeyMap : gmap string key_spec
}.

(** Modelled from the spec: a mutating statement against a table, with its
    target predicate, as the missing interception layer observes it. *)
Inductive Statement :=
| Insert (table : string) (rows : list props)
| Update (table : string) (predicate : props → bool) (set : props → props)
| Delete (table : string) (predicate : props → bool).

(** The audited store: the rows of each table. *)
Abbreviation store := (gmap string (list props)).

(** Modelled from the spec: the rows of a table of the audited store, which
    the missing engine reaches through its execute/query interface. *)
Definition rows_of (db : store) (table : string) : list props :=
  default [] (db !! table).

(** Modelled from the spec: the Snapshot Fetcher, the Diff Engine and the
    Audit Record Builder (sections 4.2 to 4.4) and the interception of
    statements are not among the source files; only the identity resolver
    they call is.  [fetchBefore] is the explicit-read strategy: the rows the
    predicate matches; zero matches give the empty sequence. *)
Definition fetchBefore (db : store) (table : string) (predicate : props → bool)
  : list props :=
  filter (λ r, predicate r = true) (rows_of db table).

(** Modelled from the spec: the Diff Engine of section 4.3.  Two fields differ
    when their serialized forms differ; a field present in one row only counts
    as changed; the order is the new row's key order, then the keys only the
    old row has. *)
Definition field_changed (h : heap) (old new : props) (k : string) : bool :=
  match obj_lookup old k, obj_lookup new k with
  | Some a, Some b => negb (bool_decide (JSON_stringify h a = JSON_stringify h b))
  | None, None => false
  | _, _ => true
  end.

(** Modelled from the spec: [diff] of section 4.3 (the Diff Engine is
    missing): the changed fields of the new row, then the fields only the old
    row has. *)
Definition diff (h : heap) (old new : props) : list string :=
  filter (λ k, field_changed h old new k = true) (Object_keys new)
  ++ filter (λ k, has_own new k = false) (Object_keys old).

(** Modelled from the spec: pairing of the before and after snapshots, row for
    row (section 4.4): one entry per row of whichever sequence has more
    entries, an absent sequence contributing no snapshot. *)
Fixpoint pair_rows (before after : list props)
  : list (option props * option props) :=
  match before, after with
  | b :: bs, a :: as' => (Some b, Some a) :: pair_rows bs as'
  | _, [] => map (λ b, (Some b, None)) before
  | [], _ => map (λ a, (None, Some a)) after
  end.

(** Modelled from the spec: the snapshots [build] of section 4.4 iterates
    over (the builder is missing); an absent sequence has no rows. *)
Definition paired (before after : option (list props))
  : list (option props * option props) :=
  pair_rows (default [] before) (default [] after).

(** Modelled from the spec: one record of [build] (section 4.4): the identity
    comes from the after snapshot when there is one, otherwise from the
    before snapshot. *)
Definition build_one (host : Host) (h : heap) (act : Action) (table : string)
    (pk : gmap string key_spec) (ctx : Context) (tx : string)
    (snap : option props * option props) : outcome AuditRecord :=
  let row := default (default [] snap.1) snap.2 in
  let* id := extractPrimaryKey host h row table pk in
  Returns {|
    actorId := ctx_actorId ctx;
    ipAddress := ctx_ipAddress ctx;
    userAgent := ctx_userAgent ctx;
    action := act;
    tableName := table;
    recordId := id;
    oldValues := snap.1;
    newValues := snap.2;
    changedFields :=
      match act, snap with
      | UPDATE, (Some old, Some new) => Some (diff h old new)
      | _, _ => None
      end;
    metadata := ctx_metadata ctx;
    transactionId := tx
  |}.

(** Modelled from the spec: the records of [build] (section 4.4), in row
    order.  A row whose identity does not resolve aborts the whole batch. *)
Fixpoint build_all (host : Host) (h : heap) (act : Action) (table : string)
    (pk : gmap string key_spec) (ctx : Context) (tx : string)
    (snaps : list (option props * option props)) : outcome (list AuditRecord) :=
  match snaps with
  | [] => Returns []
  | s :: rest =>
      let* r := build_one host h act table pk ctx tx s in
      let* rs := build_all host h act table pk ctx tx rest in
      Returns (r :: rs)
  end.

(** Modelled from the spec: [build] of section 4.4 (the builder is missing):
    the transaction id of the context, or a fresh one, is shared by the
    records of the call. *)
Definition build (host : Host) (h : heap) (act : Action) (table : string)
    (pk : gmap string key_spec) (ctx : Context) (fresh_tx : string)
    (before after : option (list props)) : outcome (list AuditRecord) :=
  let tx := default fresh_tx (ctx_transactionId ctx) in
  build_all host h act table pk ctx tx (paired before after).

(** Modelled from the spec: the store executing a mutating statement that
    reports its affected rows (the returning strategy of section 4.2): the
    rows inserted, the rows as updated, the rows removed.  The result is the
    store after the mutation and the reported rows. *)
Definition execute (db : store) (stmt : Statement) : store * list props :=
  match stmt with
  | Insert table rows => (<[table := rows_of db table ++ rows]> db, rows)
  | Update table predicate set =>
      (<[table := map (λ r, if predicate r then set r else r) (rows_of db table)]> db,
       map set (filter (λ r, predicate r = true) (rows_of db table)))
  | Delete table predicate =>
      (<[table := filter (λ r, predicate r = false) (rows_of db table)]> db,
       filter (λ r, predicate r = true) (rows_of db table))
  end.

(** Modelled from the spec: the data flow of section 2 for one statement.
    The before-state of an UPDATE is read first when its capture is
    configured; the mutation runs and reports its rows; the records are built
    from the after-state of INSERT and UPDATE and from the removed rows of
    DELETE.  The result is the store after the mutation and the batch of
    records handed to the Audit Writer. *)
Definition audit (cfg : AuditConfig) (host : Host) (h : heap) (ctx : Context)
    (fresh_tx : string) (db : store) (stmt : Statement)
  : outcome (store * list AuditRecord) :=
  match stmt with
  | Insert table _ =>
      let returned := execute db stmt in
      let* recs := build host h INSERT table (primaryKeyMap cfg) ctx fresh_tx
                     None (Some returned.2) in
      Returns (returned.1, recs)
  | Update table predicate _ =>
      let before :=
        if captureOldValues cfg then Some (fetchBefore db table predicate) else None in
      let returned := execute db stmt in
      let* recs := build host h UPDATE table (primaryKeyMap cfg) ctx fresh_tx
                     before (Some returned.2) in
      Returns (returned.1, recs)
  | Delete table _ =>
      let returned := execute db stmt in
      let* recs := build host h DELETE table (primaryKeyMap cfg) ctx fresh_tx
                     (Some returned.2) None in
      Returns (returned.1, recs)
  end.

End Engine.

(** ** The inputs the host model covers *)

Module Scope.
Import JS.

(** The names [Object.prototype] defines: reading one of them from a plain
    object that lacks it gives the inherited member, not [undefined]. *)
Definition Object_prototype_names : list string :=
  [ "constructor"; "__defineGetter__"; "__defineSetter__"; "hasOwnProperty";
    "__lookupGetter__"; "__lookupSetter__"; "isPrototypeOf";
    "propertyIsEnumerable"; "toString"; "valueOf"; "__proto__";
    "toLocaleString" ].

Definition inherited (k : string) : bool :=
  bool_decide (k ∈ Object_prototype_names).

(** [record[field] == null] in the code: the row has the field with the
    value [null] or [undefined], or it lacks the field and [Object.prototype]
    does not define it. *)
Definition absent (record : props) (field : string) : bool :=
  match obj_lookup record field with
  | Some v => nullish v
  | None => negb (inherited field)
  end.

(** [Number.isSafeInteger] *)
Definition safe_integer (z : Z) : bool := (Z.abs z <=? 9007199254740991)%Z.

(** The time values of valid Dates. *)
Definition valid_time (t : Z) : bool := (Z.abs t <=? 8640000000000000)%Z.

(** The values that stand for a value of the host, whose texts the model
    gives exactly: a Number is a safe integer, a Date is invalid or has a
    valid time value, a reference points to an object of the heap. *)
Definition denotes (h : heap) (v : value) : bool :=
  match v with
  | VNumber (NInt z) => safe_integer z
  | VDate (Some t) => valid_time t
  | VRef l => bool_decide (is_Some (h !! l))
  | _ => true
  end.

Definition object_well_formed (h : heap) (o : object) : bool :=
  match o with
  | OObject ps => forallb (λ kv, denotes h kv.2) ps
  | OArray es => forallb (denotes h) es
  | ORevokedProxy => true
  end.

(** A row and its heap are well formed when every value they hold is such a
    value. *)
Definition well_formed (h : heap) (record : props) : bool :=
  forallb (λ kv, denotes h kv.2) record
  && forallb (λ lo, object_well_formed h lo.2) (map_to_list h).

End Scope.

(** ** Paths through values and through serialized trees *)

Module Paths.
Import JS.

(** The [i]-th member of the object or array a value refers to. *)
Definition member (h : heap) (v : value) (i : nat) : option value :=
  match v with
  | VRef l =>
      match obj_at h l with
      | OObject ps => snd <$> ps !! i
      | OArray es => es !! i
      | ORevokedProxy => None
      end
  | _ => None
  end.

(** The value reached from [v] along a path of member positions. *)
Fixpoint follow (h : heap) (v : value) (p : list nat) : option value :=
  match p with
  | [] => Some v
  | i :: p' =>
      match member h v i with
      | Some v' => follow h v' p'
      | None => None
      end
  end.

Definition json_member (j : json) (i : nat) : option json :=
  match j with
  | JObj ms =>
      match ms !! i with
      | Some (_, Some j') => Some j'
      | _ => None
      end
  | JArr js => js !! i
  | _ => None
  end.

(** The subtree of a serialized tree at a path of member positions. *)
Fixpoint json_at (j : json) (p : list nat) : option json :=
  match p with
  | [] => Some j
  | i :: p' =>
      match json_member j i with
      | Some j' => json_at j' p'
      | None => None
      end
  end.

(** The tree at a position is an object or an array: the serialization has
    entered the value there. *)
Definition container (oj : option json) : bool :=
  match oj with
  | Some (JObj _) | Some (JArr _) => true
  | _ => false
  end.

(** The object [l] lies on the path [p] from [v]: a prefix of [p], possibly
    [p] itself, leads to it. *)
Definition on_path (h : heap) (v : value) (p : list nat) (l : loc) : Prop :=
  ∃ q t, p = q ++ t ∧ follow h v q = Some (VRef l).

(** The text [t] occurs in the text [s]. *)
Definition occurs (t s : string) : Prop := ∃ pre post, s = pre +:+ t +:+ post.

(** Number of objects of the heap that are not in [S]. *)
Definition unseen (h : heap) (S : gset loc) : nat := size (dom h ∖ S).

(** No object of the heap is a revoked proxy. *)
Definition proxy_free (h : heap) : Prop := ∀ l, h !! l ≠ Some ORevokedProxy.

End Paths.

(** ** The identifier pattern in the words of the specification *)

Module SchemaSpec.
Import JS Schema SqlText.

Fixpoint all_chars (P : ascii → bool) (s : string) : bool :=
  match s with
  | EmptyString => true
  | String c r => P c && all_chars P r
  end.

Definition is_letter (c : ascii) : bool :=
  in_range c (ch "a", ch "z") || in_range c (ch "A", ch "Z").
Definition is_decimal_digit (c : ascii) : bool := in_range c (ch "0", ch "9").
Definition is_underscore (c : ascii) : bool := Ascii.eqb c (ch "_").
Definition word_char (c : ascii) : bool :=
  is_letter c || is_decimal_digit c || is_underscore c.

(** The strict identifier pattern in the words of the specification: letters,
    digits and underscores, not starting with a digit (and not empty). *)
Definition strict_identifier (s : string) : bool :=
  match s with
  | EmptyString => false
  | String c _ => all_chars word_char s && negb (is_decimal_digit c)
  end.

(** The names the schema declaration gives its indexes. *)
Definition index_names : list string := map index_name auditLogs_indexes.

Definition is_not (c : ascii) (a : ascii) : bool := negb (Ascii.eqb a c).

Definition part_has_no_newline (p : part) : bool :=
  match p with
  | Lit s | Quoted s => all_chars (is_not newline) s
  | TableName => true
  end.

End SchemaSpec.

(** ** Expected records and sample data *)

Module Samples.
Import JS PrimaryKey Engine.

(** Modelled from the spec: the record section 4.4 prescribes for a removed
    row (the builder is missing). *)
Definition delete_record (ctx : Context) (tx table : string) (row : props)
    (id : string) : AuditRecord :=
  {| actorId := ctx_actorId ctx; ipAddress := ctx_ipAddress ctx;
     userAgent := ctx_userAgent ctx; action := DELETE; tableName := table;
     recordId := id; oldValues := Some row; newValues := None;
     changedFields := None; metadata := ctx_metadata ctx; transactionId := tx |}.

Definition orders_pkm : gmap string key_spec :=
  {[ "order_items" := KeyList ["order_id"; "line_no"] ]}.

Definition proxy_heap : heap := {[ 1%positive := ORevokedProxy ]}.
Definition pairs_pkm : gmap string key_spec := {[ "pairs" := KeyList ["b"; "a"] ]}.
Definition proxy_row : props := [("a", VRef 1%positive); ("b", VNumber (NInt 2))].

(** An object [{self, n}] whose [self] property refers to the object. *)
Definition cyclic_heap : heap :=
  {[ 1%positive := OObject [("self", VRef 1%positive); ("n", VNumber (NInt 1))] ]}.
Definition cyclic_row : props := [("a", VRef 1%positive); ("b", VString "x")].
Definition ab_pkm : gmap string key_spec := {[ "t" := KeyList ["a"; "b"] ]}.

Definition users_db : store :=
  {[ "users" := [ [("id", VNumber (NInt 1)); ("name", VString "A")];
                  [("id", VNumber (NInt 2)); ("name", VString "B")];
                  [("id", VNumber (NInt 3)); ("name", VString "C")] ] ]}.
Definition users_cfg (capture : bool) : AuditConfig :=
  {| captureOldValues := capture; captureDeletedValues := Some false;
     primaryKeyMap := {[ "users" := KeySingle "id" ]} |}.
Definition no_context : Context :=
  {| ctx_actorId := None; ctx_ipAddress := None; ctx_userAgent := None;
     ctx_metadata := None; ctx_transactionId := None |}.
Definition id_at_least (n : Z) (row : props) : bool :=
  match obj_get row "id" with
  | VNumber (NInt z) => (n <=? z)%Z
  | _ => false
  end.

End Samples.

(** ** The text of a composite identity *)

Module IdentityText.
Import JS Scope.

(** Values that are not objects of the heap and not null or undefined:
    booleans, Numbers (safe integers and the non-finite ones), BigInts,
    strings and Dates. *)
Definition scalar (v : value) : bool :=
  match v with
  | VBool _ | VBigInt _ | VString _ | VDate None => true
  | VNumber (NInt z) => safe_integer z
  | VNumber _ => true
  | VDate (Some t) => valid_time t
  | VUndefined | VNull | VRef _ => false
  end.

(** The text [JSON.stringify(v, replacer)] gives a value on its own (the empty
    text when it gives none). *)
Definition json_text (v : value) : string :=
  match JSON_stringify ∅ v with
  | Returns (Some s) => s
  | _ => EmptyString
  end.

(** The members [render] writes for an object. *)
Fixpoint member_texts (ms : list (string * option json)) : list string :=
  match ms with
  | [] => []
  | (k, Some j) :: rest => (QuoteJSONString k +:+ ":" +:+ render j) :: member_texts rest
  | (_, None) :: rest => member_texts rest
  end.

(** A JSON object text with the given member names and member texts, in
    order. *)
Definition object_text (members : list (string * string)) : string :=
  "{" +:+ join "," (map (λ m, QuoteJSONString m.1 +:+ ":" +:+ m.2) members) +:+ "}".

(** Integers: Numbers that are safe integers, and BigInts. *)
Definition integer (v : value) : bool :=
  match v with
  | VNumber (NInt z) => safe_integer z
  | VBigInt _ => true
  | _ => false
  end.

(** Values written as JSON literals of their own: booleans, Numbers that are
    safe integers, and strings. *)
Definition literal (v : value) : bool :=
  match v with
  | VBool _ | VString _ => true
  | VNumber (NInt z) => safe_integer z
  | _ => false
  end.

Definition hex_value (c : ascii) : N :=
  let n := N_of_ascii c in if (n <? 58)%N then (n - 48)%N else (n - 87)%N.

(** Reads back the first code unit of a text written by [QuoteJSONString],
    after the opening quote: the code unit and the rest of the text, or
    [None] at the closing quote. *)
Definition unquote_head (s : string) : option (ascii * string) :=
  match s with
  | EmptyString => None
  | String c rest =>
      if Ascii.eqb c dquote then None
      else if Ascii.eqb c backslash then
        match rest with
        | EmptyString => None
        | String e rest' =>
            if Ascii.eqb e "b" then Some (ascii_of_N 8, rest')
            else if Ascii.eqb e "t" then Some (ascii_of_N 9, rest')
            else if Ascii.eqb e "n" then Some (ascii_of_N 10, rest')
            else if Ascii.eqb e "f" then Some (ascii_of_N 12, rest')
            else if Ascii.eqb e "r" then Some (ascii_of_N 13, rest')
            else if Ascii.eqb e dquote then Some (dquote, rest')
            else if Ascii.eqb e backslash then Some (backslash, rest')
            else if Ascii.eqb e "u" then
              match rest' with
              | String _ (String _ (String h1 (String h2 rest''))) =>
                  Some (ascii_of_N (16 * hex_value h1 + hex_value h2), rest'')
              | _ => None
              end
            else None
        end
      else Some (c, rest)
  end.

(** A row seen through a function of its values. *)
Definition view {B} (φ : value → B) (ps : props) : list (string * B) :=
  map (λ kv, (kv.1, φ kv.2)) ps.

End IdentityText.

(** ** More sample data *)

Module MoreSamples.
Import JS PrimaryKey.

Definition users_pkm : gmap string key_spec := {[ "users" := KeySingle "id" ]}.

(** An object that refers to itself, and a revoked proxy. *)
Definition cyclic_proxy_heap : heap :=
  {[ 1%positive := OObject [("self", VRef 1%positive)]; 2%positive := ORevokedProxy ]}.
Definition cyclic_proxy_row : props := [("a", VRef 1%positive); ("b", VRef 2%positive)].

(** The array [[1, 2]]. *)
Definition array_heap : heap :=
  {[ 1%positive := OArray [VNumber (NInt 1); VNumber (NInt 2)] ]}.

End MoreSamples.

(** ** Reading more of the setup SQL

    Further readers of the setup SQL: column constraints, the sequence of
    the [id] column, and the columns of the indexes. *)

Module SqlReaders.
Import JS Schema SqlText SchemaSpec.

(** The characters of [s] that satisfy [P], in order. *)
Fixpoint keep (P : ascii → bool) (s : string) : string :=
  match s with
  | EmptyString => EmptyString
  | String c rest => if P c then String c (keep P rest) else keep P rest
  end.

(** What is left of a text when letters, digits and underscores are dropped:
    spaces, line ends, quotes, brackets, semicolons, dashes, ... *)
Definition punctuation (s : string) : string := keep (λ c, negb (word_char c)) s.

(** Whether [needle] occurs in [s]. *)
Fixpoint contains (needle s : string) : bool :=
  match s with
  | EmptyString => match needle with EmptyString => true | _ => false end
  | String _ rest =>
      match strip_prefix needle s with
      | Some _ => true
      | None => contains needle rest
      end
  end.

(** The text after the first occurrence of [needle] in [s]. *)
Fixpoint after (needle s : string) : option string :=
  match s with
  | EmptyString => strip_prefix needle s
  | String _ rest =>
      match strip_prefix needle s with
      | Some r => Some r
      | None => after needle rest
      end
  end.

(** The pieces of [s] between the occurrences of [c]. *)
Fixpoint split_on (c : ascii) (s : string) : list string :=
  match s with
  | EmptyString => [EmptyString]
  | String a rest =>
      if Ascii.eqb a c then EmptyString :: split_on c rest
      else match split_on c rest with
           | l :: ls => String a l :: ls
           | [] => [str1 a]
           end
  end.

(** *** Columns *)

(** PostgreSQL's name of the type a column builder of the declaration stands
    for.  [bigserial] is [BIGINT] with a default drawn from a sequence. *)
Definition sql_type (t : pg_type) : string :=
  match t with
  | bigserial => "BIGINT"
  | varchar n => "VARCHAR(" +:+ nat_to_dec n +:+ ")"
  | text => "TEXT"
  | jsonb => "JSONB"
  | timestamp true => "TIMESTAMPTZ"
  | timestamp false => "TIMESTAMP"
  end.

Record column_def := {
  cd_name : string;
  cd_type : string;
  cd_not_null : bool;      (* NOT NULL, or PRIMARY KEY, which implies it *)
  cd_default_now : bool
}.

Definition read_column_def (line : string) : option column_def :=
  match read_column line with
  | None => None
  | Some (name, type) =>
      Some {| cd_name := name; cd_type := type;
              cd_not_null := contains "NOT NULL" line || contains "PRIMARY KEY" line;
              cd_default_now := contains "DEFAULT NOW()" line |}
  end.

(** The column definitions of the [CREATE TABLE] statement, with their
    constraints. *)
Definition table_column_defs (sql : string) : list column_def :=
  omap read_column_def (table_body false (lines sql)).

(** [CREATE TABLE IF NOT EXISTS <table> (] *)
Definition read_create_table (line : string) : option string :=
  match strip_prefix "CREATE TABLE IF NOT EXISTS " line with
  | None => None
  | Some rest => fst <$> split_at_first " " rest
  end.

Definition created_tables (sql : string) : list string :=
  omap read_create_table (lines sql).

(** What the declaration says of a column. *)
Definition declared_column (c : column) : column_def :=
  {| cd_name := column_name c; cd_type := sql_type (column_type c);
     cd_not_null := notNull c; cd_default_now := defaultNow c |}.

(** *** The sequence of the [id] column *)

(** [CREATE SEQUENCE IF NOT EXISTS <sequence>;] *)
Definition read_create_sequence (line : string) : option string :=
  match strip_prefix "CREATE SEQUENCE IF NOT EXISTS " line with
  | None => None
  | Some rest => fst <$> split_at_first ";" rest
  end.

(** A column definition [<column> ... DEFAULT nextval('<sequence>')...]: the
    column and the sequence. *)
Definition read_nextval_default (line : string) : option (string * string) :=
  match after "DEFAULT nextval('" line with
  | None => None
  | Some rest =>
      match split_at_first "'" rest, read_column line with
      | Some (sequence, _), Some (column, _) => Some (column, sequence)
      | _, _ => None
      end
  end.

(** [ALTER SEQUENCE <sequence> OWNED BY <table>.<column>;] *)
Definition read_owned_by (line : string) : option (string * string * string) :=
  match strip_prefix "ALTER SEQUENCE " line with
  | None => None
  | Some rest =>
      match split_at_first " " rest with
      | None => None
      | Some (sequence, rest) =>
          match strip_prefix "OWNED BY " rest with
          | None => None
          | Some rest =>
              match split_at_first "." rest with
              | None => None
              | Some (table, rest) =>
                  match split_at_first ";" rest with
                  | None => None
                  | Some (column, _) => Some (sequence, table, column)
                  end
              end
          end
      end
  end.

Definition sequences_created (sql : string) : list string :=
  omap read_create_sequence (lines sql).

(** The columns of the [CREATE TABLE] statement that draw their default from
    a sequence. *)
Definition sequence_defaults (sql : string) : list (string * string) :=
  omap read_nextval_default (table_body false (lines sql)).

Definition sequence_owners (sql : string) : list (string * string * string) :=
  omap read_owned_by (lines sql).

(** *** Index columns *)

Record index_def := {
  ix_name : string;
  ix_table : string;
  ix_on : list (string * bool);     (* column, [true] for [DESC] *)
  ix_where : option string
}.

(** [<column>] or [<column> DESC] *)
Definition read_index_column (s : string) : option (string * bool) :=
  match String.words s with
  | [name] => Some (name, false)
  | [name; dir] => if String.eqb dir "DESC" then Some (name, true) else None
  | _ => None
  end.

(** What follows the column list: [;] or [ WHERE <predicate>;] *)
Definition read_index_tail (s : string) : option (option string) :=
  if String.eqb s ";" then Some None
  else match strip_prefix " WHERE " s with
       | None => None
       | Some rest =>
           match split_at_first ";" rest with
           | Some (predicate, _) => Some (Some predicate)
           | None => None
           end
       end.

(** [CREATE INDEX IF NOT EXISTS <name> ON <table>(<columns>)<tail>] *)
Definition read_index_def (line : string) : option index_def :=
  match strip_prefix "CREATE INDEX IF NOT EXISTS " line with
  | None => None
  | Some rest =>
      match split_at_first " " rest with
      | None => None
      | Some (name, rest) =>
          match strip_prefix "ON " rest with
          | None => None
          | Some rest =>
              match split_at_first "(" rest with
              | None => None
              | Some (table, rest) =>
                  match split_at_first ")" rest with
                  | None => None
                  | Some (columns, tail) =>
                      match mapM read_index_column (split_on "," columns),
                            read_index_tail tail with
                      | Some on, Some where_ =>
                          Some {| ix_name := name; ix_table := table;
                                  ix_on := on; ix_where := where_ |}
                      | _, _ => None
                      end
                  end
              end
          end
      end
  end.

Definition index_defs (sql : string) : list index_def :=
  omap read_index_def (lines sql).

(** The store column of a property of the declaration. *)
Definition column_of (p : string) : option string :=
  column_name <$> find (λ c, String.eqb (property c) p) auditLogs.

(** The columns and directions the declaration gives an index. *)
Definition declared_index_on (d : index_decl) : option (list (string * bool)) :=
  mapM (λ pd : string * bool, (λ c, (c, pd.2)) <$> column_of pd.1) (index_on d).

End SqlReaders.

(** * Properties *)

(** ** The host model: serialization terminates and cuts cycles *)

Module JSFacts.
Import JS Paths.

Lemma bind_returns {A B} (m : outcome A) (k : A → outcome B) b :
  bind m k = Returns b → ∃ a, m = Returns a ∧ k a = Returns b.
Proof. destruct m; simpl; intros; eauto; discriminate. Qed.

Lemma bind_not_out_of_fuel {A B} (m : outcome A) (k : A → outcome B) :
  m ≠ OutOfFuel → (∀ a, m = Returns a → k a ≠ OutOfFuel) → bind m k ≠ OutOfFuel.
Proof. destruct m; simpl; intros; auto. Qed.

(** *** Decimal numerals *)

Lemma digit_char_value d : (d < 10)%N → (N_of_ascii (digit_char d) - 48 = d)%N.
Proof.
  intros Hd. unfold digit_char. rewrite N_ascii_embedding by lia. lia.
Qed.

Lemma digit_char_is_digit d : (d < 10)%N → is_digit (digit_char d) = true.
Proof.
  intros Hd. unfold is_digit, digit_char. rewrite N_ascii_embedding by lia.
  apply andb_true_iff. split; apply N.leb_le; lia.
Qed.

(** Reading the numeral back gives the number. *)
Lemma dec_go_value fuel : ∀ n acc,
  (n < 10 ^ N.of_nat fuel)%N → digits_value (dec_go fuel n acc) 0 = digits_value acc n.
Proof.
  induction fuel as [|f IH]; intros n acc Hn.
  - simpl in *. by replace n with 0%N by lia.
  - cbn [dec_go]. rewrite Nat2N.inj_succ, N.pow_succ_r' in Hn.
    assert (Hd : digits_value (String (digit_char (n mod 10)) acc) 0
                 = digits_value acc (n mod 10)).
    { cbn [digits_value]. rewrite digit_char_value by (apply N.mod_lt; lia).
      f_equal. }
    destruct (n / 10 =? 0)%N eqn:E.
    + apply N.eqb_eq in E. rewrite Hd. f_equal.
      rewrite (N.div_mod n 10) at 2 by lia. lia.
    + rewrite IH.
      * cbn [digits_value]. rewrite digit_char_value by (apply N.mod_lt; lia).
        f_equal. rewrite (N.div_mod n 10) at 3 by lia. lia.
      * apply N.Div0.div_lt_upper_bound. lia.
Qed.

Lemma dec_go_digits fuel : ∀ n acc,
  all_digits acc = true → all_digits (dec_go fuel n acc) = true.
Proof.
  induction fuel as [|f IH]; intros n acc Ha; [done|].
  cbn [dec_go].
  assert (Hd : all_digits (String (digit_char (n mod 10)) acc) = true).
  { cbn [all_digits]. rewrite digit_char_is_digit by (apply N.mod_lt; lia). done. }
  destruct (n / 10 =? 0)%N; [done | by apply IH].
Qed.

Lemma size_nat_bound p : (Npos p < 10 ^ N.of_nat (Pos.size_nat p))%N.
Proof.
  induction p as [p IH|p IH|]; cbn [Pos.size_nat];
    rewrite ?Nat2N.inj_succ, ?N.pow_succ_r'; simpl; lia.
Qed.

Lemma N_to_dec_value n : digits_value (N_to_dec n) 0 = n.
Proof.
  unfold N_to_dec. rewrite dec_go_value; [done|].
  rewrite Nat2N.inj_succ, N.pow_succ_r'.
  destruct n as [|p]; [simpl; lia|].
  pose proof (size_nat_bound p). simpl N.size_nat. lia.
Qed.

Lemma N_to_dec_digits n : all_digits (N_to_dec n) = true.
Proof. by apply dec_go_digits. Qed.

Lemma N_to_dec_inj n m : N_to_dec n = N_to_dec m → n = m.
Proof. intros H. by rewrite <- (N_to_dec_value n), <- (N_to_dec_value m), H. Qed.

(** Distinct integers have distinct numerals. *)
Lemma Z_to_dec_inj a b : Z_to_dec a = Z_to_dec b → a = b.
Proof.
  assert (Hneg : ∀ p n, "-" +:+ N_to_dec (Npos p) ≠ N_to_dec n).
  { intros p n H. pose proof (N_to_dec_digits n) as Hn. rewrite <- H in Hn. done. }
  assert (Hzero : ∀ p, "0"%string ≠ N_to_dec (Npos p)).
  { intros p H. pose proof (N_to_dec_value (Npos p)) as Hv. rewrite <- H in Hv. done. }
  destruct a as [|p|p], b as [|q|q]; simpl; intros H;
    first [ done
          | by apply Hzero in H
          | by symmetry in H; apply Hzero in H
          | by apply (Hneg _ (Npos _)) in H
          | by symmetry in H; apply (Hneg _ (Npos _)) in H
          | by apply N_to_dec_inj in H as [= ->]
          | injection H as H; by apply N_to_dec_inj in H as [= ->] ].
Qed.

Section Loops.
Variable rec : gset loc → value → outcome (gset loc * option json).
Hypothesis rec_mono : ∀ S v r, rec S v = Returns r → S ⊆ r.1.

Lemma ser_members_mono ps : ∀ S r, ser_members rec S ps = Returns r → S ⊆ r.1.
Proof.
  induction ps as [|[k v] ps IH]; simpl; intros S r H.
  - injection H as <-. done.
  - apply bind_returns in H as (r1 & H1 & H).
    apply bind_returns in H as (r2 & H2 & H).
    injection H as <-. simpl.
    apply rec_mono in H1. apply IH in H2. set_solver.
Qed.

Lemma ser_items_mono es : ∀ S r, ser_items rec S es = Returns r → S ⊆ r.1.
Proof.
  induction es as [|v es IH]; simpl; intros S r H.
  - injection H as <-. done.
  - apply bind_returns in H as (r1 & H1 & H).
    apply bind_returns in H as (r2 & H2 & H).
    injection H as <-. simpl.
    apply rec_mono in H1. apply IH in H2. set_solver.
Qed.

Variable P : gset loc → Prop.
Hypothesis P_up : ∀ S S', S ⊆ S' → P S → P S'.
Hypothesis rec_total : ∀ S v, P S → rec S v ≠ OutOfFuel.

Lemma ser_members_total ps : ∀ S, P S → ser_members rec S ps ≠ OutOfFuel.
Proof.
  induction ps as [|[k v] ps IH]; simpl; intros S HS; [done|].
  apply bind_not_out_of_fuel; [by apply rec_total|].
  intros r1 H1. apply bind_not_out_of_fuel; [|done].
  apply IH. eapply P_up; [|done]. by eapply rec_mono.
Qed.

Lemma ser_items_total es : ∀ S, P S → ser_items rec S es ≠ OutOfFuel.
Proof.
  induction es as [|v es IH]; simpl; intros S HS; [done|].
  apply bind_not_out_of_fuel; [by apply rec_total|].
  intros r1 H1. apply bind_not_out_of_fuel; [|done].
  apply IH. eapply P_up; [|done]. by eapply rec_mono.
Qed.
End Loops.

Lemma SerializeJSONProperty_mono fuel h :
  ∀ S v r, SerializeJSONProperty fuel h S v = Returns r → S ⊆ r.1.
Proof.
  induction fuel as [|n IH]; intros S v r H;
    destruct v; simpl in H; try by simplify_eq.
  - destruct (obj_at h l); [| |done];
      (destruct (decide (l ∈ S)); by simplify_eq).
  - destruct (obj_at h l); [| |done];
      (destruct (decide (l ∈ S)); [by simplify_eq |]);
      apply bind_returns in H as (r1 & H1 & H); simplify_eq; simpl.
    + apply ser_members_mono in H1; [set_solver | done].
    + apply ser_items_mono in H1; [set_solver | done].
Qed.

Lemma unseen_mono h S S' : S ⊆ S' → unseen h S' ≤ unseen h S.
Proof. intros Hs. apply subseteq_size. set_solver. Qed.

Lemma unseen_enter h l S :
  l ∈ dom h → l ∉ S → unseen h ({[l]} ∪ S) < unseen h S.
Proof. intros Hl Hn. apply subset_size. set_solver. Qed.

Lemma obj_at_allocated h l :
  l ∈ dom h ∨ obj_at h l = OObject [].
Proof.
  unfold obj_at. destruct (h !! l) eqn:E; [left | by right].
  apply elem_of_dom. eauto.
Qed.

Lemma SerializeJSONProperty_total fuel h :
  ∀ S v, unseen h S < fuel → SerializeJSONProperty fuel h S v ≠ OutOfFuel.
Proof.
  induction fuel as [|n IH]; intros S v Hf; [lia|].
  destruct v; simpl; try done.
  destruct (obj_at_allocated h l) as [Hl|Hl].
  - destruct (obj_at h l); [| |done];
      (destruct (decide (l ∈ S)); [done|]);
      (apply bind_not_out_of_fuel; [|done]).
    + apply (ser_members_total _ (SerializeJSONProperty_mono n h) (λ S', unseen h S' < n)).
      * intros S1 S2 Hs. pose proof (unseen_mono h _ _ Hs). lia.
      * intros; by apply IH.
      * pose proof (unseen_enter h l S Hl n0). lia.
    + apply (ser_items_total _ (SerializeJSONProperty_mono n h) (λ S', unseen h S' < n)).
      * intros S1 S2 Hs. pose proof (unseen_mono h _ _ Hs). lia.
      * intros; by apply IH.
      * pose proof (unseen_enter h l S Hl n0). lia.
  - rewrite Hl. destruct (decide (l ∈ S)); done.
Qed.

Lemma JSON_stringify_total h v : JSON_stringify h v ≠ OutOfFuel.
Proof.
  unfold JSON_stringify. apply bind_not_out_of_fuel; [|done].
  apply SerializeJSONProperty_total. unfold unseen, fuel_for.
  rewrite difference_empty_L, size_dom. lia.
Qed.

Lemma join_items_total (rec : value → outcome string) es :
  (∀ v, rec v ≠ OutOfFuel) → join_items rec es ≠ OutOfFuel.
Proof.
  intros Hrec. induction es as [|e es IH]; simpl; [done|].
  apply bind_not_out_of_fuel; [by destruct (nullish e)|].
  intros s _. by apply bind_not_out_of_fuel.
Qed.

Lemma ToString_total fuel host h :
  ∀ stack v, unseen h stack < fuel → ToString fuel host h stack v ≠ OutOfFuel.
Proof.
  induction fuel as [|n IH]; intros stack v Hf; [lia|].
  destruct v; simpl; try done.
  destruct (obj_at_allocated h l) as [Hl|Hl].
  - destruct (obj_at h l); [by destruct (has_own ps _)| |done].
    destruct (decide (l ∈ stack)); [done|].
    apply bind_not_out_of_fuel; [|done].
    apply join_items_total. intros v. apply IH.
    pose proof (unseen_enter h l stack Hl n0). lia.
  - rewrite Hl. done.
Qed.

Section Lookups.
Variable rec : gset loc → value → outcome (gset loc * option json).
Hypothesis rec_mono : ∀ S v r, rec S v = Returns r → S ⊆ r.1.

Lemma ser_members_lookup ps : ∀ S r i k v,
  ser_members rec S ps = Returns r → ps !! i = Some (k, v) →
  ∃ Si ri, S ⊆ Si ∧ rec Si v = Returns ri ∧ r.2 !! i = Some (k, ri.2).
Proof.
  induction ps as [|[k0 v0] ps IH]; intros S r i k v H Hi; [done|].
  simpl in H. apply bind_returns in H as (r1 & H1 & H).
  apply bind_returns in H as (r2 & H2 & H). simplify_eq.
  destruct i as [|i]; simpl in *.
  - simplify_eq. eauto.
  - destruct (IH _ _ _ _ _ H2 Hi) as (Si & ri & Hs & Hr & Hl).
    exists Si, ri. split_and!; [|done..].
    apply rec_mono in H1. set_solver.
Qed.

Lemma ser_items_lookup es : ∀ S r i v,
  ser_items rec S es = Returns r → es !! i = Some v →
  ∃ Si ri, S ⊆ Si ∧ rec Si v = Returns ri ∧ r.2 !! i = Some (default JNull ri.2).
Proof.
  induction es as [|v0 es IH]; intros S r i v H Hi; [done|].
  simpl in H. apply bind_returns in H as (r1 & H1 & H).
  apply bind_returns in H as (r2 & H2 & H). simplify_eq.
  destruct i as [|i]; simpl in *.
  - simplify_eq. eauto.
  - destruct (IH _ _ _ _ H2 Hi) as (Si & ri & Hs & Hr & Hl).
    exists Si, ri. split_and!; [|done..].
    apply rec_mono in H1. set_solver.
Qed.
End Lookups.

(** The replacer answers a reference to an object it has seen with the
    placeholder. *)
Lemma seen_reference_is_placeholder fuel h S l r :
  l ∈ S → SerializeJSONProperty fuel h S (VRef l) = Returns r →
  r = (S, Some (JStr Circular)).
Proof.
  intros Hl H. destruct fuel; simpl in H;
    (destruct (obj_at h l); [| |done]); rewrite decide_True in H by done;
    by simplify_eq.
Qed.

(** *** The default sort on strings *)

Lemma sort_insert_perm s l : sort_insert s l ≡ₚ s :: l.
Proof.
  induction l as [|x l IH]; simpl; [done|].
  destruct (String.leb s x); [done|].
  rewrite IH. apply Permutation_swap.
Qed.

Lemma sort_strings_perm l : sort_strings l ≡ₚ l.
Proof.
  induction l as [|x l IH]; simpl; [done|].
  by rewrite sort_insert_perm, IH.
Qed.

Lemma sort_insert_sorted s l :
  Sorted String.le l → Sorted String.le (sort_insert s l).
Proof.
  induction 1 as [|x l Hs IH Hhd]; simpl.
  - by repeat constructor.
  - destruct (String.leb s x) eqn:E.
    + constructor; [by constructor|]. constructor. unfold String.le. by rewrite E.
    + constructor; [done|].
      assert (Hxs : String.le x s).
      { destruct (total String.le s x) as [Hle|Hle]; [|done].
        unfold String.le in Hle. by rewrite E in Hle. }
      destruct Hhd as [|y l' Hxy]; simpl.
      * by constructor.
      * destruct (String.leb s y); by constructor.
Qed.

(** [sort_strings] returns its argument in ascending order. *)
Lemma sort_strings_sorted l : Sorted String.le (sort_strings l).
Proof.
  induction l as [|x l IH]; simpl; [constructor|].
  by apply sort_insert_sorted.
Qed.

End JSFacts.

Module PrimaryKeyFacts.
Import JS PrimaryKey Scope Paths IdentityText Samples MoreSamples JSFacts.

(** What the code reads as null or undefined, the model does too. *)
Lemma absent_nullish record f : absent record f = true → nullish (obj_get record f) = true.
Proof.
  unfold absent, obj_get. by destruct (obj_lookup record f).
Qed.

(** On the names [Object.prototype] does not define, the model reads what the
    code reads. *)
Lemma nullish_absent record f :
  inherited f = false → nullish (obj_get record f) = absent record f.
Proof.
  intros Hf. unfold absent, obj_get. rewrite Hf. by destruct (obj_lookup record f).
Qed.

Lemma obj_lookup_get r1 r2 f : obj_lookup r1 f = obj_lookup r2 f → obj_get r1 f = obj_get r2 f.
Proof. unfold obj_get. by intros ->. Qed.

Lemma resolve_fields_missing record keys : ∀ resolved f,
  f ∈ keys → nullish (obj_get record f) = true →
  resolve_fields record keys resolved = None.
Proof.
  induction keys as [|k keys IH]; intros resolved f Hf Hn.
  - by apply not_elem_of_nil in Hf.
  - simpl. destruct (nullish (obj_get record k)) eqn:Hk; [done|].
    apply elem_of_cons in Hf as [->|Hf]; [congruence|]. eauto.
Qed.

Lemma resolve_fields_present record keys : ∀ resolved,
  (∀ f, f ∈ keys → nullish (obj_get record f) = false) →
  ∃ resolved', resolve_fields record keys resolved = Some resolved'.
Proof.
  induction keys as [|k keys IH]; intros resolved Hp; simpl; [eauto|].
  rewrite Hp by apply list_elem_of_here.
  apply IH. intros f Hf. apply Hp. by apply list_elem_of_further.
Qed.

(** The loop reads the row only through the configured fields. *)
Lemma resolve_fields_ext r1 r2 keys : ∀ resolved,
  (∀ f, f ∈ keys → obj_get r1 f = obj_get r2 f) →
  resolve_fields r1 keys resolved = resolve_fields r2 keys resolved.
Proof.
  induction keys as [|k keys IH]; intros resolved He; simpl; [done|].
  rewrite (He k) by apply list_elem_of_here.
  destruct (nullish (obj_get r2 k)); [done|].
  apply IH. intros f Hf. apply He. by apply list_elem_of_further.
Qed.

Lemma extractConfiguredPrimaryKey_ext host h r1 r2 key :
  (∀ f, f ∈ keys_of key → obj_get r1 f = obj_get r2 f) →
  extractConfiguredPrimaryKey host h r1 key = extractConfiguredPrimaryKey host h r2 key.
Proof.
  intros He. unfold extractConfiguredPrimaryKey.
  by rewrite (resolve_fields_ext r1 r2 _ _ He).
Qed.

(** For rows in the same heap, identity resolution depends on the row only
    through the values of the configured key fields: the order in which the
    fields were inserted and the other fields do not matter. *)
Lemma extractPrimaryKey_ext host h r1 r2 tableName pkm key :
  pkm !! tableName = Some key →
  (∀ f, f ∈ keys_of key → obj_get r1 f = obj_get r2 f) →
  extractPrimaryKey host h r1 tableName pkm = extractPrimaryKey host h r2 tableName pkm.
Proof.
  intros Hk He. unfold extractPrimaryKey. rewrite Hk.
  by rewrite (extractConfiguredPrimaryKey_ext host h r1 r2 key He).
Qed.

Lemma alloc_lookup h o : (alloc h o).2 !! (alloc h o).1 = Some o.
Proof. unfold alloc. simpl. apply lookup_insert_eq. Qed.

Lemma alloc_fresh h o : (alloc h o).1 ∉ dom h.
Proof. unfold alloc. simpl. apply is_fresh. Qed.

Lemma obj_at_alloc_root h ps :
  obj_at (alloc h (OObject ps)).2 (alloc h (OObject ps)).1 = OObject ps.
Proof. unfold obj_at. by rewrite alloc_lookup. Qed.

(** [JSON.stringify] of an ordinary object is never [undefined]. *)
Lemma JSON_stringify_object h l ps r :
  obj_at h l = OObject ps → JSON_stringify h (VRef l) = Returns r → ∃ s, r = Some s.
Proof.
  unfold JSON_stringify, fuel_for. intros Ho H.
  apply bind_returns in H as (r1 & H1 & H). simplify_eq.
  simpl in H1. rewrite Ho in H1.
  destruct (decide (l ∈ ∅)) as [Hin|_]; [by apply not_elem_of_empty in Hin|].
  apply bind_returns in H1 as (r2 & H2 & H1). simplify_eq. simpl. eauto.
Qed.

Lemma safeStringifyForPK_cases h record :
  let l := (alloc h (OObject record)).1 in
  let h' := (alloc h (OObject record)).2 in
  (∃ s, JSON_stringify h' (VRef l) = Returns (Some s)
        ∧ safeStringifyForPK h record = Returns (Some s))
  ∨ (∃ e, JSON_stringify h' (VRef l) = Throws e
          ∧ safeStringifyForPK h record = Returns (Some (fallback_key record))).
Proof.
  intros l h'. unfold safeStringifyForPK.
  destruct (alloc h (OObject record)) as [l0 h0] eqn:Ha.
  assert (Ho : obj_at h0 l0 = OObject record).
  { pose proof (alloc_lookup h (OObject record)) as Hl. rewrite Ha in Hl.
    unfold obj_at. simpl in Hl. by rewrite Hl. }
  subst l h'. simpl.
  destruct (JSON_stringify h0 (VRef l0)) as [r|e|] eqn:Hj.
  - destruct (JSON_stringify_object _ _ _ _ Ho Hj) as [s ->]. left. eauto.
  - right. eauto.
  - by apply JSON_stringify_total in Hj.
Qed.

(** *** Keys of the object the loop builds *)

Lemma obj_lookup_None ps k : obj_lookup ps k = None ↔ k ∉ Object_keys ps.
Proof.
  induction ps as [|[k' v'] ps IH]; simpl.
  - split; [intros _; apply not_elem_of_nil | done].
  - rewrite not_elem_of_cons. destruct (String.eqb k' k) eqn:E.
    + apply String.eqb_eq in E. split; [done | intros [? _]; congruence].
    + apply String.eqb_neq in E. rewrite IH. split; [intros ?; split; congruence | tauto].
Qed.

Lemma Object_keys_replace ps k v : Object_keys (obj_replace ps k v) = Object_keys ps.
Proof.
  induction ps as [|[k' v'] ps IH]; simpl; [done|].
  destruct (String.eqb k' k); simpl; [done | by rewrite IH].
Qed.

Lemma Object_keys_insert_index ps i k v f :
  f ∈ Object_keys (insert_index ps i k v) ↔ f = k ∨ f ∈ Object_keys ps.
Proof.
  induction ps as [|[k' v'] ps IH]; simpl.
  - rewrite list_elem_of_singleton, elem_of_nil. tauto.
  - destruct (array_index k') as [j|]; [destruct (j <? i)%N|]; simpl;
      rewrite ?elem_of_cons, ?IH; simpl; rewrite ?elem_of_cons; tauto.
Qed.

Lemma NoDup_insert_index ps i k v :
  k ∉ Object_keys ps → NoDup (Object_keys ps) → NoDup (Object_keys (insert_index ps i k v)).
Proof.
  induction ps as [|[k' v'] ps IH]; simpl; intros Hk Hnd.
  - apply NoDup_singleton.
  - apply not_elem_of_cons in Hk as [Hne Hk]. apply NoDup_cons in Hnd as [Hk' Hnd].
    assert (NoDup (k :: k' :: Object_keys ps)).
    { apply NoDup_cons. split; [|by apply NoDup_cons].
      rewrite not_elem_of_cons. done. }
    destruct (array_index k') as [j|]; [destruct (j <? i)%N|]; simpl; try done.
    apply NoDup_cons. split; [|by apply IH].
    rewrite Object_keys_insert_index. intros [->|?]; done.
Qed.

Lemma Object_keys_set ps k v f :
  f ∈ Object_keys (obj_set ps k v) ↔ f = k ∨ f ∈ Object_keys ps.
Proof.
  unfold obj_set. destruct (obj_lookup ps k) eqn:E.
  - rewrite Object_keys_replace. split; [tauto|]. intros [->|?]; [|done].
    destruct (decide (k ∈ Object_keys ps)) as [?|Hn]; [done|].
    apply obj_lookup_None in Hn. congruence.
  - destruct (array_index k); [apply Object_keys_insert_index|].
    unfold Object_keys. rewrite map_app, elem_of_app. simpl.
    rewrite list_elem_of_singleton. tauto.
Qed.

Lemma NoDup_set ps k v :
  NoDup (Object_keys ps) → NoDup (Object_keys (obj_set ps k v)).
Proof.
  intros Hnd. unfold obj_set. destruct (obj_lookup ps k) eqn:E.
  - by rewrite Object_keys_replace.
  - apply obj_lookup_None in E.
    destruct (array_index k); [by apply NoDup_insert_index|].
    unfold Object_keys. rewrite map_app. simpl. apply NoDup_app. split_and!; [done| |].
    + intros x Hx. rewrite list_elem_of_singleton. intros ->. done.
    + apply NoDup_singleton.
Qed.

(** The object the loop builds has the configured fields (and those already
    set) as its keys, each once. *)
Lemma resolve_fields_keys record keys : ∀ acc resolved,
  resolve_fields record keys acc = Some resolved →
  NoDup (Object_keys acc) →
  NoDup (Object_keys resolved)
  ∧ ∀ f, f ∈ Object_keys resolved ↔ f ∈ keys ∨ f ∈ Object_keys acc.
Proof.
  induction keys as [|k keys IH]; simpl; intros acc resolved H Hnd.
  - simplify_eq. split; [done|]. intros f. rewrite elem_of_nil. tauto.
  - destruct (nullish (obj_get record k)); [done|].
    apply IH in H as [Hnd' Hk]; [|by apply NoDup_set].
    split; [done|]. intros f. rewrite Hk, Object_keys_set, elem_of_cons. tauto.
Qed.

(** *** Serialization throws only on a revoked proxy *)

Lemma proxy_free_obj_at h l : proxy_free h → obj_at h l ≠ ORevokedProxy.
Proof.
  intros Hp. unfold obj_at. specialize (Hp l).
  destruct (h !! l) as [o|]; simpl; [congruence | done].
Qed.

Lemma proxy_free_alloc h ps : proxy_free h → proxy_free (alloc h (OObject ps)).2.
Proof.
  intros Hp l. unfold alloc. simpl.
  destruct (decide (fresh (dom h) = l)) as [<-|Hne].
  - by rewrite lookup_insert_eq.
  - rewrite lookup_insert_ne by done. apply Hp.
Qed.

Lemma bind_not_throws {A B} (m : outcome A) (k : A → outcome B) e :
  (∀ e', m ≠ Throws e') → (∀ a, k a ≠ Throws e) → bind m k ≠ Throws e.
Proof. destruct m; simpl; intros Hm Hk; [apply Hk | by destruct (Hm e0) | done]. Qed.

Lemma ser_members_no_throw rec ps :
  (∀ S v e, rec S v ≠ Throws e) → ∀ S e, ser_members rec S ps ≠ Throws e.
Proof.
  intros Hrec. induction ps as [|[k v] ps IH]; intros S e; simpl; [done|].
  apply bind_not_throws; [done|]. intros r. by apply bind_not_throws.
Qed.

Lemma ser_items_no_throw rec es :
  (∀ S v e, rec S v ≠ Throws e) → ∀ S e, ser_items rec S es ≠ Throws e.
Proof.
  intros Hrec. induction es as [|v es IH]; intros S e; simpl; [done|].
  apply bind_not_throws; [done|]. intros r. by apply bind_not_throws.
Qed.

Lemma SerializeJSONProperty_no_throw fuel h :
  proxy_free h → ∀ S v e, SerializeJSONProperty fuel h S v ≠ Throws e.
Proof.
  intros Hp. induction fuel as [|n IH]; intros S v e; destruct v; simpl; try done.
  - pose proof (proxy_free_obj_at h l Hp).
    destruct (obj_at h l); [| |done]; by destruct (decide (l ∈ S)).
  - pose proof (proxy_free_obj_at h l Hp).
    destruct (obj_at h l); [| |done]; (destruct (decide (l ∈ S)); [done|]);
      (apply bind_not_throws; [|done]); intros e'.
    + by apply ser_members_no_throw.
    + by apply ser_items_no_throw.
Qed.

Lemma JSON_stringify_no_throw h v e :
  proxy_free h → JSON_stringify h v ≠ Throws e.
Proof.
  intros Hp. unfold JSON_stringify. apply bind_not_throws; [|done].
  intros e'. by apply SerializeJSONProperty_no_throw.
Qed.

(** *** Totality *)

Lemma safeStringifyForPK_returns h record :
  ∃ s, safeStringifyForPK h record = Returns (Some s).
Proof.
  destruct (safeStringifyForPK_cases h record) as [(s & _ & Hs)|(e & _ & Hs)]; eauto.
Qed.

(** X2: identity resolution always returns or throws: the recursion budget
    of the model is never exhausted, whatever the heap. *)
Theorem extractPrimaryKey_total host h record tableName pkm :
  extractPrimaryKey host h record tableName pkm ≠ OutOfFuel
  ∧ ∀ records, extractPrimaryKeys host h records tableName pkm ≠ OutOfFuel.
Proof.
  assert (Hone : ∀ r, extractPrimaryKey host h r tableName pkm ≠ OutOfFuel).
  { intros r. unfold extractPrimaryKey.
    destruct (pkm !! tableName) as [key|]; [|done].
    destruct (truthy key); simpl; [|done].
    apply bind_not_out_of_fuel; [|by intros []].
    unfold extractConfiguredPrimaryKey.
    destruct (resolve_fields r (keys_of key) []) as [resolved|]; [|done].
    assert (Hsafe : safeStringifyForPK h resolved ≠ OutOfFuel).
    { by destruct (safeStringifyForPK_returns h resolved) as [s ->]. }
    destruct (keys_of key) as [|k [|k' rest]]; [done| |done].
    apply bind_not_out_of_fuel; [|done].
    apply ToString_total. unfold unseen, fuel_for.
    rewrite difference_empty_L, size_dom. lia. }
  split; [apply Hone|].
  induction records as [|r rs IH]; simpl; [done|].
  apply bind_not_out_of_fuel; [apply Hone|].
  intros id _. by apply bind_not_out_of_fuel.
Qed.

(** *** Dependence on the key fields only *)

(** X1: for rows whose values live in the same heap, identity resolution
    depends on the row only through its own configured key fields: two rows
    that have the same of these fields, with the same values, get the same
    result, whatever the order in which their fields were inserted and
    whatever other fields they carry. *)
Theorem identity_depends_on_key_fields_only host h r1 r2 tableName pkm key :
  pkm !! tableName = Some key →
  (∀ f, f ∈ keys_of key → obj_lookup r1 f = obj_lookup r2 f) →
  extractPrimaryKey host h r1 tableName pkm = extractPrimaryKey host h r2 tableName pkm.
Proof.
  intros Hk He. apply (extractPrimaryKey_ext host h r1 r2 tableName pkm key Hk).
  intros f Hf. by apply obj_lookup_get, He.
Qed.

Lemma identity_depends_on_key_fields_only_witness :
  extractPrimaryKey UTC_host ∅
    [("order_id", VNumber (NInt 7)); ("line_no", VNumber (NInt 2)); ("sku", VString "A-1")]
    "order_items" orders_pkm
  = extractPrimaryKey UTC_host ∅
      [("qty", VNumber (NInt 5)); ("line_no", VNumber (NInt 2)); ("order_id", VNumber (NInt 7))]
      "order_items" orders_pkm.
Proof.
  apply (identity_depends_on_key_fields_only UTC_host ∅ _ _ "order_items" orders_pkm
           (KeyList ["order_id"; "line_no"])).
  - reflexivity.
  - intros f Hf. apply elem_of_cons in Hf as [->|Hf]; [reflexivity|].
    apply list_elem_of_singleton in Hf as ->. reflexivity.
Defined.

Example composite_identity_text :
  extractPrimaryKey UTC_host ∅
    [("qty", VNumber (NInt 5)); ("line_no", VNumber (NInt 2)); ("order_id", VNumber (NInt 7))]
    "order_items" orders_pkm
  = Returns (with_dquotes "{'order_id':7,'line_no':2}").
Proof. vm_compute. reflexivity. Qed.

(** *** Failures *)




(** *** Single-field keys *)

Lemma obj_get_set_nil field v : obj_get (obj_set [] field v) field = v.
Proof.
  unfold obj_set, obj_get. simpl.
  destruct (array_index field); simpl; by rewrite String.eqb_refl.
Qed.

(** A single-field key is the field's value under [String(...)]. *)
Lemma single_key_is_ToString host h record tableName pkm field :
  pkm !! tableName = Some (KeySingle field) →
  field ≠ EmptyString →
  nullish (obj_get record field) = false →
  extractPrimaryKey host h record tableName pkm
  = ToString (fuel_for h) host h ∅ (obj_get record field).
Proof.
  intros Hk Hne Hp. unfold extractPrimaryKey. rewrite Hk.
  apply String.eqb_neq in Hne. cbn [truthy]. rewrite Hne. cbn [negb].
  unfold extractConfiguredPrimaryKey. cbn [keys_of resolve_fields].
  rewrite Hp, obj_get_set_nil.
  by destruct (ToString _ _ _ _ _).
Qed.

(** C5 at a Date: the single-field path returns the text of
    [Date.prototype.toString], which depends on the host's time zone, where
    the claim promises the ISO-8601 text; the composite path does return the
    ISO-8601 text for the same value. *)
Lemma single_date_key_is_not_iso :
  let pkm : gmap string key_spec :=
    {[ "events" := KeySingle "at"; "samples" := KeyList ["at"; "n"] ]} in
  let row := [("at", VDate (Some 0%Z)); ("n", VNumber (NInt 1))] in
  extractPrimaryKey UTC_host ∅ row "events" pkm
    = Returns "Thu Jan 01 1970 00:00:00 GMT+0000 (Coordinated Universal Time)"%string
  ∧ toISOString 0 = "1970-01-01T00:00:00.000Z"%string
  ∧ extractPrimaryKey UTC_host ∅ row "samples" pkm
    = Returns (with_dquotes "{'at':'1970-01-01T00:00:00.000Z','n':1}").
Proof. split_and!; vm_compute; reflexivity. Qed.

(** Numbers, strings and BigInts under a single-field key. *)
Lemma single_key_primitives host h record tableName pkm field :
  pkm !! tableName = Some (KeySingle field) →
  field ≠ EmptyString →
  (∀ n, obj_get record field = VNumber n →
        extractPrimaryKey host h record tableName pkm = Returns (NumberToString n))
  ∧ (∀ s, obj_get record field = VString s →
          extractPrimaryKey host h record tableName pkm = Returns s)
  ∧ (∀ z, obj_get record field = VBigInt z →
          extractPrimaryKey host h record tableName pkm = Returns (Z_to_dec z))
  ∧ (∀ tv, obj_get record field = VDate tv →
           extractPrimaryKey host h record tableName pkm = Returns (DateToString host tv)).
Proof.
  intros Hk Hne. split_and!; intros x Hx;
    rewrite (single_key_is_ToString host h record tableName pkm field Hk Hne)
      by (by rewrite Hx); by rewrite Hx.
Qed.

(** X4: under a single-field key other than [__proto__], two rows whose key
    values are integers (Numbers that are safe integers, or BigInts) get the
    same identity exactly when the integers are equal: different integers
    never collide, and a Number and the BigInt of the same integer do. *)
Theorem integer_keys_give_distinct_identities host h r1 r2 tableName pkm field a b :
  pkm !! tableName = Some (KeySingle field) →
  field ≠ EmptyString →
  field ≠ "__proto__"%string →
  (obj_get r1 field = VNumber (NInt a) ∧ safe_integer a = true
   ∨ obj_get r1 field = VBigInt a) →
  (obj_get r2 field = VNumber (NInt b) ∧ safe_integer b = true
   ∨ obj_get r2 field = VBigInt b) →
  extractPrimaryKey host h r1 tableName pkm = extractPrimaryKey host h r2 tableName pkm
  ↔ a = b.
Proof.
  intros Hk Hne _ H1 H2.
  rewrite (single_key_is_ToString host h r1 tableName pkm field Hk Hne)
    by (by destruct H1 as [[-> _] | ->]).
  rewrite (single_key_is_ToString host h r2 tableName pkm field Hk Hne)
    by (by destruct H2 as [[-> _] | ->]).
  destruct H1 as [[-> _] | ->], H2 as [[-> _] | ->]; simpl;
    (split; [intros [= H]; by apply Z_to_dec_inj | by intros ->]).
Qed.

Lemma integer_keys_give_distinct_identities_witness :
  extractPrimaryKey UTC_host ∅ [("id", VNumber (NInt 41)); ("name", VString "A")]
    "users" {[ "users" := KeySingle "id" ]}
  = extractPrimaryKey UTC_host ∅ [("name", VString "A"); ("id", VBigInt 42)]
      "users" {[ "users" := KeySingle "id" ]}
  ↔ (41 = 42)%Z.
Proof.
  apply (integer_keys_give_distinct_identities UTC_host ∅
           [("id", VNumber (NInt 41)); ("name", VString "A")]
           [("name", VString "A"); ("id", VBigInt 42)]
           "users" {[ "users" := KeySingle "id" ]} "id" 41 42).
  - reflexivity.
  - discriminate.
  - discriminate.
  - left. split; reflexivity.
  - right. reflexivity.
Defined.

(** *** Empty key lists *)

(** C9: when the specification maps the table to an empty list of fields,
    identity resolution does not fail and returns the constant text of the
    empty object for every row. *)
Theorem empty_key_list_gives_constant_identity host h record tableName pkm :
  pkm !! tableName = Some (KeyList []) →
  extractPrimaryKey host h record tableName pkm = Returns "{}"%string.
Proof.
  intros Hk. unfold extractPrimaryKey. rewrite Hk. simpl.
  unfold extractConfiguredPrimaryKey. simpl.
  unfold safeStringifyForPK.
  destruct (alloc h (OObject [])) as [l h'] eqn:Ha.
  assert (Ho : obj_at h' l = OObject []).
  { pose proof (alloc_lookup h (OObject [])) as Hl. rewrite Ha in Hl.
    unfold obj_at. simpl in Hl. by rewrite Hl. }
  unfold JSON_stringify, fuel_for. simpl. rewrite Ho.
  destruct (decide (l ∈ ∅)) as [Hin|_]; [by apply not_elem_of_empty in Hin|].
  reflexivity.
Qed.

Lemma empty_key_list_gives_constant_identity_witness :
  extractPrimaryKey UTC_host ∅ [("id", VNumber (NInt 1))] "logs" {[ "logs" := KeyList [] ]}
    = Returns "{}"%string
  ∧ extractPrimaryKey UTC_host ∅ [("id", VNumber (NInt 2))] "logs" {[ "logs" := KeyList [] ]}
    = Returns "{}"%string.
Proof.
  split.
  - apply (empty_key_list_gives_constant_identity UTC_host ∅ _ "logs"). reflexivity.
  - apply (empty_key_list_gives_constant_identity UTC_host ∅ _ "logs"). reflexivity.
Defined.

(** *** Composite keys *)

Lemma composite_goes_through_safeStringifyForPK host h record tableName pkm fields
    resolved s :
  pkm !! tableName = Some (KeyList fields) →
  length fields ≠ 1 →
  resolve_fields record fields [] = Some resolved →
  safeStringifyForPK h resolved = Returns (Some s) →
  extractPrimaryKey host h record tableName pkm = Returns s.
Proof.
  intros Hk Hlen Hr Hs. unfold extractPrimaryKey. rewrite Hk. cbn [truthy negb].
  unfold extractConfiguredPrimaryKey. cbn [keys_of]. rewrite Hr.
  destruct fields as [|a [|b rest]]; [|done|]; by rewrite Hs.
Qed.

(** *** The recursion budget *)

(** A serialization that completes within a budget (it returns or throws)
    gives the same result under every larger budget. *)
Lemma ser_members_budget rec1 rec2 ps :
  (∀ S v r, rec1 S v = r → r ≠ OutOfFuel → rec2 S v = r) →
  ∀ S r, ser_members rec1 S ps = r → r ≠ OutOfFuel → ser_members rec2 S ps = r.
Proof.
  intros Hrec. induction ps as [|[k v] ps IH]; intros S r H Hr; simpl in *; [done|].
  destruct (rec1 S v) as [a| |] eqn:E1; simpl in H.
  - rewrite (Hrec _ _ _ E1) by done. simpl.
    destruct (ser_members rec1 a.1 ps) as [b| |] eqn:E2; simpl in H.
    + by rewrite (IH _ _ E2).
    + by rewrite (IH _ _ E2).
    + by subst.
  - by rewrite (Hrec _ _ _ E1).
  - by subst.
Qed.

Lemma ser_items_budget rec1 rec2 es :
  (∀ S v r, rec1 S v = r → r ≠ OutOfFuel → rec2 S v = r) →
  ∀ S r, ser_items rec1 S es = r → r ≠ OutOfFuel → ser_items rec2 S es = r.
Proof.
  intros Hrec. induction es as [|v es IH]; intros S r H Hr; simpl in *; [done|].
  destruct (rec1 S v) as [a| |] eqn:E1; simpl in H.
  - rewrite (Hrec _ _ _ E1) by done. simpl.
    destruct (ser_items rec1 a.1 es) as [b| |] eqn:E2; simpl in H.
    + by rewrite (IH _ _ E2).
    + by rewrite (IH _ _ E2).
    + by subst.
  - by rewrite (Hrec _ _ _ E1).
  - by subst.
Qed.

Lemma SerializeJSONProperty_budget h n : ∀ m S v r,
  n ≤ m → SerializeJSONProperty n h S v = r → r ≠ OutOfFuel →
  SerializeJSONProperty m h S v = r.
Proof.
  induction n as [|n IH]; intros [|m] S v r Hle H Hr; try lia;
    destruct v; simpl in *; try done;
    (destruct (obj_at h l); [| |done]);
    (destruct (decide (l ∈ S)); [done|]); try by subst.
  - destruct (ser_members (SerializeJSONProperty n h) ({[l]} ∪ S) ps) as [a| |] eqn:E;
      simpl in H; [| |by subst];
      by rewrite (ser_members_budget _ (SerializeJSONProperty m h) ps
                    (λ S v r, IH m S v r ltac:(lia)) _ _ E).
  - destruct (ser_items (SerializeJSONProperty n h) ({[l]} ∪ S) es) as [a| |] eqn:E;
      simpl in H; [| |by subst];
      by rewrite (ser_items_budget _ (SerializeJSONProperty m h) es
                    (λ S v r, IH m S v r ltac:(lia)) _ _ E).
Qed.

(** Whatever budget a serialization completes within, [JSON.stringify] gives
    its result: [fuel_for] is no limit. *)
Lemma completes_within_any_budget limit h v r :
  SerializeJSONProperty limit h ∅ v = r → r ≠ OutOfFuel →
  SerializeJSONProperty (fuel_for h) h ∅ v = r.
Proof.
  intros H Hr.
  assert (Htotal : SerializeJSONProperty (fuel_for h) h ∅ v ≠ OutOfFuel).
  { apply SerializeJSONProperty_total. unfold unseen, fuel_for.
    rewrite difference_empty_L, size_dom. lia. }
  pose proof (SerializeJSONProperty_budget h limit (Nat.max limit (fuel_for h)) ∅ v r
                ltac:(lia) H Hr) as H1.
  pose proof (SerializeJSONProperty_budget h (fuel_for h) (Nat.max limit (fuel_for h)) ∅ v _
                ltac:(lia) eq_refl Htotal) as H2.
  congruence.
Qed.

(** *** The call stack of the host *)

(** With a stack that always suffices the resolver is the one of
    [PrimaryKey]. *)
Lemma ample_stack host h record tableName pkm :
  Bounded.extractPrimaryKey Bounded.ample host h record tableName pkm
  = extractPrimaryKey host h record tableName pkm.
Proof. reflexivity. Qed.

(** On a stack that holds [limit] nested calls, [JSON.stringify] is the
    serialization run with the budget [limit], a [RangeError] taking the
    place of the exhausted budget. *)
Lemma JSON_stringify_of_depth limit h v :
  Bounded.JSON_stringify (Bounded.of_depth limit) h v
  = match SerializeJSONProperty limit h ∅ v with
    | Returns r => Returns (render <$> r.2)
    | Throws e => Throws e
    | OutOfFuel => Throws RangeError
    end.
Proof.
  unfold Bounded.JSON_stringify, Bounded.of_depth, JSON_stringify. cbn [Bounded.json_fits].
  destruct (SerializeJSONProperty limit h ∅ v) as [r|e|] eqn:H; [| |done];
    by rewrite (completes_within_any_budget limit h v _ H).
Qed.

Lemma safeStringifyForPK_on_stack stack h record :
  Bounded.safeStringifyForPK stack h record
  = if Bounded.json_fits stack (alloc h (OObject record)).2
         (VRef (alloc h (OObject record)).1)
    then safeStringifyForPK h record
    else Returns (Some (fallback_key record)).
Proof.
  unfold Bounded.safeStringifyForPK, safeStringifyForPK, Bounded.JSON_stringify. simpl.
  by destruct (Bounded.json_fits stack _ _).
Qed.

Lemma safeStringifyForPK_on_stack_returns stack h record :
  ∃ s, Bounded.safeStringifyForPK stack h record = Returns (Some s).
Proof.
  rewrite safeStringifyForPK_on_stack. destruct (Bounded.json_fits stack _ _); [|eauto].
  apply safeStringifyForPK_returns.
Qed.

Lemma composite_on_stack stack host h record tableName pkm fields resolved s :
  pkm !! tableName = Some (KeyList fields) →
  length fields ≠ 1 →
  resolve_fields record fields [] = Some resolved →
  Bounded.safeStringifyForPK stack h resolved = Returns (Some s) →
  Bounded.extractPrimaryKey stack host h record tableName pkm = Returns s.
Proof.
  intros Hk Hlen Hr Hs. unfold Bounded.extractPrimaryKey. rewrite Hk. cbn [truthy negb].
  unfold Bounded.extractConfiguredPrimaryKey. cbn [keys_of]. rewrite Hr.
  destruct fields as [|a [|b rest]]; [|done|]; by rewrite Hs.
Qed.

(** *** The fallback *)

Lemma sorted_names_unique (l1 l2 : list string) :
  Sorted String.le l1 → Sorted String.le l2 → l1 ≡ₚ l2 → l1 = l2.
Proof.
  intros H1 H2 Hp.
  by apply (Sorted_unique String.le).
Qed.

(** The fallback text lists the distinct field names, in ascending order. *)
Lemma fallback_key_names record fields resolved names :
  resolve_fields record fields [] = Some resolved →
  names ≡ₚ remove_dups fields → Sorted String.le names →
  fallback_key resolved
  = "composite_key_" +:+ join "_" names +:+ "_" +:+ nat_to_dec (length names).
Proof.
  intros Hr Hp Hs.
  destruct (resolve_fields_keys _ _ _ _ Hr NoDup_nil_2) as [Hnd Hmem].
  assert (sort_strings (Object_keys resolved) = names) as <-; [|done].
  apply sorted_names_unique; [apply sort_strings_sorted | done |].
  rewrite sort_strings_perm, Hp. apply NoDup_Permutation; [done | apply NoDup_remove_dups|].
  intros f. rewrite Hmem, elem_of_remove_dups. simpl. rewrite elem_of_nil. tauto.
Qed.




(** A row whose key values nest deeper than the stack of the host allows
    gets the fallback as well. *)
Example fallback_on_exhausted_stack :
  Bounded.extractPrimaryKey (Bounded.of_depth 1) UTC_host cyclic_heap cyclic_row "t" ab_pkm
    = Returns "composite_key_a_b_2"%string
  ∧ Bounded.extractPrimaryKey (Bounded.of_depth 2) UTC_host cyclic_heap cyclic_row "t" ab_pkm
    = Returns (with_dquotes "{'a':{'self':'[Circular]','n':1},'b':'x'}").
Proof. split; vm_compute; reflexivity. Qed.

(** The fallback is reached: a key field holding a revoked proxy makes
    [JSON.stringify] throw. *)
Example fallback_on_revoked_proxy :
  JSON_stringify (alloc proxy_heap (OObject [("b", VNumber (NInt 2)); ("a", VRef 1%positive)])).2
    (VRef (alloc proxy_heap (OObject [("b", VNumber (NInt 2)); ("a", VRef 1%positive)])).1)
    = Throws TypeError
  ∧ extractPrimaryKey UTC_host proxy_heap proxy_row "pairs" pairs_pkm
    = Returns "composite_key_a_b_2"%string.
Proof. split; vm_compute; reflexivity. Qed.

(** *** Where the placeholder is written *)

Lemma container_json_at j i p :
  container (json_at j (i :: p)) = true →
  ∃ j0, json_member j i = Some j0 ∧ container (json_at j0 p) = true.
Proof. simpl. destruct (json_member j i) as [j0|]; [eauto | done]. Qed.

Lemma container_is_entered fuel h S v r j :
  SerializeJSONProperty fuel h S v = Returns r → r.2 = Some j →
  container (Some j) = true →
  ∃ l n, v = VRef l ∧ (l ∉ S) ∧ fuel = Datatypes.S n
         ∧ ((∃ ps rs, obj_at h l = OObject ps
                      ∧ ser_members (SerializeJSONProperty n h) ({[l]} ∪ S) ps = Returns rs
                      ∧ j = JObj rs.2 ∧ r.1 = rs.1)
            ∨ (∃ es rs, obj_at h l = OArray es
                        ∧ ser_items (SerializeJSONProperty n h) ({[l]} ∪ S) es = Returns rs
                        ∧ j = JArr rs.2 ∧ r.1 = rs.1)).
Proof.
  intros H Hj Hc.
  destruct v as [| |b|n0|z|s0|tv|l]; try (destruct fuel; simpl in H; simplify_eq/=; done).
  - destruct fuel; simpl in H; simplify_eq/=; by destruct (number_finite n0).
  - destruct fuel; simpl in H; simplify_eq/=; by destruct tv.
  - destruct fuel as [|n]; simpl in H;
      (destruct (obj_at h l) as [ps|es|] eqn:Ho; [| |done]);
      (destruct (decide (l ∈ S)) as [Hin|Hout]; [by simplify_eq/=|]); try done.
    + apply bind_returns in H as (rs & Hrs & H). simplify_eq/=.
      exists l, n. split_and!; [done..|]. left. by exists ps, rs.
    + apply bind_returns in H as (rs & Hrs & H). simplify_eq/=.
      exists l, n. split_and!; [done..|]. right. by exists es, rs.
Qed.

(** A member that refers back to an object on the path to it, or to an object
    seen before, is written as the placeholder, at that very position. *)
Lemma back_reference_is_cut fuel h : ∀ S v r j p i l,
  SerializeJSONProperty fuel h S v = Returns r → r.2 = Some j →
  container (json_at j p) = true →
  follow h v (p ++ [i]) = Some (VRef l) →
  l ∈ S ∨ on_path h v p l →
  json_at j (p ++ [i]) = Some (JStr Circular).
Proof.
  induction fuel as [|n IH]; intros S v r j p i l H Hj Hc Hf Hl.
  { assert (Hroot : container (Some j) = true).
    { destruct p as [|i0 p]; [done|]. apply container_json_at in Hc as (j0 & Hm & _).
      by destruct j. }
    by destruct (container_is_entered _ _ _ _ _ _ H Hj Hroot) as (? & ? & _ & _ & ? & _). }
  assert (Hroot : container (Some j) = true).
  { destruct p as [|i0 p]; [done|]. apply container_json_at in Hc as (j0 & Hm & _).
    by destruct j. }
  destruct (container_is_entered _ _ _ _ _ _ H Hj Hroot)
    as (l0 & n' & -> & Hout & [= <-] & Hcase).
  destruct p as [|i0 p'].
  - (* the member is a direct member of the root *)
    assert (Hseen : ∀ Si, {[l0]} ∪ S ⊆ Si → l ∈ Si).
    { intros Si HSi. destruct Hl as [Hl|(q & t & Hq & Hfq)]; [set_solver|].
      symmetry in Hq. apply app_eq_nil in Hq as [-> ->]. simpl in Hfq.
      simplify_eq. set_solver. }
    cbn [app follow] in Hf.
    destruct (member h (VRef l0) i) as [vi|] eqn:Hm; [|done]. simpl in Hf. simplify_eq.
    simpl in Hm.
    destruct Hcase as [(ps & rs & Ho & Hrs & -> & _)|(es & rs & Ho & Hrs & -> & _)];
      rewrite Ho in Hm.
    + destruct (ps !! i) as [[k v']|] eqn:Hi; simplify_eq/=.
      destruct (ser_members_lookup _ (SerializeJSONProperty_mono n h) _ _ _ _ _ _ Hrs Hi)
        as (Si & ri & HSi & Hri & Hlk).
      rewrite (seen_reference_is_placeholder _ _ _ _ _ (Hseen _ HSi) Hri) in Hlk.
      by rewrite Hlk.
    + destruct (ser_items_lookup _ (SerializeJSONProperty_mono n h) _ _ _ _ _ Hrs Hm)
        as (Si & ri & HSi & Hri & Hlk).
      rewrite (seen_reference_is_placeholder _ _ _ _ _ (Hseen _ HSi) Hri) in Hlk.
      simpl. by rewrite Hlk.
  - (* the member lies below the member [i0] of the root *)
    apply container_json_at in Hc as (j0 & Hm0 & Hc).
    cbn [app follow] in Hf.
    destruct (member h (VRef l0) i0) as [v0|] eqn:Hm; [|done].
    assert (Hbelow : ∀ Si, {[l0]} ∪ S ⊆ Si → l ∈ Si ∨ on_path h v0 p' l).
    { intros Si HSi. destruct Hl as [Hl|(q & t & Hq & Hfq)]; [left; set_solver|].
      destruct q as [|i' q].
      - simpl in Hfq. simplify_eq. left. set_solver.
      - simpl in Hq. injection Hq as <- ->. cbn [follow] in Hfq. rewrite Hm in Hfq.
        right. by exists q, t. }
    simpl in Hm.
    destruct Hcase as [(ps & rs & Ho & Hrs & -> & _)|(es & rs & Ho & Hrs & -> & _)];
      rewrite Ho in Hm.
    + destruct (ps !! i0) as [[k v']|] eqn:Hi; simplify_eq/=.
      destruct (ser_members_lookup _ (SerializeJSONProperty_mono n h) _ _ _ _ _ _ Hrs Hi)
        as (Si & ri & HSi & Hri & Hlk).
      rewrite Hlk in Hm0. destruct (ri.2) as [j1|] eqn:Hr2; [|done]. simplify_eq.
      rewrite Hlk. exact (IH Si v0 ri j0 p' i l Hri Hr2 Hc Hf (Hbelow _ HSi)).
    + destruct (ser_items_lookup _ (SerializeJSONProperty_mono n h) _ _ _ _ _ Hrs Hm)
        as (Si & ri & HSi & Hri & Hlk).
      simpl in Hm0. rewrite Hlk in Hm0. simplify_eq.
      destruct (ri.2) as [j1|] eqn:Hr2; simpl in Hc; [|by destruct p'].
      simpl. rewrite Hlk. simpl. exact (IH Si v0 ri j1 p' i l Hri Hr2 Hc Hf (Hbelow _ HSi)).
Qed.

(** *** Which objects have been seen *)

Section Seen.
Variable h : heap.
Variable rec : gset loc → value → outcome (gset loc * option json).
Hypothesis rec_mono : ∀ S v r, rec S v = Returns r → S ⊆ r.1.
Hypothesis rec_seen : ∀ S v r l,
  rec S v = Returns r → l ∈ r.1 →
  l ∈ S ∨ ∃ j p, r.2 = Some j ∧ follow h v p = Some (VRef l)
                 ∧ container (json_at j p) = true.

(** When member [i] is reached, the objects seen are those seen at the start
    and those entered below the members before it. *)
Lemma ser_members_seen_before ps : ∀ S r i k v,
  ser_members rec S ps = Returns r → ps !! i = Some (k, v) →
  ∃ Si ri, rec Si v = Returns ri ∧ r.2 !! i = Some (k, ri.2)
    ∧ ∀ l, l ∈ Si →
           l ∈ S ∨ ∃ i' k' v' j' p, i' < i ∧ ps !! i' = Some (k', v')
                                    ∧ r.2 !! i' = Some (k', Some j')
                                    ∧ follow h v' p = Some (VRef l)
                                    ∧ container (json_at j' p) = true.
Proof.
  induction ps as [|[k0 v0] ps IH]; intros S r i k v H Hi; [done|].
  simpl in H. apply bind_returns in H as (r1 & H1 & H).
  apply bind_returns in H as (r2 & H2 & H). simplify_eq.
  destruct i as [|i]; simpl in *.
  - simplify_eq. exists S, r1. split_and!; [done..|]. by left.
  - destruct (IH _ _ _ _ _ H2 Hi) as (Si & ri & Hri & Hlk & Hseen).
    exists Si, ri. split_and!; [done..|]. intros l Hl.
    destruct (Hseen l Hl) as [Hl1|(i' & k' & v' & j' & p & Hlt & Hi' & Hr' & Hf & Hc)].
    + destruct (rec_seen _ _ _ _ H1 Hl1) as [?|(j & p & Hj & Hf & Hc)]; [by left|].
      right. exists 0, k0, v0, j, p. split_and!; [lia | done | by rewrite <- Hj | done..].
    + right. exists (Datatypes.S i'), k', v', j', p. split_and!; [lia | done..].
Qed.

Lemma ser_members_seen_after ps : ∀ S r l,
  ser_members rec S ps = Returns r → l ∈ r.1 →
  l ∈ S ∨ ∃ i' k' v' j' p, ps !! i' = Some (k', v')
                           ∧ r.2 !! i' = Some (k', Some j')
                           ∧ follow h v' p = Some (VRef l)
                           ∧ container (json_at j' p) = true.
Proof.
  induction ps as [|[k0 v0] ps IH]; intros S r l H Hl; simpl in H.
  - simplify_eq. by left.
  - apply bind_returns in H as (r1 & H1 & H).
    apply bind_returns in H as (r2 & H2 & H). simplify_eq. simpl in Hl.
    destruct (IH _ _ _ H2 Hl) as [Hl1|(i' & k' & v' & j' & p & Hi' & Hr' & Hf & Hc)].
    + destruct (rec_seen _ _ _ _ H1 Hl1) as [?|(j & p & Hj & Hf & Hc)]; [by left|].
      right. exists 0, k0, v0, j, p. split_and!; [done | by rewrite <- Hj | done..].
    + right. by exists (Datatypes.S i'), k', v', j', p.
Qed.

Lemma ser_items_seen_before es : ∀ S r i v,
  ser_items rec S es = Returns r → es !! i = Some v →
  ∃ Si ri, rec Si v = Returns ri ∧ r.2 !! i = Some (default JNull ri.2)
    ∧ ∀ l, l ∈ Si →
           l ∈ S ∨ ∃ i' v' j' p, i' < i ∧ es !! i' = Some v'
                                 ∧ r.2 !! i' = Some j'
                                 ∧ follow h v' p = Some (VRef l)
                                 ∧ container (json_at j' p) = true.
Proof.
  induction es as [|v0 es IH]; intros S r i v H Hi; [done|].
  simpl in H. apply bind_returns in H as (r1 & H1 & H).
  apply bind_returns in H as (r2 & H2 & H). simplify_eq.
  destruct i as [|i]; simpl in *.
  - simplify_eq. exists S, r1. split_and!; [done..|]. by left.
  - destruct (IH _ _ _ _ H2 Hi) as (Si & ri & Hri & Hlk & Hseen).
    exists Si, ri. split_and!; [done..|]. intros l Hl.
    destruct (Hseen l Hl) as [Hl1|(i' & v' & j' & p & Hlt & Hi' & Hr' & Hf & Hc)].
    + destruct (rec_seen _ _ _ _ H1 Hl1) as [?|(j & p & Hj & Hf & Hc)]; [by left|].
      right. exists 0, v0, j, p. split_and!; [lia | done | by rewrite Hj | done..].
    + right. exists (Datatypes.S i'), v', j', p. split_and!; [lia | done..].
Qed.

Lemma ser_items_seen_after es : ∀ S r l,
  ser_items rec S es = Returns r → l ∈ r.1 →
  l ∈ S ∨ ∃ i' v' j' p, es !! i' = Some v'
                        ∧ r.2 !! i' = Some j'
                        ∧ follow h v' p = Some (VRef l)
                        ∧ container (json_at j' p) = true.
Proof.
  induction es as [|v0 es IH]; intros S r l H Hl; simpl in H.
  - simplify_eq. by left.
  - apply bind_returns in H as (r1 & H1 & H).
    apply bind_returns in H as (r2 & H2 & H). simplify_eq. simpl in Hl.
    destruct (IH _ _ _ H2 Hl) as [Hl1|(i' & v' & j' & p & Hi' & Hr' & Hf & Hc)].
    + destruct (rec_seen _ _ _ _ H1 Hl1) as [?|(j & p & Hj & Hf & Hc)]; [by left|].
      right. exists 0, v0, j, p. split_and!; [done | by rewrite Hj | done..].
    + right. by exists (Datatypes.S i'), v', j', p.
Qed.

End Seen.

(** Every object the serialization has seen when it returns was seen
    before it started or has been entered: its members are written out
    somewhere in the tree. *)
Lemma seen_objects_are_entered fuel h : ∀ S v r l,
  SerializeJSONProperty fuel h S v = Returns r → l ∈ r.1 →
  l ∈ S ∨ ∃ j p, r.2 = Some j ∧ follow h v p = Some (VRef l)
                 ∧ container (json_at j p) = true.
Proof.
  induction fuel as [|n IH]; intros S v r l H Hl.
  { destruct v; simpl in H; simplify_eq/=; try by left.
    destruct (obj_at h l0); [| |done]; destruct (decide (l0 ∈ S)); simplify_eq/=; by left. }
  destruct v as [| | | | | | |l0]; simpl in H; simplify_eq/=; try by left.
  destruct (obj_at h l0) as [ps|es|] eqn:Ho; [| |done];
    (destruct (decide (l0 ∈ S)) as [Hin|Hout]; [simplify_eq/=; by left|]);
    apply bind_returns in H as (rs & Hrs & H); simplify_eq/=.
  - destruct (ser_members_seen_after h _ (IH) ps _ _ _ Hrs Hl)
      as [Hl0|(i' & k' & v' & j' & p & Hi' & Hr' & Hf & Hc)].
    + apply elem_of_union in Hl0 as [Hl0|?]; [|by left].
      apply elem_of_singleton in Hl0 as ->. right. by exists (JObj rs.2), [].
    + right. exists (JObj rs.2), (i' :: p). split_and!; [done| |].
      * cbn [follow member]. rewrite Ho, Hi'. done.
      * cbn [json_at json_member]. by rewrite Hr'.
  - destruct (ser_items_seen_after h _ (IH) es _ _ _ Hrs Hl)
      as [Hl0|(i' & v' & j' & p & Hi' & Hr' & Hf & Hc)].
    + apply elem_of_union in Hl0 as [Hl0|?]; [|by left].
      apply elem_of_singleton in Hl0 as ->. right. by exists (JArr rs.2), [].
    + right. exists (JArr rs.2), (i' :: p). split_and!; [done| |].
      * cbn [follow member]. rewrite Ho, Hi'. done.
      * cbn [json_at json_member]. by rewrite Hr'.
Qed.

(** The placeholder is written for no other reason: where it stands for a
    reference, the object referred to was seen before the serialization
    started or is entered at another position of the tree. *)
Lemma placeholder_marks_repetition fuel h : ∀ S v r j p l,
  SerializeJSONProperty fuel h S v = Returns r → r.2 = Some j →
  json_at j p = Some (JStr Circular) →
  follow h v p = Some (VRef l) →
  l ∈ S ∨ ∃ p', p' ≠ p ∧ follow h v p' = Some (VRef l)
                ∧ container (json_at j p') = true.
Proof.
  induction fuel as [|n IH]; intros S v r j p l H Hj Hp Hf.
  { destruct p as [|i p].
    - simpl in Hp, Hf. simplify_eq. simpl in H.
      destruct (obj_at h l); [| |done]; destruct (decide (l ∈ S)); simplify_eq/=; by left.
    - assert (Hroot : container (Some j) = true).
      { simpl in Hp. destruct j; try done. }
      by destruct (container_is_entered _ _ _ _ _ _ H Hj Hroot) as (? & ? & _ & _ & ? & _). }
  destruct p as [|i p].
  { simpl in Hp, Hf. simplify_eq. simpl in H.
    destruct (obj_at h l) as [ps|es|]; [| |done];
      (destruct (decide (l ∈ S)); [by left|]);
      apply bind_returns in H as (rs & _ & H); simplify_eq/=. }
  assert (Hroot : container (Some j) = true).
  { simpl in Hp. destruct j; try done. }
  destruct (container_is_entered _ _ _ _ _ _ H Hj Hroot)
    as (l0 & n' & -> & Hout & [= <-] & Hcase).
  assert (Hl0 : l ∈ ({[l0]} ∪ S : gset loc) →
                l ∈ S ∨ ∃ p', p' ≠ i :: p ∧ follow h (VRef l0) p' = Some (VRef l)
                              ∧ container (json_at j p') = true).
  { intros Hl. apply elem_of_union in Hl as [Hl|?]; [|by left].
    apply elem_of_singleton in Hl as ->. right. by exists []. }
  cbn [follow] in Hf. destruct (member h (VRef l0) i) as [vi|] eqn:Hm; [|done].
  cbn [json_at] in Hp. destruct (json_member j i) as [ji|] eqn:Hji; [|done].
  simpl in Hm.
  destruct Hcase as [(ps & rs & Ho & Hrs & -> & _)|(es & rs & Ho & Hrs & -> & _)];
    rewrite Ho in Hm.
  - destruct (ps !! i) as [[k v']|] eqn:Hi; simplify_eq/=.
    destruct (ser_members_seen_before h _ (seen_objects_are_entered n h) ps _ _ _ _ _ Hrs Hi)
      as (Si & ri & Hri & Hlk & Hseen).
    rewrite Hlk in Hji. destruct (ri.2) as [j1|] eqn:Hr2; [|done]. simplify_eq.
    destruct (IH _ _ _ _ _ _ Hri Hr2 Hp Hf) as [Hl|(p' & Hne & Hf' & Hc')].
    + destruct (Hseen l Hl) as [Hl'|(i' & k' & v'' & j' & q & Hlt & Hi' & Hr' & Hfq & Hcq)];
        [by apply Hl0|].
      right. exists (i' :: q). split_and!.
      * intros [= -> _]. lia.
      * cbn [follow member]. by rewrite Ho, Hi'.
      * cbn [json_at json_member]. by rewrite Hr'.
    + right. exists (i :: p'). split_and!.
      * by intros [= ->].
      * cbn [follow member]. by rewrite Ho, Hi.
      * cbn [json_at json_member]. by rewrite Hlk.
  - destruct (ser_items_seen_before h _ (seen_objects_are_entered n h) es _ _ _ _ Hrs Hm)
      as (Si & ri & Hri & Hlk & Hseen).
    simpl in Hji. rewrite Hlk in Hji. simplify_eq.
    destruct (ri.2) as [j1|] eqn:Hr2; simpl in Hp; [|by destruct p].
    destruct (IH _ _ _ _ _ _ Hri Hr2 Hp Hf) as [Hl|(p' & Hne & Hf' & Hc')].
    + destruct (Hseen l Hl) as [Hl'|(i' & v'' & j' & q & Hlt & Hi' & Hr' & Hfq & Hcq)];
        [by apply Hl0|].
      right. exists (i' :: q). split_and!.
      * intros [= -> _]. lia.
      * cbn [follow member]. by rewrite Ho, Hi'.
      * cbn [json_at json_member]. by rewrite Hr'.
    + right. exists (i :: p'). split_and!.
      * by intros [= ->].
      * cbn [follow member]. by rewrite Ho, Hm.
      * cbn [json_at json_member]. by rewrite Hlk.
Qed.

(** *** The text of a tree *)

Lemma occurs_refl s : occurs s s.
Proof.
  exists "", "". symmetry. change (s +:+ "" = s).
  induction s as [|c s IH]; [done|]. change (String c (s +:+ "") = String c s). by rewrite IH.
Qed.

Lemma append_assoc3 a b c : (a +:+ b) +:+ c = a +:+ b +:+ c.
Proof.
  induction a as [|x a IH]; [done|].
  change (String x ((a +:+ b) +:+ c) = String x (a +:+ b +:+ c)). by rewrite IH.
Qed.

Lemma occurs_trans a b c : occurs a b → occurs b c → occurs a c.
Proof.
  intros (p1 & q1 & ->) (p2 & q2 & ->). exists (p2 +:+ p1), (q1 +:+ q2).
  by rewrite !append_assoc3.
Qed.

Lemma occurs_between pre s post : occurs s (pre +:+ s +:+ post).
Proof. by exists pre, post. Qed.

Lemma occurs_app_l x a b : occurs x a → occurs x (a +:+ b).
Proof. intros (p & q & ->). exists p, (q +:+ b). by rewrite !append_assoc3. Qed.

Lemma occurs_app_r x a b : occurs x b → occurs x (a +:+ b).
Proof. intros (p & q & ->). exists (a +:+ p), q. by rewrite !append_assoc3. Qed.

Lemma occurs_join sep x l : x ∈ l → occurs x (join sep l).
Proof.
  induction l as [|y l IH]; [by intros ?%elem_of_nil|].
  intros Hx. destruct l as [|z l].
  - apply list_elem_of_singleton in Hx as ->. apply occurs_refl.
  - change (join sep (y :: z :: l)) with (y +:+ sep +:+ join sep (z :: l)).
    apply elem_of_cons in Hx as [->|Hx].
    + apply occurs_app_l, occurs_refl.
    + by apply occurs_app_r, occurs_app_r, IH.
Qed.

Lemma render_object ms :
  render (JObj ms) = "{" +:+ join "," (member_texts ms) +:+ "}".
Proof. reflexivity. Qed.

Lemma member_texts_elem ms : ∀ i k j,
  ms !! i = Some (k, Some j) →
  (QuoteJSONString k +:+ ":" +:+ render j)%string ∈ member_texts ms.
Proof.
  induction ms as [|[k0 [j0|]] ms IH]; intros [|i] k j H; simplify_eq/=.
  - apply list_elem_of_here.
  - apply list_elem_of_further. by eapply IH.
  - by eapply IH.
Qed.

(** The text of a subtree occurs in the text of the tree. *)
Lemma render_subtree p : ∀ j j', json_at j p = Some j' → occurs (render j') (render j).
Proof.
  induction p as [|i p IH]; intros j j' H; simpl in H.
  - simplify_eq. apply occurs_refl.
  - destruct (json_member j i) as [ji|] eqn:Hm; [|done].
    eapply occurs_trans; [by apply IH|].
    destruct j as [| | | |items|ms]; try done; simpl in Hm.
    + change (render (JArr items)) with ("[" +:+ join "," (map render items) +:+ "]").
      apply occurs_app_r, occurs_app_l, occurs_join.
      apply list_elem_of_fmap. exists ji. split; [done|]. by eapply list_elem_of_lookup_2.
    + destruct (ms !! i) as [[k [j1|]]|] eqn:Hi; simplify_eq.
      rewrite render_object. apply occurs_app_r, occurs_app_l.
      eapply occurs_trans; [|apply occurs_join; by eapply member_texts_elem].
      apply occurs_app_r, occurs_app_r, occurs_refl.
Qed.

Lemma root_is_written fuel h l ps r :
  obj_at h l = OObject ps →
  SerializeJSONProperty fuel h ∅ (VRef l) = Returns r →
  ∃ n rs, fuel = S n
          ∧ ser_members (SerializeJSONProperty n h) ({[l]} ∪ ∅) ps = Returns rs
          ∧ r = (rs.1, Some (JObj rs.2)).
Proof.
  intros Ho H. destruct fuel as [|n]; simpl in H; rewrite Ho in H;
    (destruct (decide (l ∈ ∅)) as [Hin|_]; [by apply not_elem_of_empty in Hin|]); [done|].
  apply bind_returns in H as (rs & Hrs & H). simplify_eq. by exists n, rs.
Qed.

Lemma ser_members_names rec ps : ∀ S r,
  ser_members rec S ps = Returns r → map fst r.2 = Object_keys ps.
Proof.
  induction ps as [|[k v] ps IH]; intros S r H; simpl in H.
  - by simplify_eq.
  - apply bind_returns in H as (r1 & H1 & H).
    apply bind_returns in H as (r2 & H2 & H). simplify_eq. simpl.
    f_equal. by eapply IH.
Qed.



(** The text [t] occurs in no text that [contains] does not find it in. *)
Lemma occurs_contains t s : occurs t s → SqlReaders.contains t s = true.
Proof.
  intros (pre & post & ->). induction pre as [|c pre IH].
  - change ("" +:+ t +:+ post) with (t +:+ post).
    destruct (t +:+ post) as [|c r] eqn:E; simpl.
    + by destruct t.
    + rewrite <- E. clear E.
      assert (Hp : ∀ a b, SqlText.strip_prefix a (a +:+ b) = Some b).
      { induction a as [|x a IHa]; intros b; [by destruct b|].
        change (String x a +:+ b) with (String x (a +:+ b)). simpl.
        by rewrite Ascii.eqb_refl. }
      by rewrite Hp.
  - change (String c pre +:+ t +:+ post) with (String c (pre +:+ t +:+ post)).
    cbn [SqlReaders.contains]. rewrite IH. by destruct (SqlText.strip_prefix _ _).
Qed.


(** In the sample row the path [a.self] returns to the object at [a]: the
    serialized tree has the token there. *)
Example cyclic_row_is_cut_at_self :
  let h' := (alloc cyclic_heap (OObject cyclic_row)).2 in
  let root := VRef (alloc cyclic_heap (OObject cyclic_row)).1 in
  follow h' root [0] = Some (VRef 1%positive)
  ∧ follow h' root [0; 0] = Some (VRef 1%positive)
  ∧ ∃ seen j, SerializeJSONProperty (fuel_for h') h' ∅ root = Returns (seen, Some j)
              ∧ json_at j [0; 0] = Some (JStr Circular).
Proof.
  split_and!; [vm_compute; reflexivity..|].
  eexists _, _. split; vm_compute; reflexivity.
Qed.

Example cyclic_row_identity :
  extractPrimaryKey UTC_host cyclic_heap cyclic_row "t" ab_pkm
  = Returns (with_dquotes "{'a':{'self':'[Circular]','n':1},'b':'x'}").
Proof. vm_compute. reflexivity. Qed.

(** C4 at two rows whose key fields hold objects with equal contents: in the
    first row both fields refer to one object, in the second to two objects.
    The second reference to the shared object is written as [[Circular]]
    although no cycle is present, so the two identities differ. *)
Lemma shared_reference_changes_identity :
  let o := OObject [("x", VNumber (NInt 1))] in
  let h : heap := {[ 1%positive := o; 2%positive := o ]} in
  let shared := [("a", VRef 1%positive); ("b", VRef 1%positive)] in
  let copies := [("a", VRef 1%positive); ("b", VRef 2%positive)] in
  h !! 1%positive = h !! 2%positive
  ∧ extractPrimaryKey UTC_host h shared "t" ab_pkm
    = Returns (with_dquotes "{'a':{'x':1},'b':'[Circular]'}")
  ∧ extractPrimaryKey UTC_host h copies "t" ab_pkm
    = Returns (with_dquotes "{'a':{'x':1},'b':{'x':1}}").
Proof. split_and!; vm_compute; reflexivity. Qed.

End PrimaryKeyFacts.

Module SchemaFacts.
Import JS Schema SchemaSpec SqlText.

Lemma test_Void s : test Void s = false.
Proof. induction s; simpl; auto. Qed.

Lemma test_Alt s : ∀ r1 r2, test (Alt r1 r2) s = test r1 s || test r2 s.
Proof. induction s as [|c s IH]; intros r1 r2; simpl; [done | apply IH]. Qed.

Lemma test_Cat_Void s r : test (Cat Void r) s = false.
Proof. induction s as [|c s IH]; simpl; auto. Qed.

Lemma test_Cat_Eps s r : test (Cat Eps r) s = test r s.
Proof.
  destruct s as [|c s]; simpl; [done|].
  by rewrite test_Alt, test_Cat_Void.
Qed.

Lemma test_Star_Class rs s : test (Star (Class rs)) s = all_chars (in_class rs) s.
Proof.
  induction s as [|c s IH]; simpl; [done|].
  destruct (in_class rs c); simpl.
  - by rewrite test_Cat_Eps.
  - apply test_Cat_Void.
Qed.

Lemma identifier_tail_word_char c : in_class identifier_tail c = word_char c.
Proof.
  unfold in_class, identifier_tail, word_char, is_letter, is_decimal_digit, is_underscore.
  simpl. rewrite orb_false_r, !orb_assoc. f_equal.
  unfold in_range. simpl.
  destruct c as [[] [] [] [] [] [] [] []]; reflexivity.
Qed.

Lemma identifier_head_word_char c :
  in_class identifier_head c = word_char c && negb (is_decimal_digit c).
Proof. destruct c as [[] [] [] [] [] [] [] []]; reflexivity. Qed.

Lemma all_chars_ext P Q s : (∀ c, P c = Q c) → all_chars P s = all_chars Q s.
Proof. intros H. induction s as [|c s IH]; simpl; [done|]. by rewrite H, IH. Qed.

(** The regular expression of [assertSafeIdentifier] accepts exactly the
    strict identifiers. *)
Lemma test_identifier_pattern s : test identifier_pattern s = strict_identifier s.
Proof.
  destruct s as [|c s]; [done|].
  unfold identifier_pattern. cbn [test deriv nullable].
  rewrite identifier_head_word_char. unfold strict_identifier. cbn [all_chars].
  destruct (word_char c); simpl; [|apply test_Cat_Void].
  destruct (is_decimal_digit c); simpl.
  - rewrite test_Cat_Void. by rewrite andb_false_r.
  - rewrite test_Cat_Eps, test_Star_Class, andb_true_r.
    apply all_chars_ext, identifier_tail_word_char.
Qed.

(** X3: [assertSafeIdentifier] accepts a name exactly when it is not empty,
    consists of letters, digits and underscores, and does not start with a
    digit. *)
Theorem assertSafeIdentifier_accepts_strict_identifiers name :
  assertSafeIdentifier name
  = (if strict_identifier name then Returns tt
     else Throws (Error ("Invalid table name: " +:+ name))).
Proof.
  unfold assertSafeIdentifier. rewrite test_identifier_pattern.
  by destruct (strict_identifier name).
Qed.

Lemma buildCreateAuditTableSQL_checked name :
  buildCreateAuditTableSQL name
  = (if strict_identifier name
     then Returns (join nl (map (render_line name) template))
     else Throws (Error ("Invalid table name: " +:+ name))).
Proof.
  unfold buildCreateAuditTableSQL, assertSafeIdentifier.
  rewrite test_identifier_pattern. by destruct (strict_identifier name).
Qed.

(** C8: the provisioning routine fails on every table name that is not a
    strict identifier, and on every strict identifier it returns the setup SQL
    with that name interpolated; the omitted argument stands for
    [audit_logs]. *)
Theorem createAuditTableSQLFor_validates name :
  createAuditTableSQLFor (Some name)
  = (if strict_identifier name
     then Returns (join nl (map (render_line name) template))
     else Throws (Error ("Invalid table name: " +:+ name)))
  ∧ createAuditTableSQLFor None
    = Returns (join nl (map (render_line DEFAULT_TABLE_NAME) template)).
Proof.
  split; [|reflexivity].
  unfold createAuditTableSQLFor. cbn [default].
  apply buildCreateAuditTableSQL_checked.
Qed.

(** *** Reading the index statements of the generated SQL *)

Lemma all_chars_impl (P Q : ascii → bool) s :
  (∀ c, P c = true → Q c = true) → all_chars P s = true → all_chars Q s = true.
Proof.
  intros H. induction s as [|c s IH]; simpl; [done|].
  rewrite !andb_true_iff. intros [Hc Hs]. auto.
Qed.

Lemma all_chars_app P s1 s2 :
  all_chars P (s1 +:+ s2) = all_chars P s1 && all_chars P s2.
Proof. induction s1 as [|c s1 IH]; simpl; [done|]. by rewrite IH, andb_assoc. Qed.

Lemma word_char_is_not a :
  word_char a = true →
  (is_not newline a && is_not (ch "(") a && is_not (ch " ") a) = true.
Proof. destruct a as [[] [] [] [] [] [] [] []]; vm_compute; congruence. Qed.

Lemma strict_identifier_chars s c :
  c = newline ∨ c = ch "(" ∨ c = ch " " →
  strict_identifier s = true → all_chars (is_not c) s = true.
Proof.
  intros Hc Hs. destruct s as [|a s]; [done|].
  unfold strict_identifier in Hs. apply andb_true_iff in Hs as [Hs _].
  revert Hs. apply all_chars_impl. intros a' Ha.
  apply word_char_is_not in Ha. rewrite !andb_true_iff in Ha.
  destruct Ha as [[? ?] ?]. destruct Hc as [->|[->| ->]]; done.
Qed.

Lemma strip_prefix_app p s : strip_prefix p (p +:+ s) = Some s.
Proof.
  induction p as [|c p IH]; simpl; [by destruct s|].
  by rewrite Ascii.eqb_refl.
Qed.

Lemma split_at_first_app c a rest :
  all_chars (is_not c) a = true →
  split_at_first c (a +:+ String c rest) = Some (a, rest).
Proof.
  induction a as [|x a IH]; simpl.
  - by rewrite Ascii.eqb_refl.
  - unfold is_not at 1. rewrite andb_true_iff, negb_true_iff. intros [Hx Ha].
    by rewrite Hx, IH.
Qed.

Lemma lines_single a : all_chars (is_not newline) a = true → lines a = [a].
Proof.
  induction a as [|x a IH]; simpl; [done|].
  unfold is_not at 1. rewrite andb_true_iff, negb_true_iff. intros [Hx Ha].
  by rewrite Hx, IH.
Qed.

Lemma lines_app a rest :
  all_chars (is_not newline) a = true →
  lines (a +:+ String newline rest) = a :: lines rest.
Proof.
  induction a as [|x a IH]; [reflexivity|]. simpl.
  unfold is_not at 1. rewrite andb_true_iff, negb_true_iff. intros [Hx Ha].
  by rewrite Hx, IH.
Qed.

Lemma lines_join ls :
  ls ≠ [] → Forall (λ l, all_chars (is_not newline) l = true) ls →
  lines (join nl ls) = ls.
Proof.
  induction ls as [|l ls IH]; [done|]. intros _ Hall.
  apply Forall_cons in Hall as [Hl Hall].
  destruct ls as [|l' ls]; simpl.
  - by apply lines_single.
  - change (lines (l +:+ String newline (join nl (l' :: ls))) = l :: l' :: ls).
    rewrite lines_app by done. f_equal. by apply IH.
Qed.

Lemma render_line_no_newline t ps :
  all_chars (is_not newline) t = true →
  forallb part_has_no_newline ps = true →
  all_chars (is_not newline) (render_line t ps) = true.
Proof.
  intros Ht. induction ps as [|p ps IH]; simpl; [done|].
  rewrite andb_true_iff. intros [Hp Hps]. rewrite all_chars_app, IH by done.
  rewrite andb_true_r. destruct p; simpl; [done| |done].
  simpl in Hp. rewrite all_chars_app, Hp. done.
Qed.

Lemma lines_of_sql t :
  strict_identifier t = true →
  lines (join nl (map (render_line t) template)) = map (render_line t) template.
Proof.
  intros Ht. apply lines_join; [done|].
  apply Forall_forall. intros l Hl.
  apply list_elem_of_fmap in Hl as (ps & -> & Hps).
  apply render_line_no_newline.
  - by apply strict_identifier_chars; [left|].
  - assert (Hall : forallb (forallb part_has_no_newline) template = true)
      by (vm_compute; reflexivity).
    rewrite forallb_forall in Hall. apply Hall. by apply list_elem_of_In.
Qed.

Lemma read_create_index_shape name t tail :
  all_chars (is_not (ch " ")) name = true →
  all_chars (is_not (ch "(")) t = true →
  read_create_index
    ("CREATE INDEX IF NOT EXISTS " +:+ name +:+ " ON " +:+ t +:+ "(" +:+ tail)
  = Some {| ci_name := name; ci_table := t |}.
Proof.
  intros Hn Ht. unfold read_create_index.
  rewrite strip_prefix_app.
  change (name +:+ " ON " +:+ t +:+ "(" +:+ tail)
    with (name +:+ String (ch " ") ("ON " +:+ t +:+ String (ch "(") tail)).
  rewrite (split_at_first_app (ch " ")) by done.
  rewrite strip_prefix_app.
  by rewrite (split_at_first_app (ch "(")) by done.
Qed.

(** The index statements the store finds in the setup SQL of a table. *)
Lemma statements_of_sql t :
  strict_identifier t = true →
  create_index_statements (join nl (map (render_line t) template))
  = map (λ n, {| ci_name := n; ci_table := t |}) index_names.
Proof.
  intros Ht. unfold create_index_statements. rewrite lines_of_sql by done.
  pose proof (strict_identifier_chars t (ch "(") (or_intror (or_introl eq_refl)) Ht) as Hp.
  change template with (take 33 template ++ take 5 (drop 33 template) ++ drop 38 template).
  rewrite !map_app, !omap_app.
  change (omap read_create_index (map (render_line t) (take 33 template))) with (@nil create_index).
  change (omap read_create_index (map (render_line t) (drop 38 template))) with (@nil create_index).
  rewrite app_nil_r. cbn [app].
  change (take 5 (drop 33 template)) with
    [ [Lit "CREATE INDEX IF NOT EXISTS idx_audit_logs_table_record ON "; TableName;
       Lit "(table_name, record_id);"];
      [Lit "CREATE INDEX IF NOT EXISTS idx_audit_logs_user_id ON "; TableName;
       Lit "(user_id) WHERE user_id IS NOT NULL;"];
      [Lit "CREATE INDEX IF NOT EXISTS idx_audit_logs_created_at ON "; TableName;
       Lit "(created_at DESC);"];
      [Lit "CREATE INDEX IF NOT EXISTS idx_audit_logs_action ON "; TableName; Lit "(action);"];
      [Lit "CREATE INDEX IF NOT EXISTS idx_audit_logs_table_created ON "; TableName;
       Lit "(table_name, created_at DESC);"] ].
  cbn [map omap list_omap].
  change (render_line t [Lit "CREATE INDEX IF NOT EXISTS idx_audit_logs_table_record ON ";
                         TableName; Lit "(table_name, record_id);"])
    with ("CREATE INDEX IF NOT EXISTS " +:+ "idx_audit_logs_table_record" +:+ " ON "
          +:+ t +:+ "(" +:+ "table_name, record_id);").
  change (render_line t [Lit "CREATE INDEX IF NOT EXISTS idx_audit_logs_user_id ON ";
                         TableName; Lit "(user_id) WHERE user_id IS NOT NULL;"])
    with ("CREATE INDEX IF NOT EXISTS " +:+ "idx_audit_logs_user_id" +:+ " ON "
          +:+ t +:+ "(" +:+ "user_id) WHERE user_id IS NOT NULL;").
  change (render_line t [Lit "CREATE INDEX IF NOT EXISTS idx_audit_logs_created_at ON ";
                         TableName; Lit "(created_at DESC);"])
    with ("CREATE INDEX IF NOT EXISTS " +:+ "idx_audit_logs_created_at" +:+ " ON "
          +:+ t +:+ "(" +:+ "created_at DESC);").
  change (render_line t [Lit "CREATE INDEX IF NOT EXISTS idx_audit_logs_action ON ";
                         TableName; Lit "(action);"])
    with ("CREATE INDEX IF NOT EXISTS " +:+ "idx_audit_logs_action" +:+ " ON "
          +:+ t +:+ "(" +:+ "action);").
  change (render_line t [Lit "CREATE INDEX IF NOT EXISTS idx_audit_logs_table_created ON ";
                         TableName; Lit "(table_name, created_at DESC);"])
    with ("CREATE INDEX IF NOT EXISTS " +:+ "idx_audit_logs_table_created" +:+ " ON "
          +:+ t +:+ "(" +:+ "table_name, created_at DESC);").
  rewrite !read_create_index_shape by (done || reflexivity).
  reflexivity.
Qed.

(** *** Index names in the catalog *)

Lemma exec_create_index_existing catalog c :
  is_Some (catalog !! ci_name c) → exec_create_index catalog c = catalog.
Proof. intros [t Ht]. unfold exec_create_index. by rewrite Ht. Qed.

Lemma exec_create_index_lookup catalog c n t :
  catalog !! n = Some t → exec_create_index catalog c !! n = Some t.
Proof.
  intros Hn. unfold exec_create_index.
  destruct (catalog !! ci_name c) eqn:E; [done|].
  rewrite lookup_insert_ne; [done|]. intros <-. congruence.
Qed.

Lemma run_lookup_preserved cs : ∀ catalog n t,
  catalog !! n = Some t → foldl exec_create_index catalog cs !! n = Some t.
Proof.
  induction cs as [|c cs IH]; intros catalog n t Hn; simpl; [done|].
  by apply IH, exec_create_index_lookup.
Qed.

(** Every name of a batch of statements is in the catalog afterwards. *)
Lemma run_names_present cs : ∀ catalog c,
  c ∈ cs → is_Some (foldl exec_create_index catalog cs !! ci_name c).
Proof.
  induction cs as [|c0 cs IH]; intros catalog c Hc; [by apply elem_of_nil in Hc|].
  simpl. apply elem_of_cons in Hc as [->|Hc]; [|by apply IH].
  unfold exec_create_index at 2.
  destruct (catalog !! ci_name c0) as [t|] eqn:E.
  - exists t. by apply run_lookup_preserved.
  - exists (ci_table c0). apply run_lookup_preserved, lookup_insert_eq.
Qed.

(** Statements whose names are all taken change nothing. *)
Lemma run_all_existing cs : ∀ catalog,
  (∀ c, c ∈ cs → is_Some (catalog !! ci_name c)) →
  foldl exec_create_index catalog cs = catalog.
Proof.
  induction cs as [|c cs IH]; intros catalog Hall; simpl; [done|].
  rewrite exec_create_index_existing by (apply Hall, list_elem_of_here).
  apply IH. intros c' Hc'. by apply Hall, list_elem_of_further.
Qed.

(** Starting from an empty catalog, every index belongs to the table of the
    batch. *)
Lemma run_from_empty_table names t n t' :
  foldl exec_create_index ∅ (map (λ n, {| ci_name := n; ci_table := t |}) names) !! n
    = Some t' → t' = t.
Proof.
  assert (Hgen : ∀ catalog,
            (∀ n t', catalog !! n = Some t' → t' = t) →
            ∀ n t', foldl exec_create_index catalog
                      (map (λ n, {| ci_name := n; ci_table := t |}) names) !! n = Some t' →
                    t' = t).
  { induction names as [|n0 names IH]; intros catalog Hc n1 t1; simpl; [apply Hc|].
    apply IH. intros n2 t2. unfold exec_create_index. simpl.
    destruct (catalog !! n0) eqn:E; [apply Hc|].
    destruct (decide (n0 = n2)) as [->|Hne].
    - rewrite lookup_insert_eq. congruence.
    - rewrite lookup_insert_ne by done. apply Hc. }
  apply Hgen. intros n1 t1. by rewrite lookup_empty.
Qed.

Lemma index_names_prefixed :
  Forall (λ n, ∃ rest, n = "idx_audit_logs_" +:+ rest) index_names.
Proof. repeat constructor; eexists; reflexivity. Qed.

(** C10: for every valid table name, the index statements of the setup SQL
    carry the five fixed names of the schema declaration, all prefixed
    [idx_audit_logs_], whatever the table name.  Hence, after the audit table
    [t1] has been provisioned in a store without these indexes, provisioning
    a second audit table [t2] lets every [CREATE INDEX IF NOT EXISTS] find its
    name taken: the catalog is unchanged, and no index is on [t2]. *)
Theorem index_names_do_not_depend_on_table t1 t2 :
  strict_identifier t1 = true →
  strict_identifier t2 = true →
  ∃ sql1 sql2,
    createAuditTableSQLFor (Some t1) = Returns sql1
    ∧ createAuditTableSQLFor (Some t2) = Returns sql2
    ∧ map ci_name (create_index_statements sql1) = index_names
    ∧ map ci_name (create_index_statements sql2) = index_names
    ∧ Forall (λ c, ci_table c = t2) (create_index_statements sql2)
    ∧ Forall (λ n, ∃ rest, n = "idx_audit_logs_" +:+ rest) index_names
    ∧ run_create_indexes (run_create_indexes ∅ sql1) sql2 = run_create_indexes ∅ sql1
    ∧ (∀ n, n ∈ index_names →
            run_create_indexes (run_create_indexes ∅ sql1) sql2 !! n = Some t1)
    ∧ (t1 ≠ t2 →
       ∀ n, run_create_indexes (run_create_indexes ∅ sql1) sql2 !! n ≠ Some t2).
Proof.
  intros H1 H2.
  pose proof (buildCreateAuditTableSQL_checked t1) as E1.
  pose proof (buildCreateAuditTableSQL_checked t2) as E2.
  rewrite H1 in E1. rewrite H2 in E2.
  eexists _, _. split; [exact E1|]. split; [exact E2|].
  unfold run_create_indexes. rewrite !statements_of_sql by done.
  set (cs1 := map (λ n, {| ci_name := n; ci_table := t1 |}) index_names).
  set (cs2 := map (λ n, {| ci_name := n; ci_table := t2 |}) index_names).
  assert (Hn1 : map ci_name cs1 = index_names).
  { reflexivity. }
  assert (Hn2 : map ci_name cs2 = index_names).
  { reflexivity. }
  assert (Hsame : foldl exec_create_index (foldl exec_create_index ∅ cs1) cs2
                  = foldl exec_create_index ∅ cs1).
  { apply run_all_existing. intros c Hc.
    assert (Hin : ci_name c ∈ map ci_name cs1).
    { rewrite Hn1, <- Hn2. by apply (list_elem_of_fmap_2 ci_name). }
    apply (list_elem_of_fmap_1 ci_name) in Hin as (c1 & -> & Hc1).
    by apply run_names_present. }
  split_and!; [done | done | | apply index_names_prefixed | done | |].
  - subst cs2. apply Forall_forall. intros c Hc.
    apply list_elem_of_fmap in Hc as (n & -> & _). done.
  - intros n Hn. rewrite Hsame.
    assert (Hin : n ∈ map ci_name cs1) by by rewrite Hn1.
    apply (list_elem_of_fmap_1 ci_name) in Hin as (c1 & -> & Hc1).
    destruct (run_names_present cs1 ∅ c1 Hc1) as [t' Ht'].
    rewrite Ht'. f_equal. subst cs1. by apply run_from_empty_table in Ht'.
  - intros Hne n Hn. rewrite Hsame in Hn. subst cs1.
    apply run_from_empty_table in Hn. congruence.
Qed.

Lemma index_names_do_not_depend_on_table_witness :
  ∃ sql1 sql2,
    createAuditTableSQLFor (Some "audit_logs"%string) = Returns sql1
    ∧ createAuditTableSQLFor (Some "billing_audit"%string) = Returns sql2
    ∧ map ci_name (create_index_statements sql1) = index_names
    ∧ map ci_name (create_index_statements sql2) = index_names
    ∧ Forall (λ c, ci_table c = "billing_audit"%string) (create_index_statements sql2)
    ∧ Forall (λ n, ∃ rest, n = "idx_audit_logs_" +:+ rest) index_names
    ∧ run_create_indexes (run_create_indexes ∅ sql1) sql2 = run_create_indexes ∅ sql1
    ∧ (∀ n, n ∈ index_names →
            run_create_indexes (run_create_indexes ∅ sql1) sql2 !! n
            = Some "audit_logs"%string)
    ∧ ("audit_logs"%string ≠ "billing_audit"%string →
       ∀ n, run_create_indexes (run_create_indexes ∅ sql1) sql2 !! n
            ≠ Some "billing_audit"%string).
Proof.
  apply (index_names_do_not_depend_on_table "audit_logs" "billing_audit");
    reflexivity.
Defined.

(** *** Payload columns *)

(** C2 on the code: the schema declaration and the setup SQL agree on twelve
    columns, of which the structured ones are [values] and [metadata]; no
    column is declared for a before snapshot, and the audit rows read through
    the declaration carry neither an [oldValues] nor a [newValues] key, which
    the tests read. *)
Lemma schema_has_one_payload_column :
  map property (filter (λ c, is_jsonb c = true) auditLogs) = ["values"; "metadata"]%string
  ∧ Forall (λ c, property c ≠ "oldValues"%string ∧ property c ≠ "newValues"%string
                 ∧ column_name c ≠ "old_values"%string
                 ∧ column_name c ≠ "new_values"%string) auditLogs
  ∧ (∃ sql, createAuditTableSQL = Returns sql
            ∧ map fst (table_columns sql) = map column_name auditLogs
            ∧ filter (λ c, c.2 = "JSONB"%string) (table_columns sql)
              = [("values", "JSONB"); ("metadata", "JSONB")]%string).
Proof.
  split_and!.
  - reflexivity.
  - repeat constructor; discriminate.
  - eexists. split; [reflexivity|]. split; vm_compute; reflexivity.
Qed.

End SchemaFacts.
(** ** The engine: DELETE statements *)

Module EngineFacts.
Import JS PrimaryKey Engine Samples JSFacts.

Lemma pair_rows_before_only before :
  pair_rows before [] = map (λ b, (Some b, None)) before.
Proof. by destruct before. Qed.

Lemma build_all_delete host h table pk ctx tx rows : ∀ ids,
  extractPrimaryKeys host h rows table pk = Returns ids →
  build_all host h DELETE table pk ctx tx (map (λ b, (Some b, None)) rows)
  = Returns (zip_with (delete_record ctx tx table) rows ids).
Proof.
  induction rows as [|row rows IH]; intros ids H; simpl in *.
  - by simplify_eq.
  - apply bind_returns in H as (id & Hid & H).
    apply bind_returns in H as (ids' & Hids & H). simplify_eq.
    unfold build_one. simpl. rewrite Hid. simpl.
    by rewrite (IH _ Hids).
Qed.

Lemma extractPrimaryKeys_length host h table pk rows : ∀ ids,
  extractPrimaryKeys host h rows table pk = Returns ids → length ids = length rows.
Proof.
  induction rows as [|row rows IH]; intros ids H; simpl in *.
  - by simplify_eq.
  - apply bind_returns in H as (id & Hid & H).
    apply bind_returns in H as (ids' & Hids & H). simplify_eq.
    simpl. by rewrite (IH _ Hids).
Qed.

Lemma zip_with_delete_record ctx tx table rows : ∀ ids,
  length ids = length rows →
  length (zip_with (delete_record ctx tx table) rows ids) = length rows
  ∧ map recordId (zip_with (delete_record ctx tx table) rows ids) = ids
  ∧ map oldValues (zip_with (delete_record ctx tx table) rows ids) = map Some rows
  ∧ Forall (λ r, action r = DELETE ∧ tableName r = table ∧ newValues r = None
                 ∧ changedFields r = None
                 ∧ transactionId r = tx)
      (zip_with (delete_record ctx tx table) rows ids).
Proof.
  induction rows as [|row rows IH]; intros [|id ids] Hlen; simpl in *; try done.
  destruct (IH ids) as (H1 & H2 & H3 & H4); [lia|].
  split_and!; [by rewrite H1 | by rewrite H2 | by rewrite H3 |].
  constructor; done.
Qed.

Lemma build_all_delete_fails host h table pk ctx tx rows : ∀ e,
  extractPrimaryKeys host h rows table pk = Throws e →
  build_all host h DELETE table pk ctx tx (map (λ b, (Some b, None)) rows) = Throws e.
Proof.
  induction rows as [|row rows IH]; intros e H; simpl in *; [done|].
  unfold build_one. simpl.
  destruct (extractPrimaryKey host h row table pk) as [id|e'|] eqn:Hid; simpl in *;
    [|congruence..].
  destruct (extractPrimaryKeys host h rows table pk) as [ids|e'|] eqn:Hids; simpl in *;
    [done| |done].
  rewrite (IH _ eq_refl). simpl. congruence.
Qed.

(** C1 (as amended): under every configuration, a DELETE statement is
    audited from the rows the statement itself reports as removed.  When the
    identity of every removed row resolves, the batch holds exactly one
    record per removed row, in order, each a DELETE record with the removed
    row as its old values and no new values; when the identity of a removed
    row does not resolve, the derivation fails with the error of the first
    such row and there is no batch; a DELETE that matches no row yields an
    empty batch and no error, whatever the primary-key specification. *)
Theorem delete_is_always_audited cfg host h ctx fresh_tx db table predicate :
  let removed := (execute db (Delete table predicate)).2 in
  let db' := (execute db (Delete table predicate)).1 in
  (∀ ids,
      extractPrimaryKeys host h removed table (primaryKeyMap cfg) = Returns ids →
      ∃ recs,
        audit cfg host h ctx fresh_tx db (Delete table predicate) = Returns (db', recs)
        ∧ length recs = length removed
        ∧ map recordId recs = ids
        ∧ map oldValues recs = map Some removed
        ∧ Forall (λ r, action r = DELETE ∧ tableName r = table
                       ∧ newValues r = None ∧ changedFields r = None
                       ∧ transactionId r = default fresh_tx (ctx_transactionId ctx))
            recs)
  ∧ (∀ e,
        extractPrimaryKeys host h removed table (primaryKeyMap cfg) = Throws e →
        audit cfg host h ctx fresh_tx db (Delete table predicate) = Throws e)
  ∧ (removed = [] →
     audit cfg host h ctx fresh_tx db (Delete table predicate) = Returns (db', [])).
Proof.
  intros removed db'. split_and!.
  - intros ids Hids. unfold audit, build, paired. fold removed. fold db'.
    cbn [default]. rewrite pair_rows_before_only.
    rewrite (build_all_delete _ _ _ _ _ _ _ _ Hids). cbn [bind].
    eexists. split; [reflexivity|].
    apply zip_with_delete_record. by eapply extractPrimaryKeys_length.
  - intros e He. unfold audit, build, paired. fold removed.
    cbn [default]. rewrite pair_rows_before_only.
    by rewrite (build_all_delete_fails _ _ _ _ _ _ _ _ He).
  - intros Hnil. unfold audit, build, paired. fold removed. fold db'.
    rewrite Hnil. reflexivity.
Qed.

Lemma delete_is_always_audited_witness :
  ∃ recs,
    audit (users_cfg false) UTC_host ∅ no_context "tx-1" users_db
      (Delete "users" (id_at_least 2))
    = Returns ((execute users_db (Delete "users" (id_at_least 2))).1, recs)
    ∧ length recs = length (execute users_db (Delete "users" (id_at_least 2))).2
    ∧ map recordId recs = ["2"; "3"]%string
    ∧ map oldValues recs = map Some (execute users_db (Delete "users" (id_at_least 2))).2
    ∧ Forall (λ r, action r = DELETE ∧ tableName r = "users"%string
                   ∧ newValues r = None ∧ changedFields r = None
                   ∧ transactionId r = default "tx-1"%string (ctx_transactionId no_context))
        recs.
Proof.
  apply (proj1 (delete_is_always_audited (users_cfg false) UTC_host ∅
                  no_context "tx-1" users_db "users" (id_at_least 2))).
  vm_compute. reflexivity.
Defined.

(** C1 (as stated) fails when the identity of a removed row does not
    resolve: the statement removes two rows, which lack the configured key
    field, and the derivation raises the missing-key error instead of
    producing two records. *)
Lemma delete_without_identity_is_not_audited :
  let cfg := {| captureOldValues := true; captureDeletedValues := Some true;
                primaryKeyMap := {[ "users" := KeySingle "uuid" ]} |} in
  length (execute users_db (Delete "users" (id_at_least 2))).2 = 2
  ∧ audit cfg UTC_host ∅ no_context "tx-1" users_db (Delete "users" (id_at_least 2))
    = Throws (MissingKeyError "users").
Proof. split; vm_compute; reflexivity. Qed.

(** A DELETE removing two of three rows, with before-capture switched off:
    two records; a DELETE matching nothing: no record. *)
Example delete_two_of_three :
  (∃ db' r2 r3,
      audit (users_cfg false) UTC_host ∅ no_context "tx-1" users_db
        (Delete "users" (id_at_least 2)) = Returns (db', [r2; r3])
      ∧ rows_of db' "users" = [ [("id", VNumber (NInt 1)); ("name", VString "A")] ]
      ∧ (recordId r2, recordId r3) = ("2", "3")%string
      ∧ oldValues r3 = Some [("id", VNumber (NInt 3)); ("name", VString "C")])
  ∧ (∃ db', audit (users_cfg false) UTC_host ∅ no_context "tx-1" users_db
              (Delete "users" (id_at_least 9)) = Returns (db', [])
            ∧ rows_of db' "users" = rows_of users_db "users").
Proof.
  split.
  - eexists _, _, _. split; [vm_compute; reflexivity|].
    split_and!; vm_compute; reflexivity.
  - eexists. split; vm_compute; reflexivity.
Qed.

End EngineFacts.

(** ** The resolver: batches, errors and key shapes *)

Module ResolverFacts.
Import JS PrimaryKey Scope Paths IdentityText Samples MoreSamples JSFacts PrimaryKeyFacts.

(** *** Batches *)

Lemma extractPrimaryKeys_Forall2 host h tableName pkm records : ∀ ids,
  extractPrimaryKeys host h records tableName pkm = Returns ids
  ↔ Forall2 (λ r id, extractPrimaryKey host h r tableName pkm = Returns id) records ids.
Proof.
  induction records as [|r rs IH]; intros ids; simpl.
  - split; [intros [= <-]; constructor | intros H; by inversion H].
  - split.
    + intros H. apply bind_returns in H as (id & Hid & H).
      apply bind_returns in H as (ids' & Hids & H). simplify_eq.
      constructor; [done | by apply IH].
    + intros H. inversion H as [|? id ? ids' Hid Hids]; subst.
      rewrite Hid. simpl. apply IH in Hids. by rewrite Hids.
Qed.

(** X5: [extractPrimaryKeys] returns a list exactly when every record
    resolves; the list then has one identity per record, in the order of the
    records, each the identity [extractPrimaryKey] gives that record. *)
Theorem extractPrimaryKeys_maps_records host h tableName pkm records ids :
  extractPrimaryKeys host h records tableName pkm = Returns ids
  ↔ (length ids = length records
     ∧ ∀ i r, records !! i = Some r →
              ∃ id, ids !! i = Some id
                    ∧ extractPrimaryKey host h r tableName pkm = Returns id).
Proof.
  rewrite extractPrimaryKeys_Forall2. split.
  - intros H. split; [symmetry; by eapply Forall2_length|].
    intros i r Hr. destruct (Forall2_lookup_l _ _ _ _ _ H Hr) as (id & Hid & Hp). eauto.
  - intros [Hlen H]. apply Forall2_same_length_lookup_2; [done|].
    intros i r id Hr Hid. destruct (H i r Hr) as (id' & Hid' & Hp). congruence.
Qed.

(** X6: a batch fails with the error of its first record that fails; the
    identities of the records before it are not returned. *)
Theorem extractPrimaryKeys_first_failure host h tableName pkm before r after e :
  Forall (λ r', ∃ id, extractPrimaryKey host h r' tableName pkm = Returns id) before →
  extractPrimaryKey host h r tableName pkm = Throws e →
  extractPrimaryKeys host h (before ++ r :: after) tableName pkm = Throws e.
Proof.
  intros Hb Hr. induction Hb as [|r' before [id Hid] _ IH]; simpl.
  - by rewrite Hr.
  - rewrite Hid. simpl. by rewrite IH.
Qed.

Lemma extractPrimaryKeys_first_failure_witness :
  extractPrimaryKeys UTC_host ∅
    ([ [("id", VNumber (NInt 1))] ] ++ [("name", VString "B")] :: [ [("id", VNumber (NInt 3))] ])
    "users" users_pkm
  = Throws (MissingKeyError "users").
Proof.
  apply (extractPrimaryKeys_first_failure UTC_host ∅ "users" users_pkm).
  - constructor; [|constructor]. exists "1"%string. reflexivity.
  - reflexivity.
Defined.

(** *** Errors *)

Lemma resolve_fields_None record keys : ∀ resolved,
  resolve_fields record keys resolved = None →
  ∃ f, f ∈ keys ∧ nullish (obj_get record f) = true.
Proof.
  induction keys as [|k keys IH]; intros resolved H; simpl in H; [done|].
  destruct (nullish (obj_get record k)) eqn:Hk.
  - exists k. split; [apply list_elem_of_here | done].
  - destruct (IH _ H) as (f & Hf & Hn). exists f. split; [by apply list_elem_of_further | done].
Qed.

Lemma join_items_throws rec es e :
  (∀ v e', rec v = Throws e' → e' = TypeError) →
  join_items rec es = Throws e → e = TypeError.
Proof.
  intros Hrec. induction es as [|v es IH]; simpl; [done|].
  destruct (nullish v); simpl.
  - destruct (join_items rec es) eqn:E; simpl; [done| |done]. intros [= <-]. by apply IH.
  - destruct (rec v) eqn:Ev; simpl; [|intros [= <-]; by eapply Hrec|done].
    destruct (join_items rec es) eqn:E; simpl; [done| |done]. intros [= <-]. by apply IH.
Qed.

(** [String(v)] throws nothing but a [TypeError]. *)
Lemma ToString_throws fuel host h : ∀ stack v e,
  ToString fuel host h stack v = Throws e → e = TypeError.
Proof.
  induction fuel as [|n IH]; intros stack v e; destruct v; simpl; try done.
  - destruct (obj_at h l); [destruct (has_own ps _); by intros [= <-]
                           | by destruct (decide (l ∈ stack)) | by intros [= <-]].
  - destruct (obj_at h l); [destruct (has_own ps _); by intros [= <-]
                           | | by intros [= <-]].
    destruct (decide (l ∈ stack)); [done|].
    destruct (join_items _ es) eqn:E; simpl; [done| |done].
    intros [= <-]. eapply join_items_throws; [|exact E]. intros v e'. apply IH.
Qed.

Lemma ConfigurationError_not_MissingKeyError t t' :
  ConfigurationError t ≠ MissingKeyError t'.
Proof. unfold ConfigurationError, MissingKeyError. simpl. discriminate. Qed.

(** On a bounded stack [String(v)] throws a [TypeError] or, when the stack
    is exhausted, a [RangeError]. *)
Lemma ToString_on_stack_throws stack host h v e :
  Bounded.ToString stack host h v = Throws e → e = TypeError ∨ e = RangeError.
Proof.
  unfold Bounded.ToString. destruct (Bounded.string_fits stack h v).
  - intros H. left. by eapply ToString_throws.
  - intros [= <-]. by right.
Qed.

Lemma ToString_on_stack_total stack host h v :
  Bounded.ToString stack host h v ≠ OutOfFuel.
Proof.
  unfold Bounded.ToString. destruct (Bounded.string_fits stack h v); [|done].
  apply ToString_total. unfold unseen, fuel_for. rewrite difference_empty_L, size_dom. lia.
Qed.

(** X7: the errors of the resolver, for a table name and key fields that
    [Object.prototype] does not define, whatever the call stack of the host
    allows.  It raises the missing-entry error exactly when the table has no
    entry or the entry is the empty string, whatever the row; it raises the
    missing-field error exactly when the entry is there and some configured
    field is null or undefined on the row; any other exception is the
    [TypeError] or [RangeError] that [String] raises on the value of the
    field when the key has one field: the composite path raises nothing of
    its own. *)
Theorem extractPrimaryKey_errors stack host h record tableName pkm :
  inherited tableName = false →
  (∀ key f, pkm !! tableName = Some key → f ∈ keys_of key → inherited f = false) →
  (Bounded.extractPrimaryKey stack host h record tableName pkm
   = Throws (ConfigurationError tableName)
   ↔ pkm !! tableName = None ∨ pkm !! tableName = Some (KeySingle ""))
  ∧ (Bounded.extractPrimaryKey stack host h record tableName pkm
     = Throws (MissingKeyError tableName)
     ↔ ∃ key, pkm !! tableName = Some key ∧ truthy key = true
              ∧ ∃ f, f ∈ keys_of key ∧ absent record f = true)
  ∧ ∀ e, Bounded.extractPrimaryKey stack host h record tableName pkm = Throws e →
         e = ConfigurationError tableName ∨ e = MissingKeyError tableName
         ∨ ∃ key field, pkm !! tableName = Some key ∧ keys_of key = [field]
                        ∧ Bounded.ToString stack host h (obj_get record field) = Throws e
                        ∧ (e = TypeError ∨ e = RangeError).
Proof.
  intros _ Hfields. unfold Bounded.extractPrimaryKey.
  destruct (pkm !! tableName) as [key|] eqn:Hk.
  2:{ split_and!.
      - split; [by left | done].
      - split; [intros [= H]; by apply ConfigurationError_not_MissingKeyError in H
               | by intros (key & ? & _)].
      - intros e [= <-]. by left. }
  destruct (truthy key) eqn:Ht; simpl.
  2:{ assert (key = KeySingle "") as ->.
      { destruct key as [s|]; [|done]. simpl in Ht.
        apply negb_false_iff, String.eqb_eq in Ht. by subst. }
      split_and!.
      - split; [by right | done].
      - split; [intros [= H]; by apply ConfigurationError_not_MissingKeyError in H
               | intros (key & [= <-] & ? & _); done].
      - intros e [= <-]. by left. }
  assert (Hnot : Some key ≠ Some (KeySingle "")).
  { intros [= ->]. done. }
  assert (Hmissing : ∀ f, f ∈ keys_of key → absent record f = true →
            Bounded.extractConfiguredPrimaryKey stack host h record key = Returns None).
  { intros f Hf Hn. apply absent_nullish in Hn. unfold Bounded.extractConfiguredPrimaryKey.
    by rewrite (resolve_fields_missing _ _ [] f Hf Hn). }
  assert (Hcases : ∀ r,
            Bounded.extractConfiguredPrimaryKey stack host h record key = r →
            (r = Returns None ∧ ∃ f, f ∈ keys_of key ∧ absent record f = true)
            ∨ (∃ s, r = Returns (Some s))
            ∨ (∃ e field, r = Throws e ∧ keys_of key = [field]
                          ∧ Bounded.ToString stack host h (obj_get record field) = Throws e)).
  { intros r Hc. unfold Bounded.extractConfiguredPrimaryKey in Hc.
    destruct (resolve_fields record (keys_of key) []) as [resolved|] eqn:Hr.
    - destruct (safeStringifyForPK_on_stack_returns stack h resolved) as [s Hs].
      destruct (keys_of key) as [|k [|k' rest]] eqn:Hkeys;
        [right; left; exists s; congruence | | right; left; exists s; congruence].
      simpl in Hr. destruct (nullish (obj_get record k)); [done|].
      injection Hr as <-. rewrite obj_get_set_nil in Hc.
      pose proof (ToString_on_stack_total stack host h (obj_get record k)) as Htot.
      destruct (Bounded.ToString stack host h (obj_get record k)) as [s'|e|] eqn:E;
        simpl in Hc; [right; left; by exists s' | | done].
      right. right. exists e, k. by subst.
    - left. split; [done|].
      apply resolve_fields_None in Hr as (f & Hf & Hn). exists f. split; [done|].
      by rewrite <- (nullish_absent record f (Hfields key f eq_refl Hf)). }
  destruct (Hcases _ eq_refl) as [[Hc (f & Hf & Hn)]|[[s Hc]|(e0 & field & Hc & Hkeys & Hts)]];
    rewrite Hc; simpl.
  - (* a missing field *)
    split_and!.
    + split; [intros [= H]; symmetry in H;
              by apply ConfigurationError_not_MissingKeyError in H | by intros [|]].
    + split; [intros _ | done]. exists key. split_and!; [done..|]. eauto.
    + intros e [= <-]. right. by left.
  - (* an identity *)
    split_and!; [split; [done | by intros [|]] | split; [done|] | done].
    intros (key' & [= <-] & _ & f & Hf & Hn). specialize (Hmissing f Hf Hn). congruence.
  - (* an exception of the host *)
    pose proof (ToString_on_stack_throws _ _ _ _ _ Hts) as Hkind.
    split_and!.
    + split; [|by intros [|]]. intros [= ->]. by destruct Hkind.
    + split; [intros [= ->]; by destruct Hkind|].
      intros (key' & [= <-] & _ & f & Hf & Hn). specialize (Hmissing f Hf Hn). congruence.
    + intros e [= <-]. right. right. exists key, field. by split_and!.
Qed.

Lemma extractPrimaryKey_errors_witness :
  (Bounded.extractPrimaryKey (Bounded.of_depth 0) UTC_host array_heap
     [("id", VRef 1%positive)] "users" users_pkm
   = Throws (ConfigurationError "users")
   ↔ users_pkm !! "users" = None ∨ users_pkm !! "users" = Some (KeySingle ""))
  ∧ (Bounded.extractPrimaryKey (Bounded.of_depth 0) UTC_host array_heap
       [("id", VRef 1%positive)] "users" users_pkm
     = Throws (MissingKeyError "users")
     ↔ ∃ key, users_pkm !! "users" = Some key ∧ truthy key = true
              ∧ ∃ f, f ∈ keys_of key ∧ absent [("id", VRef 1%positive)] f = true)
  ∧ ∀ e, Bounded.extractPrimaryKey (Bounded.of_depth 0) UTC_host array_heap
           [("id", VRef 1%positive)] "users" users_pkm = Throws e →
         e = ConfigurationError "users" ∨ e = MissingKeyError "users"
         ∨ ∃ key field, users_pkm !! "users" = Some key ∧ keys_of key = [field]
                        ∧ Bounded.ToString (Bounded.of_depth 0) UTC_host array_heap
                            (obj_get [("id", VRef 1%positive)] field) = Throws e
                        ∧ (e = TypeError ∨ e = RangeError).
Proof.
  apply (extractPrimaryKey_errors (Bounded.of_depth 0) UTC_host array_heap
           [("id", VRef 1%positive)] "users" users_pkm).
  - reflexivity.
  - intros key f [= <-] Hf. apply list_elem_of_singleton in Hf as ->. reflexivity.
Defined.

(** An array under a single-field key, on a stack too small to join it: the
    resolver raises the [RangeError] of the host. *)
Example single_field_key_can_exhaust_the_stack :
  Bounded.extractPrimaryKey (Bounded.of_depth 0) UTC_host array_heap
    [("id", VRef 1%positive)] "users" users_pkm = Throws RangeError
  ∧ Bounded.extractPrimaryKey (Bounded.of_depth 1) UTC_host array_heap
      [("id", VRef 1%positive)] "users" users_pkm = Returns "1,2"%string.
Proof. split; vm_compute; reflexivity. Qed.

(** *** Key shapes *)

(** X8: a one-element list of fields behaves exactly like the bare field
    name, provided the name is not empty. *)
Theorem one_field_list_is_the_field host h record tableName pkm field :
  field ≠ EmptyString →
  extractPrimaryKey host h record tableName (<[tableName := KeyList [field]]> pkm)
  = extractPrimaryKey host h record tableName (<[tableName := KeySingle field]> pkm).
Proof.
  intros Hne. unfold extractPrimaryKey. rewrite !lookup_insert_eq.
  apply String.eqb_neq in Hne. cbn [truthy]. by rewrite Hne.
Qed.

Lemma one_field_list_is_the_field_witness :
  extractPrimaryKey UTC_host ∅ [("id", VNumber (NInt 7))] "users"
    (<["users" := KeyList ["id"]]> ∅)
  = extractPrimaryKey UTC_host ∅ [("id", VNumber (NInt 7))] "users"
      (<["users" := KeySingle "id"]> ∅).
Proof.
  apply (one_field_list_is_the_field UTC_host ∅ _ "users" ∅ "id"). discriminate.
Defined.

(** For the empty name the two differ: the bare name counts as no entry, the
    list is used. *)
Example empty_name_in_a_list :
  extractPrimaryKey UTC_host ∅ [("", VNumber (NInt 7))] "users"
    (<["users" := KeyList [""]]> ∅) = Returns "7"%string
  ∧ extractPrimaryKey UTC_host ∅ [("", VNumber (NInt 7))] "users"
      (<["users" := KeySingle ""]> ∅) = Throws (ConfigurationError "users").
Proof. split; vm_compute; reflexivity. Qed.

(** *** Objects under a single-field key *)

(** X9: the single-field path is outside the [try]: when the key field (any
    but [__proto__]) holds an object whose conversion to a string throws (a
    revoked proxy, or an ordinary object with an own [toString] property that
    is no function), the resolver raises the host's [TypeError]. *)
Theorem single_field_key_can_raise_TypeError host h record tableName pkm field l :
  pkm !! tableName = Some (KeySingle field) →
  field ≠ EmptyString →
  field ≠ "__proto__"%string →
  obj_get record field = VRef l →
  (obj_at h l = ORevokedProxy
   ∨ ∃ ps, obj_at h l = OObject ps ∧ has_own ps "toString" = true) →
  extractPrimaryKey host h record tableName pkm = Throws TypeError.
Proof.
  intros Hk Hne _ Hv Ho.
  rewrite (single_key_is_ToString host h record tableName pkm field Hk Hne)
    by (by rewrite Hv).
  rewrite Hv. unfold fuel_for. simpl.
  destruct Ho as [-> | (ps & -> & ->)]; done.
Qed.

Lemma single_field_key_can_raise_TypeError_witness :
  extractPrimaryKey UTC_host proxy_heap [("id", VRef 1%positive)] "users" users_pkm
  = Throws TypeError.
Proof.
  apply (single_field_key_can_raise_TypeError UTC_host proxy_heap _ "users" users_pkm
           "id" 1%positive).
  - reflexivity.
  - discriminate.
  - discriminate.
  - reflexivity.
  - left. reflexivity.
Defined.

(** X10: under a single-field key other than [__proto__], every row whose key
    field holds an ordinary object (one without an own [toString] property)
    gets the identity [[object Object]], whatever the object contains. *)
Theorem object_valued_single_keys_collide host h record tableName pkm field l ps :
  pkm !! tableName = Some (KeySingle field) →
  field ≠ EmptyString →
  field ≠ "__proto__"%string →
  obj_get record field = VRef l →
  obj_at h l = OObject ps →
  has_own ps "toString" = false →
  extractPrimaryKey host h record tableName pkm = Returns "[object Object]"%string.
Proof.
  intros Hk Hne _ Hv Ho Hts.
  rewrite (single_key_is_ToString host h record tableName pkm field Hk Hne)
    by (by rewrite Hv).
  rewrite Hv. unfold fuel_for. simpl. by rewrite Ho, Hts.
Qed.

Lemma object_valued_single_keys_collide_witness :
  extractPrimaryKey UTC_host cyclic_heap [("id", VRef 1%positive)] "users" users_pkm
  = Returns "[object Object]"%string.
Proof.
  apply (object_valued_single_keys_collide UTC_host cyclic_heap _ "users" users_pkm
           "id" 1%positive [("self", VRef 1%positive); ("n", VNumber (NInt 1))]);
    [reflexivity | discriminate | discriminate | reflexivity..].
Defined.

(** *** Composite keys with scalar values *)

Lemma obj_at_alloc h o : obj_at (alloc h o).2 (alloc h o).1 = o.
Proof. unfold obj_at. by rewrite alloc_lookup. Qed.

Lemma render_JObj ms :
  render (JObj ms) = "{" +:+ join "," (member_texts ms) +:+ "}".
Proof.
  reflexivity.
Qed.

Lemma scalar_serialize v :
  scalar v = true →
  ∃ j, (∀ fuel h seen, SerializeJSONProperty fuel h seen v = Returns (seen, Some j))
       ∧ json_text v = render j.
Proof.
  destruct v; try done; intros _; eexists;
    (split; [intros [|fuel] h seen; reflexivity | reflexivity]).
Qed.

Lemma ser_members_scalar n h ps : ∀ seen,
  Forall (λ kv, scalar kv.2 = true) ps →
  ∃ ms, ser_members (SerializeJSONProperty n h) seen ps = Returns (seen, ms)
        ∧ member_texts ms = map (λ m, QuoteJSONString m.1 +:+ ":" +:+ m.2)
                              (view json_text ps).
Proof.
  induction ps as [|[k v] ps IH]; intros seen Hall; simpl.
  - by exists [].
  - apply Forall_cons in Hall as [Hv Hall]. simpl in Hv.
    destruct (scalar_serialize v Hv) as (j & Hj & Ht).
    destruct (IH seen Hall) as (ms & Hms & Htexts).
    rewrite Hj. simpl. rewrite Hms. simpl.
    eexists. split; [reflexivity|]. simpl. by rewrite Htexts, Ht.
Qed.

(** With scalar values only, the serialization writes the members one after
    the other. *)
Lemma safeStringifyForPK_scalar h resolved :
  Forall (λ kv, scalar kv.2 = true) resolved →
  safeStringifyForPK h resolved = Returns (Some (object_text (view json_text resolved))).
Proof.
  intros Hall. unfold safeStringifyForPK.
  pose proof (obj_at_alloc h (OObject resolved)) as Ho.
  destruct (alloc h (OObject resolved)) as [l h'] eqn:Ha. simpl in Ho.
  unfold JSON_stringify, fuel_for. simpl. rewrite Ho.
  destruct (decide (l ∈ ∅)) as [Hin|_]; [by apply not_elem_of_empty in Hin|].
  destruct (ser_members_scalar (size h') h' resolved ({[l]} ∪ ∅) Hall) as (ms & -> & Ht).
  cbn [bind fmap option_fmap option_map snd]. rewrite render_JObj, Ht. reflexivity.
Qed.

Lemma obj_set_Forall (P : value → Prop) ps k v :
  Forall (λ kv, P kv.2) ps → P v → Forall (λ kv, P kv.2) (obj_set ps k v).
Proof.
  intros Hps Hv. unfold obj_set. destruct (obj_lookup ps k).
  - induction Hps as [|[k' v'] ps Hx Hps IH]; simpl; [done|].
    destruct (String.eqb k' k); by constructor.
  - destruct (array_index k) as [i|].
    + induction Hps as [|[k' v'] ps Hx Hps IH]; simpl; [by repeat constructor|].
      destruct (array_index k') as [j|]; [destruct (j <? i)%N|];
        repeat (constructor; try done).
    + apply Forall_app. split; [done | by repeat constructor].
Qed.

Lemma resolve_fields_Forall (P : value → Prop) record keys : ∀ acc resolved,
  resolve_fields record keys acc = Some resolved →
  Forall (λ kv, P kv.2) acc →
  (∀ f, f ∈ keys → P (obj_get record f)) →
  Forall (λ kv, P kv.2) resolved.
Proof.
  induction keys as [|k keys IH]; simpl; intros acc resolved H Hacc Hk.
  - by simplify_eq.
  - destruct (nullish (obj_get record k)); [done|].
    eapply IH; [exact H | |].
    + apply obj_set_Forall; [done|]. apply Hk, list_elem_of_here.
    + intros f Hf. by apply Hk, list_elem_of_further.
Qed.

Lemma scalar_not_nullish v : scalar v = true → nullish v = false.
Proof. by destruct v. Qed.

(** Fields that are new and no array indices are appended in the order of the
    configured list. *)
Lemma resolve_fields_in_order record keys : ∀ acc,
  NoDup (Object_keys acc ++ keys) →
  (∀ f, f ∈ keys → array_index f = None) →
  (∀ f, f ∈ keys → nullish (obj_get record f) = false) →
  resolve_fields record keys acc = Some (acc ++ map (λ f, (f, obj_get record f)) keys).
Proof.
  induction keys as [|k keys IH]; intros acc Hnd Hidx Hp; simpl.
  - by rewrite app_nil_r.
  - rewrite Hp by apply list_elem_of_here.
    assert (Hk : k ∉ Object_keys acc).
    { apply NoDup_app in Hnd as (_ & Hd & _). intros Hin.
      by apply (Hd k Hin), list_elem_of_here. }
    unfold obj_set. apply obj_lookup_None in Hk. rewrite Hk.
    rewrite Hidx by apply list_elem_of_here.
    rewrite IH.
    + by rewrite <- app_assoc.
    + unfold Object_keys. rewrite map_app. simpl. by rewrite <- app_assoc.
    + intros f Hf. by apply Hidx, list_elem_of_further.
    + intros f Hf. by apply Hp, list_elem_of_further.
Qed.

(** X11: when the fields of a composite key are distinct, none of them is an
    array index or [__proto__], and the row holds a scalar (boolean, number,
    BigInt, string or Date) in each, the identity is the JSON object text
    that lists the fields in the order of the configured list, each with the
    JSON text of its value; it does not depend on the heap. *)
Theorem composite_identity_lists_fields_in_order host h record tableName pkm fields :
  pkm !! tableName = Some (KeyList fields) →
  length fields ≠ 1 →
  "__proto__"%string ∉ fields →
  NoDup fields →
  (∀ f, f ∈ fields → array_index f = None) →
  (∀ f, f ∈ fields → scalar (obj_get record f) = true) →
  extractPrimaryKey host h record tableName pkm
  = Returns (object_text (map (λ f, (f, json_text (obj_get record f))) fields)).
Proof.
  intros Hk Hlen _ Hnd Hidx Hsc.
  assert (Hr : resolve_fields record fields []
               = Some (map (λ f, (f, obj_get record f)) fields)).
  { rewrite resolve_fields_in_order; [done | done | done |].
    intros f Hf. by apply scalar_not_nullish, Hsc. }
  assert (Hall : Forall (λ kv : string * value, scalar kv.2 = true)
                   (map (λ f, (f, obj_get record f)) fields)).
  { apply Forall_forall. intros [k v] Hin.
    apply list_elem_of_fmap in Hin as (f & [= -> ->] & Hf). by apply Hsc. }
  rewrite (composite_goes_through_safeStringifyForPK host h record tableName pkm fields
             _ _ Hk Hlen Hr (safeStringifyForPK_scalar h _ Hall)).
  unfold view. by rewrite map_map.
Qed.

Lemma composite_identity_lists_fields_in_order_witness :
  extractPrimaryKey UTC_host cyclic_heap
    [("line_no", VBigInt 2); ("sku", VString "A-1"); ("order_id", VNumber (NInt 7))]
    "order_items" orders_pkm
  = Returns (object_text [("order_id", "7"); ("line_no", with_dquotes "'2'")]%string).
Proof.
  etrans.
  - apply (composite_identity_lists_fields_in_order UTC_host cyclic_heap _ "order_items"
             orders_pkm ["order_id"; "line_no"]).
    + reflexivity.
    + simpl. lia.
    + apply (bool_decide_unpack _). vm_compute. exact I.
    + apply (bool_decide_unpack _). vm_compute. exact I.
    + intros f Hf. apply elem_of_cons in Hf as [->|Hf]; [reflexivity|].
      apply list_elem_of_singleton in Hf as ->. reflexivity.
    + intros f Hf. apply elem_of_cons in Hf as [->|Hf]; [reflexivity|].
      apply list_elem_of_singleton in Hf as ->. reflexivity.
  - vm_compute. reflexivity.
Defined.

(** Field names that are array indices are written first, in ascending
    numeric order, whatever the order of the configured list. *)
Example index_like_fields_are_reordered :
  extractPrimaryKey UTC_host ∅
    [("b", VNumber (NInt 1)); ("10", VNumber (NInt 2)); ("2", VNumber (NInt 3))]
    "t" {[ "t" := KeyList ["b"; "10"; "2"] ]}
  = Returns (with_dquotes "{'2':3,'10':2,'b':1}").
Proof. vm_compute. reflexivity. Qed.

(** *** What the composite identity sees of the values *)

Section Views.
Context {B : Type} (φ : value → B).

Lemma view_keys ps : map fst (view φ ps) = Object_keys ps.
Proof. unfold view, Object_keys. rewrite map_map. by apply map_ext. Qed.

Lemma view_cons_inv k1 v1 ps1 k2 v2 ps2 :
  view φ ((k1, v1) :: ps1) = view φ ((k2, v2) :: ps2) →
  k1 = k2 ∧ φ v1 = φ v2 ∧ view φ ps1 = view φ ps2.
Proof. unfold view. simpl. by intros [= -> -> ->]. Qed.

Lemma obj_lookup_view ps1 : ∀ ps2 k,
  view φ ps1 = view φ ps2 → φ <$> obj_lookup ps1 k = φ <$> obj_lookup ps2 k.
Proof.
  induction ps1 as [|[k1 v1] ps1 IH]; intros [|[k2 v2] ps2] k H; try done.
  apply view_cons_inv in H as (-> & Hv & H). simpl.
  destruct (String.eqb k2 k); simpl; [by rewrite Hv | by apply IH].
Qed.

Lemma obj_replace_view ps1 : ∀ ps2 k v1 v2,
  view φ ps1 = view φ ps2 → φ v1 = φ v2 →
  view φ (obj_replace ps1 k v1) = view φ (obj_replace ps2 k v2).
Proof.
  induction ps1 as [|[k1 w1] ps1 IH]; intros [|[k2 w2] ps2] k v1 v2 H Hv; try done.
  pose proof H as H'. apply view_cons_inv in H' as (-> & Hw & Hps). simpl.
  destruct (String.eqb k2 k); unfold view in *; simpl.
  - by rewrite Hv, Hps.
  - rewrite Hw. f_equal. by apply IH.
Qed.

Lemma insert_index_view ps1 : ∀ ps2 i k v1 v2,
  view φ ps1 = view φ ps2 → φ v1 = φ v2 →
  view φ (insert_index ps1 i k v1) = view φ (insert_index ps2 i k v2).
Proof.
  induction ps1 as [|[k1 w1] ps1 IH]; intros [|[k2 w2] ps2] i k v1 v2 H Hv; try done.
  - unfold view. simpl. by rewrite Hv.
  - pose proof H as H'. apply view_cons_inv in H' as (-> & Hw & Hps). simpl.
    destruct (array_index k2) as [j|]; [destruct (j <? i)%N|]; unfold view in *; simpl.
    + rewrite Hw. f_equal. by apply IH.
    + by rewrite Hv, Hw, Hps.
    + by rewrite Hv, Hw, Hps.
Qed.

(** Assignment acts on a view of the object. *)
Lemma obj_set_view ps1 ps2 k v1 v2 :
  view φ ps1 = view φ ps2 → φ v1 = φ v2 →
  view φ (obj_set ps1 k v1) = view φ (obj_set ps2 k v2).
Proof.
  intros H Hv. unfold obj_set.
  pose proof (obj_lookup_view ps1 ps2 k H) as Hl.
  destruct (obj_lookup ps1 k), (obj_lookup ps2 k); try done.
  - by apply obj_replace_view.
  - destruct (array_index k); [by apply insert_index_view|].
    unfold view in *. rewrite !map_app, H. simpl. by rewrite Hv.
Qed.

Lemma resolve_fields_view r1 r2 keys : ∀ acc1 acc2 res1,
  view φ acc1 = view φ acc2 →
  (∀ f, f ∈ keys → φ (obj_get r1 f) = φ (obj_get r2 f)) →
  (∀ f, f ∈ keys → nullish (obj_get r2 f) = false) →
  resolve_fields r1 keys acc1 = Some res1 →
  ∃ res2, resolve_fields r2 keys acc2 = Some res2 ∧ view φ res1 = view φ res2.
Proof.
  induction keys as [|k keys IH]; intros acc1 acc2 res1 Hacc Hφ Hp H; simpl in *.
  - simplify_eq. eauto.
  - rewrite Hp by apply list_elem_of_here.
    destruct (nullish (obj_get r1 k)); [done|].
    eapply IH; [| | |exact H].
    + apply obj_set_view; [done|]. apply Hφ, list_elem_of_here.
    + intros f Hf. by apply Hφ, list_elem_of_further.
    + intros f Hf. by apply Hp, list_elem_of_further.
Qed.

End Views.

(** X12: under a composite key that does not name [__proto__], scalar key
    values enter the identity only through their JSON text: two rows, in any
    heaps, whose key fields hold scalars with the same JSON text get the same
    identity.  So a BigInt and the string of its digits, a Date and its ISO
    string, or [NaN] and [Infinity] in a key field are not told apart. *)
Theorem composite_identity_reads_scalars_as_text host1 h1 r1 host2 h2 r2
    tableName pkm fields :
  pkm !! tableName = Some (KeyList fields) →
  length fields ≠ 1 →
  "__proto__"%string ∉ fields →
  (∀ f, f ∈ fields →
        scalar (obj_get r1 f) = true ∧ scalar (obj_get r2 f) = true
        ∧ json_text (obj_get r1 f) = json_text (obj_get r2 f)) →
  extractPrimaryKey host1 h1 r1 tableName pkm = extractPrimaryKey host2 h2 r2 tableName pkm.
Proof.
  intros Hk Hlen _ Hf.
  destruct (resolve_fields_present r1 fields []) as [res1 Hr1].
  { intros f Hin. apply scalar_not_nullish. by apply Hf. }
  destruct (resolve_fields_view json_text r1 r2 fields [] [] res1) as (res2 & Hr2 & Hv);
    [done | intros f Hin; by apply Hf
     | intros f Hin; apply scalar_not_nullish; by apply Hf | done |].
  assert (H1 : Forall (λ kv : string * value, scalar kv.2 = true) res1).
  { eapply (resolve_fields_Forall (λ v, scalar v = true)); [exact Hr1 | done |].
    intros f Hin. by apply Hf. }
  assert (H2 : Forall (λ kv : string * value, scalar kv.2 = true) res2).
  { eapply (resolve_fields_Forall (λ v, scalar v = true)); [exact Hr2 | done |].
    intros f Hin. by apply Hf. }
  rewrite (composite_goes_through_safeStringifyForPK host1 h1 r1 tableName pkm fields
             _ _ Hk Hlen Hr1 (safeStringifyForPK_scalar h1 _ H1)).
  rewrite (composite_goes_through_safeStringifyForPK host2 h2 r2 tableName pkm fields
             _ _ Hk Hlen Hr2 (safeStringifyForPK_scalar h2 _ H2)).
  by rewrite Hv.
Qed.

Lemma composite_identity_reads_scalars_as_text_witness :
  extractPrimaryKey UTC_host ∅
    [("order_id", VBigInt 7); ("line_no", VNumber NNaN)] "order_items" orders_pkm
  = extractPrimaryKey UTC_host cyclic_heap
      [("order_id", VString "7"); ("line_no", VNumber (NInf false))] "order_items" orders_pkm.
Proof.
  apply (composite_identity_reads_scalars_as_text UTC_host ∅ _ UTC_host cyclic_heap _
           "order_items" orders_pkm ["order_id"; "line_no"]).
  - reflexivity.
  - simpl. lia.
  - apply (bool_decide_unpack _). vm_compute. exact I.
  - intros f Hf. apply elem_of_cons in Hf as [->|Hf]; [by vm_compute|].
    apply list_elem_of_singleton in Hf as ->. by vm_compute.
Defined.

(** Under a composite key a Number and the BigInt of the same integer are
    told apart, although under a single-field key they are not. *)
Example number_and_bigint_under_a_composite_key :
  extractPrimaryKey UTC_host ∅
    [("order_id", VNumber (NInt 7)); ("line_no", VNumber (NInt 1))] "order_items" orders_pkm
  = Returns (with_dquotes "{'order_id':7,'line_no':1}")
  ∧ extractPrimaryKey UTC_host ∅
      [("order_id", VBigInt 7); ("line_no", VNumber (NInt 1))] "order_items" orders_pkm
    = Returns (with_dquotes "{'order_id':'7','line_no':1}").
Proof. split; vm_compute; reflexivity. Qed.

(** *** The fallback identity *)

Lemma obj_lookup_replace ps k v f :
  obj_lookup ps k ≠ None →
  obj_lookup (obj_replace ps k v) f = if String.eqb k f then Some v else obj_lookup ps f.
Proof.
  induction ps as [|[k' v'] ps IH]; simpl; [done|].
  destruct (String.eqb k' k) eqn:E; intros Hk; simpl.
  - apply String.eqb_eq in E as ->. by destruct (String.eqb k f).
  - destruct (String.eqb k' f) eqn:E'.
    + apply String.eqb_eq in E' as ->. apply String.eqb_neq in E.
      destruct (String.eqb k f) eqn:E''; [|done].
      apply String.eqb_eq in E''. congruence.
    + by apply IH.
Qed.

Lemma obj_lookup_insert_index ps i k v f :
  obj_lookup ps k = None →
  obj_lookup (insert_index ps i k v) f = if String.eqb k f then Some v else obj_lookup ps f.
Proof.
  induction ps as [|[k' v'] ps IH]; simpl; [done|].
  destruct (String.eqb k' k) eqn:E; [done|]. intros Hk.
  destruct (array_index k') as [j|]; [destruct (j <? i)%N|]; simpl; try done.
  rewrite IH by done.
  destruct (String.eqb k' f) eqn:E'; [|done].
  apply String.eqb_eq in E' as ->. by rewrite String.eqb_sym, E.
Qed.

Lemma obj_lookup_app ps qs f :
  obj_lookup (ps ++ qs) f
  = match obj_lookup ps f with Some v => Some v | None => obj_lookup qs f end.
Proof.
  induction ps as [|[k' v'] ps IH]; simpl; [done|]. by destruct (String.eqb k' f).
Qed.

(** Reading a property after an assignment. *)
Lemma obj_lookup_set ps k v f :
  obj_lookup (obj_set ps k v) f = if String.eqb k f then Some v else obj_lookup ps f.
Proof.
  unfold obj_set. destruct (obj_lookup ps k) eqn:E.
  - apply obj_lookup_replace. congruence.
  - destruct (array_index k); [by apply obj_lookup_insert_index|].
    rewrite obj_lookup_app. simpl.
    destruct (String.eqb k f) eqn:E'; [|by destruct (obj_lookup ps f)].
    apply String.eqb_eq in E' as <-. by rewrite E.
Qed.

Lemma resolve_fields_keeps record keys : ∀ acc resolved f,
  resolve_fields record keys acc = Some resolved →
  obj_lookup acc f = Some (obj_get record f) →
  obj_lookup resolved f = Some (obj_get record f).
Proof.
  induction keys as [|k keys IH]; simpl; intros acc resolved f H Hl.
  - by simplify_eq.
  - destruct (nullish (obj_get record k)); [done|].
    eapply IH; [exact H|]. rewrite obj_lookup_set.
    destruct (String.eqb k f) eqn:E; [|done].
    by apply String.eqb_eq in E as ->.
Qed.

(** The object the loop builds holds, under each configured field, the row's
    value of that field. *)
Lemma resolve_fields_lookup record keys : ∀ acc resolved f,
  resolve_fields record keys acc = Some resolved →
  f ∈ keys → obj_lookup resolved f = Some (obj_get record f).
Proof.
  induction keys as [|k keys IH]; simpl; intros acc resolved f H Hf.
  - by apply elem_of_nil in Hf.
  - destruct (nullish (obj_get record k)); [done|].
    apply elem_of_cons in Hf as [->|Hf]; [|by eapply IH].
    eapply resolve_fields_keeps; [exact H|]. by rewrite obj_lookup_set, String.eqb_refl.
Qed.

Lemma obj_lookup_Some_index ps f v :
  obj_lookup ps f = Some v → ∃ i, ps !! i = Some (f, v).
Proof.
  induction ps as [|[k' v'] ps IH]; simpl; [done|].
  destruct (String.eqb k' f) eqn:E.
  - apply String.eqb_eq in E as ->. intros [= ->]. by exists 0.
  - intros H. destruct (IH H) as [i Hi]. by exists (S i).
Qed.

(** A revoked proxy among the members makes the serialization throw. *)
Lemma JSON_stringify_proxy_member h l0 ps i k l :
  obj_at h l0 = OObject ps → ps !! i = Some (k, VRef l) →
  obj_at h l = ORevokedProxy →
  ∃ e, JSON_stringify h (VRef l0) = Throws e.
Proof.
  intros Ho Hi Hp.
  destruct (JSON_stringify h (VRef l0)) as [r|e|] eqn:Hj; [exfalso|by eauto|].
  - unfold JSON_stringify, fuel_for in Hj.
    apply bind_returns in Hj as (r1 & H1 & _).
    simpl in H1. rewrite Ho in H1.
    destruct (decide (l0 ∈ ∅)) as [Hin|_]; [by apply not_elem_of_empty in Hin|].
    apply bind_returns in H1 as (r2 & H2 & _).
    destruct (ser_members_lookup _ (SerializeJSONProperty_mono _ h) _ _ _ _ _ _ H2 Hi)
      as (Si & ri & _ & Hr & _).
    destruct (size h); simpl in Hr; by rewrite Hp in Hr.
  - by apply JSON_stringify_total in Hj.
Qed.

Lemma obj_at_alloc_old h o l : is_Some (h !! l) → obj_at (alloc h o).2 l = obj_at h l.
Proof.
  intros Hl. unfold obj_at, alloc. simpl. rewrite lookup_insert_ne; [done|].
  intros <-. apply (is_fresh (dom h)). by apply elem_of_dom.
Qed.

Lemma safeStringifyForPK_proxy h resolved f l :
  obj_lookup resolved f = Some (VRef l) → h !! l = Some ORevokedProxy →
  safeStringifyForPK h resolved = Returns (Some (fallback_key resolved)).
Proof.
  intros Hl Hp.
  destruct (obj_lookup_Some_index _ _ _ Hl) as [i Hi].
  destruct (JSON_stringify_proxy_member (alloc h (OObject resolved)).2
              (alloc h (OObject resolved)).1 resolved i f l) as [e He].
  - apply obj_at_alloc.
  - done.
  - rewrite obj_at_alloc_old by (by rewrite Hp). unfold obj_at. by rewrite Hp.
  - destruct (safeStringifyForPK_cases h resolved) as [(s & Hj & _)|(e' & _ & Hs)];
      [congruence | done].
Qed.

(** X13: the fallback identity carries no value of the row.  Under a
    composite key that does not name [__proto__], two rows that have every
    field of the key, each with a revoked proxy in some key field, get the
    same identity, whatever the other key values are: the text
    [composite_key_], the distinct key names in ascending order of code
    units, and their number. *)
Theorem proxy_valued_keys_collide host1 h1 r1 f1 l1 host2 h2 r2 f2 l2
    tableName pkm fields :
  pkm !! tableName = Some (KeyList fields) →
  length fields ≠ 1 →
  "__proto__"%string ∉ fields →
  (∀ f, f ∈ fields → nullish (obj_get r1 f) = false ∧ nullish (obj_get r2 f) = false) →
  f1 ∈ fields → obj_get r1 f1 = VRef l1 → h1 !! l1 = Some ORevokedProxy →
  f2 ∈ fields → obj_get r2 f2 = VRef l2 → h2 !! l2 = Some ORevokedProxy →
  ∃ names,
    names ≡ₚ remove_dups fields
    ∧ Sorted String.le names
    ∧ extractPrimaryKey host1 h1 r1 tableName pkm
      = Returns ("composite_key_" +:+ join "_" names +:+ "_" +:+ nat_to_dec (length names))
    ∧ extractPrimaryKey host2 h2 r2 tableName pkm
      = Returns ("composite_key_" +:+ join "_" names +:+ "_" +:+ nat_to_dec (length names)).
Proof.
  intros Hk Hlen _ Hp Hf1 Hv1 Hl1 Hf2 Hv2 Hl2.
  destruct (resolve_fields_present r1 fields []) as [res1 Hr1]; [intros f Hf; by apply Hp|].
  destruct (resolve_fields_view (λ _, ()) r1 r2 fields [] [] res1) as (res2 & Hr2 & Hv);
    [done | done | intros f Hf; by apply Hp | done |].
  assert (Hkeys : Object_keys res1 = Object_keys res2).
  { by rewrite <- !(view_keys (λ _, ())), Hv. }
  destruct (resolve_fields_keys _ _ _ _ Hr1 NoDup_nil_2) as [Hnd Hmem].
  exists (sort_strings (Object_keys res1)). split_and!.
  - rewrite sort_strings_perm. apply NoDup_Permutation; [done | apply NoDup_remove_dups|].
    intros f. rewrite Hmem, elem_of_remove_dups. simpl. rewrite elem_of_nil. tauto.
  - apply sort_strings_sorted.
  - apply (composite_goes_through_safeStringifyForPK _ _ _ _ _ _ _ _ Hk Hlen Hr1).
    apply (safeStringifyForPK_proxy _ _ f1 l1); [|done].
    by rewrite (resolve_fields_lookup _ _ _ _ _ Hr1 Hf1), Hv1.
  - apply (composite_goes_through_safeStringifyForPK _ _ _ _ _ _ _ _ Hk Hlen Hr2).
    rewrite Hkeys. apply (safeStringifyForPK_proxy _ _ f2 l2); [|done].
    by rewrite (resolve_fields_lookup _ _ _ _ _ Hr2 Hf2), Hv2.
Qed.

Lemma proxy_valued_keys_collide_witness :
  ∃ names,
    names ≡ₚ remove_dups ["b"; "a"]
    ∧ Sorted String.le names
    ∧ extractPrimaryKey UTC_host proxy_heap proxy_row "pairs" pairs_pkm
      = Returns ("composite_key_" +:+ join "_" names +:+ "_" +:+ nat_to_dec (length names))
    ∧ extractPrimaryKey UTC_host proxy_heap
        [("b", VRef 1%positive); ("a", VString "other")] "pairs" pairs_pkm
      = Returns ("composite_key_" +:+ join "_" names +:+ "_" +:+ nat_to_dec (length names)).
Proof.
  apply (proxy_valued_keys_collide UTC_host proxy_heap proxy_row "a" 1%positive
           UTC_host proxy_heap [("b", VRef 1%positive); ("a", VString "other")]
           "b" 1%positive "pairs" pairs_pkm ["b"; "a"]).
  - reflexivity.
  - simpl. lia.
  - apply (bool_decide_unpack _). vm_compute. exact I.
  - intros f Hf. apply elem_of_cons in Hf as [->|Hf]; [by vm_compute|].
    apply list_elem_of_singleton in Hf as ->. by vm_compute.
  - apply list_elem_of_further, list_elem_of_here.
  - reflexivity.
  - reflexivity.
  - apply list_elem_of_here.
  - reflexivity.
  - reflexivity.
Defined.

End ResolverFacts.

(** ** The setup SQL, for every table name *)

Module SqlFacts.
Import JS Schema SqlText SchemaSpec SqlReaders SchemaFacts.

(** *** The table name adds letters, digits and underscores only *)

Lemma keep_app P s1 s2 : keep P (s1 +:+ s2) = keep P s1 +:+ keep P s2.
Proof.
  induction s1 as [|c s1 IH]; simpl; [done|]. destruct (P c); simpl; by rewrite IH.
Qed.

Lemma keep_none P s : all_chars (λ c, negb (P c)) s = true → keep P s = "".
Proof.
  induction s as [|c s IH]; simpl; [done|].
  rewrite andb_true_iff, negb_true_iff. intros [-> Hs]. by apply IH.
Qed.

Lemma strict_identifier_word s : strict_identifier s = true → all_chars word_char s = true.
Proof.
  destruct s as [|c s]; [done|]. unfold strict_identifier.
  rewrite andb_true_iff. by intros [? _].
Qed.

Lemma punctuation_identifier t : strict_identifier t = true → punctuation t = "".
Proof.
  intros Ht. apply keep_none. apply strict_identifier_word in Ht.
  revert Ht. apply all_chars_impl. intros c ->. done.
Qed.

Lemma punctuation_render_line t1 t2 ps :
  punctuation t1 = punctuation t2 →
  punctuation (render_line t1 ps) = punctuation (render_line t2 ps).
Proof.
  intros Ht. unfold punctuation in *.
  induction ps as [|p ps IH]; simpl; [done|].
  rewrite !keep_app, IH. by destruct p; simpl; rewrite ?Ht.
Qed.

Lemma punctuation_join sep l1 : ∀ l2,
  Forall2 (λ a b, punctuation a = punctuation b) l1 l2 →
  punctuation (join sep l1) = punctuation (join sep l2).
Proof.
  unfold punctuation.
  induction l1 as [|a l1 IH]; intros l2 H; inversion H as [|? b ? l2' Hab Hrest]; subst; [done|].
  destruct Hrest as [|a' b' l1' l2'' Hab' Hrest]; simpl; [done|].
  rewrite !keep_app, Hab. do 2 f_equal.
  apply (IH (b' :: l2'')). by constructor.
Qed.

Lemma punctuation_template t1 t2 :
  punctuation t1 = punctuation t2 →
  punctuation (join nl (map (render_line t1) template))
  = punctuation (join nl (map (render_line t2) template)).
Proof.
  intros Ht. apply punctuation_join.
  induction template as [|ps tpl IH]; simpl; constructor; [|done].
  by apply punctuation_render_line.
Qed.

(** X14: a table name that is accepted adds no punctuation to the setup
    SQL.  What is left of the generated text when letters, digits and
    underscores are dropped (spaces, line ends, quotes, brackets, semicolons,
    comment dashes) is the same for every table name: no statement, string
    or comment can begin or end inside the name. *)
Theorem table_name_adds_no_punctuation t sql :
  createAuditTableSQLFor (Some t) = Returns sql →
  ∃ sql0, createAuditTableSQL = Returns sql0 ∧ punctuation sql = punctuation sql0.
Proof.
  intros H. unfold createAuditTableSQLFor in H. simpl in H.
  rewrite buildCreateAuditTableSQL_checked in H.
  destruct (strict_identifier t) eqn:Ht; [|done]. injection H as <-.
  eexists. split; [reflexivity|].
  apply punctuation_template. rewrite punctuation_identifier by done. reflexivity.
Qed.

Lemma table_name_adds_no_punctuation_witness :
  ∃ sql0, createAuditTableSQL = Returns sql0
          ∧ punctuation (join nl (map (render_line "billing_audit") template))
            = punctuation sql0.
Proof.
  apply (table_name_adds_no_punctuation "billing_audit"). reflexivity.
Defined.

(** *** Reading through the table name *)

Lemma identifier_has_no c t :
  word_char c = false → strict_identifier t = true → all_chars (is_not c) t = true.
Proof.
  intros Hc Ht. apply strict_identifier_word in Ht. revert Ht.
  apply all_chars_impl. intros a Ha. unfold is_not.
  destruct (Ascii.eqb_spec a c) as [->|]; [congruence | done].
Qed.

Lemma strip_prefix_Some p : ∀ s r, strip_prefix p s = Some r → s = p +:+ r.
Proof.
  induction p as [|a p IH]; intros s r.
  - destruct s; simpl; by intros [= <-].
  - destruct s as [|b s]; simpl; [done|].
    destruct (Ascii.eqb_spec a b) as [->|]; [|done]. intros H.
    change (String b s = String b (p +:+ r)). f_equal. by apply IH.
Qed.

(** A text in which [needle] occurs has every character of [needle]. *)
Lemma contains_chars P needle s :
  contains needle s = true → all_chars P s = true → all_chars P needle = true.
Proof.
  induction s as [|a s IH].
  - simpl. by destruct needle.
  - cbn [contains]. destruct (strip_prefix needle (String a s)) as [r|] eqn:E.
    + apply strip_prefix_Some in E. rewrite E. intros _.
      rewrite all_chars_app, andb_true_iff. by intros [? _].
    + intros H Hs. change (P a && all_chars P s = true) in Hs.
      apply andb_true_iff in Hs as [_ Hs]. by apply IH.
Qed.

Lemma contains_spaced needle s :
  all_chars (is_not (ch " ")) needle = false →
  all_chars (is_not (ch " ")) s = true →
  contains needle s = false.
Proof.
  intros Hn Hs. destruct (contains needle s) eqn:E; [|done].
  by rewrite (contains_chars _ _ _ E Hs) in Hn.
Qed.

Lemma split_at_first_skip c t s :
  all_chars (is_not c) t = true →
  split_at_first c (t +:+ s) = (λ p, (t +:+ p.1, p.2)) <$> split_at_first c s.
Proof.
  induction t as [|a t IH].
  - intros _. change ("" +:+ s) with s.
    destruct (split_at_first c s) as [[??]|]; reflexivity.
  - cbn [all_chars]. unfold is_not at 1.
    rewrite andb_true_iff, negb_true_iff. intros [Ha Ht].
    change (String a t +:+ s) with (String a (t +:+ s)). cbn [split_at_first].
    rewrite Ha, IH by done. destruct (split_at_first c s) as [[??]|]; reflexivity.
Qed.

Lemma append_empty_r b : b +:+ "" = b.
Proof.
  induction b as [|c b IH]; [done|].
  change (String c (b +:+ "") = String c b). by rewrite IH.
Qed.

Lemma render_line_table a t b :
  render_line t [Lit a; TableName; Lit b] = a +:+ t +:+ b.
Proof. unfold render_line. cbn [foldr render_part]. by rewrite append_empty_r. Qed.

(** *** Columns *)

Lemma id_column_def t :
  strict_identifier t = true →
  read_column_def ("  id BIGINT PRIMARY KEY DEFAULT nextval('" +:+ t +:+ "_id_seq'),")
  = Some {| cd_name := "id"; cd_type := "BIGINT"; cd_not_null := true;
            cd_default_now := false |}.
Proof.
  intros Ht. unfold read_column_def.
  change (read_column ("  id BIGINT PRIMARY KEY DEFAULT nextval('" +:+ t +:+ "_id_seq'),"))
    with (Some ("id"%string, "BIGINT"%string)).
  assert (Hs : all_chars (is_not (ch " ")) (t +:+ "_id_seq'),") = true).
  { rewrite all_chars_app, (identifier_has_no (ch " ")) by done. reflexivity. }
  f_equal. f_equal.
  - apply orb_true_iff. right. reflexivity.
  - simpl. by apply contains_spaced.
Qed.

Lemma omap_one_line {A} (f : string → option A) t i line (r : A) :
  template !! i = Some line →
  omap f (map (render_line t) (take i template)) = [] →
  omap f (map (render_line t) (drop (S i) template)) = [] →
  f (render_line t line) = Some r →
  omap f (map (render_line t) template) = [r].
Proof.
  intros Hi Hbefore Hafter Hline.
  rewrite <- (take_drop_middle template i line Hi) at 1.
  rewrite map_app, omap_app, Hbefore. cbn [map omap list_omap app].
  fold (omap f (map (render_line t) (drop (S i) template))).
  by rewrite Hline, Hafter.
Qed.

Lemma created_table_of_sql t :
  strict_identifier t = true →
  omap read_create_table (map (render_line t) template) = [t].
Proof.
  intros Ht.
  apply (omap_one_line _ t 6 [Lit "CREATE TABLE IF NOT EXISTS "; TableName; Lit " ("]);
    [reflexivity..|].
  rewrite render_line_table. unfold read_create_table.
  rewrite strip_prefix_app, split_at_first_skip by by apply identifier_has_no.
  cbn. by rewrite append_empty_r.
Qed.

Lemma table_body_of_sql t :
  table_body false (map (render_line t) template)
  = ("  id BIGINT PRIMARY KEY DEFAULT nextval('" +:+ t +:+ "_id_seq'),")
    :: map (render_line "") (take 17 (drop 8 template)).
Proof. reflexivity. Qed.

(** X15: for every valid table name, the setup SQL creates one table, of
    that name, whose columns are those of the schema declaration, in its
    order: same names, same types, NOT NULL where the declaration says
    [notNull()] or [primaryKey()], and a default of the current time where it
    says [defaultNow()]. *)
Theorem setup_sql_declares_the_schema_columns t :
  strict_identifier t = true →
  ∃ sql, createAuditTableSQLFor (Some t) = Returns sql
         ∧ created_tables sql = [t]
         ∧ table_column_defs sql = map declared_column auditLogs.
Proof.
  intros Ht. eexists. split.
  { unfold createAuditTableSQLFor. simpl.
    rewrite buildCreateAuditTableSQL_checked, Ht. reflexivity. }
  unfold created_tables, table_column_defs. rewrite lines_of_sql by done.
  split; [by apply created_table_of_sql|].
  rewrite table_body_of_sql. cbn [omap list_omap].
  rewrite id_column_def by done. vm_compute. reflexivity.
Qed.

Lemma setup_sql_declares_the_schema_columns_witness :
  ∃ sql, createAuditTableSQLFor (Some "billing_audit"%string) = Returns sql
         ∧ created_tables sql = ["billing_audit"%string]
         ∧ table_column_defs sql = map declared_column auditLogs.
Proof.
  apply (setup_sql_declares_the_schema_columns "billing_audit"). reflexivity.
Defined.

(** *** The sequence of the [id] column *)

Lemma append_empty_l s : "" +:+ s = s.
Proof. reflexivity. Qed.

Lemma render_line_table2 a t b c :
  render_line t [Lit a; TableName; Lit b; TableName; Lit c] = a +:+ t +:+ b +:+ t +:+ c.
Proof. unfold render_line. cbn [foldr render_part]. by rewrite append_empty_r. Qed.

(** Evaluates a reader on a line, passing over the table name. *)
Ltac read_through :=
  repeat (simpl; rewrite ?append_empty_l;
          rewrite split_at_first_skip by (by apply identifier_has_no));
  simpl; rewrite ?append_empty_r; try reflexivity.

Lemma sequences_created_of_sql t :
  strict_identifier t = true →
  omap read_create_sequence (map (render_line t) template) = [t +:+ "_id_seq"].
Proof.
  intros Ht.
  apply (omap_one_line _ t 4 [Lit "CREATE SEQUENCE IF NOT EXISTS "; TableName; Lit "_id_seq;"]);
    [reflexivity..|].
  rewrite render_line_table. unfold read_create_sequence. read_through.
Qed.

Lemma sequence_owners_of_sql t :
  strict_identifier t = true →
  omap read_owned_by (map (render_line t) template) = [(t +:+ "_id_seq", t, "id")].
Proof.
  intros Ht.
  apply (omap_one_line _ t 27
           [Lit "ALTER SEQUENCE "; TableName; Lit "_id_seq OWNED BY "; TableName; Lit ".id;"]);
    [reflexivity..|].
  rewrite render_line_table2. unfold read_owned_by. read_through.
Qed.

Lemma id_column_default t :
  strict_identifier t = true →
  read_nextval_default ("  id BIGINT PRIMARY KEY DEFAULT nextval('" +:+ t +:+ "_id_seq'),")
  = Some ("id", t +:+ "_id_seq").
Proof. intros Ht. unfold read_nextval_default. read_through. Qed.

(** X16: for every valid table name [t], the setup SQL uses one sequence,
    [t_id_seq], consistently: it is the sequence the script creates, the one
    the [id] column (and no other column) draws its default from, and the
    one the script ties to the column [id] of table [t]. *)
Theorem id_sequence_is_used_consistently t :
  strict_identifier t = true →
  ∃ sql, createAuditTableSQLFor (Some t) = Returns sql
         ∧ sequences_created sql = [t +:+ "_id_seq"]
         ∧ sequence_defaults sql = [("id", t +:+ "_id_seq")]
         ∧ sequence_owners sql = [(t +:+ "_id_seq", t, "id")].
Proof.
  intros Ht. eexists. split.
  { unfold createAuditTableSQLFor. simpl.
    rewrite buildCreateAuditTableSQL_checked, Ht. reflexivity. }
  unfold sequences_created, sequence_defaults, sequence_owners.
  rewrite lines_of_sql by done. split_and!.
  - by apply sequences_created_of_sql.
  - rewrite table_body_of_sql. cbn [omap list_omap].
    rewrite id_column_default by done. vm_compute. reflexivity.
  - by apply sequence_owners_of_sql.
Qed.

Lemma id_sequence_is_used_consistently_witness :
  ∃ sql, createAuditTableSQLFor (Some "billing_audit"%string) = Returns sql
         ∧ sequences_created sql = ["billing_audit" +:+ "_id_seq"]
         ∧ sequence_defaults sql = [("id"%string, "billing_audit" +:+ "_id_seq")]
         ∧ sequence_owners sql
           = [("billing_audit" +:+ "_id_seq", "billing_audit"%string, "id"%string)].
Proof.
  apply (id_sequence_is_used_consistently "billing_audit"). reflexivity.
Defined.

(** *** Index columns *)

Lemma index_defs_of_sql t :
  strict_identifier t = true →
  omap read_index_def (map (render_line t) template)
  = [ {| ix_name := "idx_audit_logs_table_record"; ix_table := t;
         ix_on := [("table_name", false); ("record_id", false)]; ix_where := None |};
      {| ix_name := "idx_audit_logs_user_id"; ix_table := t;
         ix_on := [("user_id", false)]; ix_where := Some "user_id IS NOT NULL" |};
      {| ix_name := "idx_audit_logs_created_at"; ix_table := t;
         ix_on := [("created_at", true)]; ix_where := None |};
      {| ix_name := "idx_audit_logs_action"; ix_table := t;
         ix_on := [("action", false)]; ix_where := None |};
      {| ix_name := "idx_audit_logs_table_created"; ix_table := t;
         ix_on := [("table_name", false); ("created_at", true)]; ix_where := None |} ]%string.
Proof.
  intros Ht.
  change template with (take 33 template ++ take 5 (drop 33 template) ++ drop 38 template).
  rewrite !map_app, !omap_app.
  change (omap read_index_def (map (render_line t) (take 33 template)))
    with (@nil index_def).
  change (omap read_index_def (map (render_line t) (drop 38 template)))
    with (@nil index_def).
  rewrite app_nil_r. cbv [firstn skipn template app]. cbn [map omap list_omap].
  rewrite !render_line_table. unfold read_index_def. read_through.
Qed.

(** X17: for every valid table name [t], the indexes the setup SQL creates
    are those of the schema declaration, in its order: same names, on table
    [t], on the declared columns with the declared direction.  One of them
    differs from its declaration: the index on [user_id] is restricted to the
    rows with a user ([WHERE user_id IS NOT NULL]), which the declaration
    does not say. *)
Theorem setup_sql_declares_the_schema_indexes t :
  strict_identifier t = true →
  ∃ sql, createAuditTableSQLFor (Some t) = Returns sql
         ∧ Forall2 (λ d decl, ix_name d = index_name decl ∧ ix_table d = t
                              ∧ Some (ix_on d) = declared_index_on decl)
             (index_defs sql) auditLogs_indexes
         ∧ map ix_where (index_defs sql)
           = [None; Some "user_id IS NOT NULL"%string; None; None; None].
Proof.
  intros Ht. eexists. split.
  { unfold createAuditTableSQLFor. simpl.
    rewrite buildCreateAuditTableSQL_checked, Ht. reflexivity. }
  unfold index_defs. rewrite lines_of_sql, index_defs_of_sql by done.
  split; [|reflexivity]. repeat constructor.
Qed.

Lemma setup_sql_declares_the_schema_indexes_witness :
  ∃ sql, createAuditTableSQLFor (Some "billing_audit"%string) = Returns sql
         ∧ Forall2 (λ d decl, ix_name d = index_name decl
                              ∧ ix_table d = "billing_audit"%string
                              ∧ Some (ix_on d) = declared_index_on decl)
             (index_defs sql) auditLogs_indexes
         ∧ map ix_where (index_defs sql)
           = [None; Some "user_id IS NOT NULL"%string; None; None; None].
Proof.
  apply (setup_sql_declares_the_schema_indexes "billing_audit"). reflexivity.
Defined.

End SqlFacts.

(** ** Composite keys of integers *)

Module CompositeKeyFacts.
Import JS PrimaryKey Schema IdentityText SqlText SchemaSpec Samples.
Import JSFacts PrimaryKeyFacts SchemaFacts ResolverFacts.

Lemma append_inv_head p a b : p +:+ a = p +:+ b → a = b.
Proof.
  induction p as [|c p IH]; [done|].
  change (String c (p +:+ a) = String c (p +:+ b) → a = b). intros [= H]. by apply IH.
Qed.

Lemma append_assoc a b c : (a +:+ b) +:+ c = a +:+ b +:+ c.
Proof.
  induction a as [|x a IH]; [done|].
  change (String x ((a +:+ b) +:+ c) = String x (a +:+ b +:+ c)). by rewrite IH.
Qed.

(** Two texts cut at a separator that neither has before the cut. *)
Lemma append_sep_inj c s1 r1 s2 r2 :
  all_chars (is_not c) s1 = true → all_chars (is_not c) s2 = true →
  s1 +:+ String c r1 = s2 +:+ String c r2 → s1 = s2 ∧ r1 = r2.
Proof.
  intros H1 H2 H. apply (f_equal (split_at_first c)) in H.
  rewrite !split_at_first_app in H by done. by injection H.
Qed.

Lemma all_digits_has_no c s :
  is_digit c = false → all_digits s = true → all_chars (is_not c) s = true.
Proof.
  intros Hc. induction s as [|a s IH]; [done|]. cbn [all_digits all_chars].
  rewrite !andb_true_iff. intros [Ha Hs]. split; [|by apply IH].
  unfold is_not. destruct (Ascii.eqb_spec a c) as [->|]; [congruence | done].
Qed.

Lemma Z_to_dec_has_no c z :
  is_digit c = false → c ≠ ch "-" → all_chars (is_not c) (Z_to_dec z) = true.
Proof.
  intros Hc Hm. destruct z as [|p|p]; cbn [Z_to_dec].
  - by apply all_digits_has_no.
  - apply all_digits_has_no; [done | apply N_to_dec_digits].
  - change ("-" +:+ N_to_dec (N.pos p)) with (String (ch "-") (N_to_dec (N.pos p))).
    cbn [all_chars]. rewrite andb_true_iff. split.
    + unfold is_not. by destruct (Ascii.eqb_spec (ch "-") c) as [<-|].
    + apply all_digits_has_no; [done | apply N_to_dec_digits].
Qed.

(** Numerals are written between the quotes as they are. *)
Lemma quote_body_numeral z : quote_body (Z_to_dec z) = Z_to_dec z.
Proof.
  assert (Hplain : ∀ s, all_chars (λ a, is_digit a || Ascii.eqb a (ch "-")) s = true →
                        quote_body s = s).
  { induction s as [|a s IH]; [done|]. cbn [all_chars quote_body].
    rewrite andb_true_iff. intros [Ha Hs]. rewrite (IH Hs).
    assert (Hq : quote_char a = str1 a); [|by rewrite Hq].
    destruct a as [[] [] [] [] [] [] [] []]; try done. }
  apply Hplain. destruct z as [|p|p]; cbn [Z_to_dec]; [done| |].
  - generalize (N_to_dec_digits (N.pos p)). generalize (N_to_dec (N.pos p)).
    induction s as [|a s IH]; [done|]. cbn [all_digits all_chars].
    rewrite !andb_true_iff. intros [-> Hs]. split; [done | by apply IH].
  - change ("-" +:+ N_to_dec (N.pos p)) with (String (ch "-") (N_to_dec (N.pos p))).
    cbn [all_chars]. rewrite andb_true_iff. split; [done|].
    generalize (N_to_dec_digits (N.pos p)). generalize (N_to_dec (N.pos p)).
    induction s as [|a s IH]; [done|]. cbn [all_digits all_chars].
    rewrite !andb_true_iff. intros [-> Hs]. split; [done | by apply IH].
Qed.

Lemma json_text_integer v :
  integer v = true →
  ∃ z, (v = VNumber (NInt z) ∧ json_text v = Z_to_dec z)
       ∨ (v = VBigInt z ∧ json_text v = String dquote (Z_to_dec z +:+ str1 dquote)).
Proof.
  destruct v as [| | |[z| |]|z| | |]; try done; intros _; exists z; [left|right].
  - done.
  - split; [done|]. change (json_text (VBigInt z)) with (QuoteJSONString (Z_to_dec z)).
    unfold QuoteJSONString. by rewrite quote_body_numeral.
Qed.

Lemma json_text_integer_has_no c v :
  is_digit c = false → c ≠ ch "-" → c ≠ dquote → integer v = true →
  all_chars (is_not c) (json_text v) = true.
Proof.
  intros Hc Hm Hq Hv.
  destruct (json_text_integer v Hv) as [z [[_ ->]|[_ ->]]].
  - by apply Z_to_dec_has_no.
  - assert (Hd : is_not c dquote = true).
    { unfold is_not. by destruct (Ascii.eqb_spec dquote c) as [<-|]. }
    cbn [all_chars]. rewrite all_chars_app, Z_to_dec_has_no by done.
    unfold str1. cbn [all_chars]. by rewrite Hd.
Qed.

(** Distinct integers have distinct JSON texts, a Number and a BigInt too. *)
Lemma json_text_integer_inj v1 v2 :
  integer v1 = true → integer v2 = true → json_text v1 = json_text v2 → v1 = v2.
Proof.
  intros H1 H2.
  destruct (json_text_integer v1 H1) as [a [[-> ->]|[-> ->]]],
           (json_text_integer v2 H2) as [b [[-> ->]|[-> ->]]]; intros H.
  - by apply Z_to_dec_inj in H as ->.
  - pose proof (Z_to_dec_has_no dquote a eq_refl) as Hn. rewrite H in Hn.
    by discriminate Hn.
  - pose proof (Z_to_dec_has_no dquote b eq_refl) as Hn. rewrite <- H in Hn.
    by discriminate Hn.
  - injection H as H.
    apply append_sep_inj in H as [H _]; [|by apply Z_to_dec_has_no..].
    by apply Z_to_dec_inj in H as ->.
Qed.

(** Integers are cut off by the separator that follows them. *)
Lemma integer_delimited c v1 v2 r1 r2 :
  c = ch "," ∨ c = ch "}" → integer v1 = true → integer v2 = true →
  json_text v1 +:+ String c r1 = json_text v2 +:+ String c r2 → v1 = v2 ∧ r1 = r2.
Proof.
  intros Hc H1 H2 H.
  apply append_sep_inj in H as [H ->];
    [| apply json_text_integer_has_no; [by destruct Hc as [-> | ->]..|done]
     | apply json_text_integer_has_no; [by destruct Hc as [-> | ->]..|done] ].
  split; [|done]. by apply json_text_integer_inj.
Qed.

Lemma integer_scalar v : integer v = true → scalar v = true.
Proof. by destruct v as [| | |[]| | | |]. Qed.

(** *** Quoted strings *)

(** [unquote_head] reads back what [quote_char] writes. *)
Lemma unquote_head_quote_char c rest :
  unquote_head (quote_char c +:+ rest) = Some (c, rest).
Proof. destruct c as [[] [] [] [] [] [] [] []]; vm_compute; reflexivity. Qed.

(** A quoted string ends at its closing quote and nowhere before. *)
Lemma quote_body_delimited s1 : ∀ s2 r1 r2,
  quote_body s1 +:+ String dquote r1 = quote_body s2 +:+ String dquote r2 →
  s1 = s2 ∧ r1 = r2.
Proof.
  induction s1 as [|a s1 IH]; intros [|b s2] r1 r2; cbn [quote_body];
    rewrite ?append_assoc; intros H.
  - by injection H.
  - apply (f_equal unquote_head) in H. by rewrite unquote_head_quote_char in H.
  - apply (f_equal unquote_head) in H. by rewrite unquote_head_quote_char in H.
  - apply (f_equal unquote_head) in H. rewrite !unquote_head_quote_char in H.
    injection H as -> H. by destruct (IH _ _ _ H) as [-> ->].
Qed.

Lemma json_text_literal v :
  literal v = true →
  (∃ s, v = VString s ∧ json_text v = String dquote (quote_body s +:+ str1 dquote))
  ∨ ((∀ c, c = ch "," ∨ c = ch "}" ∨ c = dquote →
           all_chars (is_not c) (json_text v) = true)
     ∧ json_text v ≠ ""
     ∧ ∀ v', literal v' = true → json_text v = json_text v' → v = v').
Proof.
  assert (Hbool : ∀ (b : bool) z, (if b then "true" else "false")%string ≠ Z_to_dec z).
  { intros b z H.
    pose proof (Z_to_dec_has_no (ch "e") z eq_refl) as Hn. rewrite <- H in Hn.
    destruct b; by discriminate Hn. }
  assert (Hnum : ∀ z, Z_to_dec z ≠ "").
  { intros [|p|p] H; [done| |done].
    pose proof (N_to_dec_value (N.pos p)) as Hv. cbn [Z_to_dec] in H.
    rewrite H in Hv. done. }
  assert (Hstr : ∀ z s, Z_to_dec z ≠ String dquote s).
  { intros z s H. pose proof (Z_to_dec_has_no dquote z eq_refl) as Hn.
    rewrite H in Hn. by discriminate Hn. }
  destruct v as [| |b|[z| |]| |s| |]; try done; intros _.
  - right. split_and!.
    + intros c [->|[->| ->]]; by destruct b.
    + by destruct b.
    + intros [| |b'|[z'| |]| |s'| |]; try done; intros _.
      * by destruct b, b'.
      * intros H. by apply Hbool in H.
      * by destruct b.
  - right. split_and!.
    + intros c [->|[->| ->]]; by apply Z_to_dec_has_no.
    + apply Hnum.
    + intros [| |b'|[z'| |]| |s'| |]; try done; intros _.
      * intros H. symmetry in H. by apply Hbool in H.
      * intros H. by apply Z_to_dec_inj in H as ->.
      * intros H. by apply Hstr in H.
  - left. by exists s.
Qed.

(** Literals are cut off by the separator that follows them. *)
Lemma literal_delimited c v1 v2 r1 r2 :
  c = ch "," ∨ c = ch "}" → literal v1 = true → literal v2 = true →
  json_text v1 +:+ String c r1 = json_text v2 +:+ String c r2 → v1 = v2 ∧ r1 = r2.
Proof.
  assert (Hmixed : ∀ t s r r',
            all_chars (is_not dquote) t = true → t ≠ ""%string → c ≠ dquote →
            t +:+ String c r ≠ String dquote (quote_body s +:+ str1 dquote) +:+ r').
  { intros t s r r' Ht Hne Hc H. destruct t as [|a t]; [done|].
    injection H as -> _. by discriminate Ht. }
  intros Hc H1 H2 H.
  assert (Hq : c ≠ dquote) by (by destruct Hc as [-> | ->]).
  destruct (json_text_literal v1 H1) as [(s1 & -> & E1)|(Hno1 & Hne1 & Hinj1)],
           (json_text_literal v2 H2) as [(s2 & -> & E2)|(Hno2 & Hne2 & Hinj2)].
  - rewrite E1, E2 in H. injection H as H. rewrite !append_assoc in H.
    apply quote_body_delimited in H as [-> H]. by injection H as ->.
  - rewrite E1 in H. symmetry in H. apply Hmixed in H; [done| |done..].
    apply Hno2. by right; right.
  - rewrite E2 in H. apply Hmixed in H; [done| |done..].
    apply Hno1. by right; right.
  - apply append_sep_inj in H as [H ->];
      [| apply Hno1; destruct Hc; by eauto | apply Hno2; destruct Hc; by eauto].
    split; [|done]. by apply Hinj1.
Qed.

Lemma literal_scalar v : literal v = true → scalar v = true.
Proof. by destruct v as [| | |[]| | | |]. Qed.

(** *** Identities of rows whose key values are cut off by separators *)

Section Delimited.
Variable cls : value → bool.
Hypothesis cls_scalar : ∀ v, cls v = true → scalar v = true.
Hypothesis cls_delimited : ∀ c v1 v2 r1 r2,
  c = ch "," ∨ c = ch "}" → cls v1 = true → cls v2 = true →
  json_text v1 +:+ String c r1 = json_text v2 +:+ String c r2 → v1 = v2 ∧ r1 = r2.

Lemma members_inj ps1 : ∀ ps2,
  Object_keys ps1 = Object_keys ps2 →
  Forall (λ kv : string * value, cls kv.2 = true) ps1 →
  Forall (λ kv : string * value, cls kv.2 = true) ps2 →
  join "," (map (λ kv : string * value, QuoteJSONString kv.1 +:+ ":" +:+ json_text kv.2) ps1)
    +:+ "}"
  = join "," (map (λ kv : string * value, QuoteJSONString kv.1 +:+ ":" +:+ json_text kv.2) ps2)
    +:+ "}" →
  ps1 = ps2.
Proof.
  induction ps1 as [|[k v1] ps1 IH]; intros [|[k2 v2] ps2] Hk H1 H2 H; try done.
  injection Hk as <- Hk.
  apply Forall_cons in H1 as [Hv1 H1]. apply Forall_cons in H2 as [Hv2 H2].
  cbn [snd] in Hv1, Hv2.
  destruct ps1 as [|p1 ps1], ps2 as [|p2 ps2]; try done.
  - cbn [map join fst snd] in H. rewrite !append_assoc in H.
    apply append_inv_head in H. injection H as H.
    apply (cls_delimited (ch "}")) in H as [-> _]; [done | by right | done..].
  - cbn [map fst snd] in H.
    change (join "," (?a :: ?b :: ?l)) with (a +:+ "," +:+ join "," (b :: l)) in H.
    rewrite !append_assoc in H.
    apply append_inv_head in H. injection H as H.
    apply (cls_delimited (ch ",")) in H as [-> H]; [| by left | done..].
    f_equal. by apply IH.
Qed.

Lemma object_text_inj ps1 ps2 :
  Object_keys ps1 = Object_keys ps2 →
  Forall (λ kv : string * value, cls kv.2 = true) ps1 →
  Forall (λ kv : string * value, cls kv.2 = true) ps2 →
  object_text (view json_text ps1) = object_text (view json_text ps2) → ps1 = ps2.
Proof.
  intros Hk H1 H2 H. unfold object_text, view in H. rewrite !map_map in H.
  injection H as H. by apply members_inj.
Qed.

(** Under a composite key, rows whose key values are of the class get the
    same identity exactly when they agree on the key fields. *)
Lemma delimited_keys_never_collide host1 h1 r1 host2 h2 r2 tableName pkm fields :
  pkm !! tableName = Some (KeyList fields) →
  length fields ≠ 1 →
  (∀ f, f ∈ fields → cls (obj_get r1 f) = true ∧ cls (obj_get r2 f) = true) →
  extractPrimaryKey host1 h1 r1 tableName pkm = extractPrimaryKey host2 h2 r2 tableName pkm
  ↔ ∀ f, f ∈ fields → obj_get r1 f = obj_get r2 f.
Proof.
  intros Hk Hlen Hint.
  assert (Hp1 : ∀ f, f ∈ fields → nullish (obj_get r1 f) = false).
  { intros f Hf. by apply scalar_not_nullish, cls_scalar, Hint. }
  assert (Hp2 : ∀ f, f ∈ fields → nullish (obj_get r2 f) = false).
  { intros f Hf. by apply scalar_not_nullish, cls_scalar, Hint. }
  destruct (resolve_fields_present r1 fields [] Hp1) as [res1 Hr1].
  destruct (resolve_fields_present r2 fields [] Hp2) as [res2 Hr2].
  assert (Hi1 : Forall (λ kv : string * value, cls kv.2 = true) res1).
  { eapply (resolve_fields_Forall (λ v, cls v = true)); [exact Hr1 | done |].
    intros f Hf. by apply Hint. }
  assert (Hi2 : Forall (λ kv : string * value, cls kv.2 = true) res2).
  { eapply (resolve_fields_Forall (λ v, cls v = true)); [exact Hr2 | done |].
    intros f Hf. by apply Hint. }
  assert (Hs1 : Forall (λ kv : string * value, scalar kv.2 = true) res1).
  { eapply Forall_impl; [exact Hi1|]. intros kv. apply cls_scalar. }
  assert (Hs2 : Forall (λ kv : string * value, scalar kv.2 = true) res2).
  { eapply Forall_impl; [exact Hi2|]. intros kv. apply cls_scalar. }
  rewrite (composite_goes_through_safeStringifyForPK host1 h1 r1 tableName pkm fields
             _ _ Hk Hlen Hr1 (safeStringifyForPK_scalar h1 _ Hs1)).
  rewrite (composite_goes_through_safeStringifyForPK host2 h2 r2 tableName pkm fields
             _ _ Hk Hlen Hr2 (safeStringifyForPK_scalar h2 _ Hs2)).
  split.
  - intros H f Hf.
    assert (Ht : object_text (view json_text res1) = object_text (view json_text res2))
      by congruence.
    clear H.
    destruct (resolve_fields_view (λ _, ()) r1 r2 fields [] [] res1) as (res2' & Hr2' & Hv);
      [done | done | done | done |].
    assert (res2' = res2) as -> by congruence.
    assert (Hkeys : Object_keys res1 = Object_keys res2).
    { by rewrite <- !(view_keys (λ _, ())), Hv. }
    pose proof (object_text_inj _ _ Hkeys Hi1 Hi2 Ht) as ->.
    pose proof (resolve_fields_lookup _ _ _ _ _ Hr1 Hf) as L1.
    pose proof (resolve_fields_lookup _ _ _ _ _ Hr2 Hf) as L2.
    congruence.
  - intros Heq.
    destruct (resolve_fields_view json_text r1 r2 fields [] [] res1) as (res2' & Hr2' & Hv);
      [done | intros f Hf; by rewrite Heq | done | done |].
    assert (res2' = res2) as -> by congruence. by rewrite Hv.
Qed.

End Delimited.

(** X18: under a composite key that does not name [__proto__] and whose
    fields hold integers (Numbers that are safe integers, or BigInts), two
    rows get the same identity exactly when they agree on every key field,
    whatever the hosts and heaps: distinct key values never collide, and a
    Number and the BigInt of the same integer are told apart. *)
Theorem integer_composite_keys_never_collide host1 h1 r1 host2 h2 r2
    tableName pkm fields :
  pkm !! tableName = Some (KeyList fields) →
  length fields ≠ 1 →
  "__proto__"%string ∉ fields →
  (∀ f, f ∈ fields → integer (obj_get r1 f) = true ∧ integer (obj_get r2 f) = true) →
  extractPrimaryKey host1 h1 r1 tableName pkm = extractPrimaryKey host2 h2 r2 tableName pkm
  ↔ ∀ f, f ∈ fields → obj_get r1 f = obj_get r2 f.
Proof.
  intros Hk Hlen _ Hint.
  apply (delimited_keys_never_collide integer); try done.
  - apply integer_scalar.
  - apply integer_delimited.
Qed.

Lemma integer_composite_keys_never_collide_witness :
  extractPrimaryKey UTC_host ∅
    [("order_id", VNumber (NInt 7)); ("line_no", VBigInt 2); ("sku", VString "a")]
    "order_items" orders_pkm
  = extractPrimaryKey UTC_host cyclic_heap
      [("line_no", VBigInt 2); ("order_id", VNumber (NInt 7))] "order_items" orders_pkm
  ↔ ∀ f, f ∈ ["order_id"; "line_no"]%string →
         obj_get [("order_id", VNumber (NInt 7)); ("line_no", VBigInt 2); ("sku", VString "a")] f
         = obj_get [("line_no", VBigInt 2); ("order_id", VNumber (NInt 7))] f.
Proof.
  apply (integer_composite_keys_never_collide UTC_host ∅ _ UTC_host cyclic_heap _
           "order_items" orders_pkm ["order_id"; "line_no"]).
  - reflexivity.
  - simpl. lia.
  - apply (bool_decide_unpack _). vm_compute. exact I.
  - intros f Hf. apply elem_of_cons in Hf as [->|Hf]; [by vm_compute|].
    apply list_elem_of_singleton in Hf as ->. by vm_compute.
Defined.

(** X19: under a composite key that does not name [__proto__] and whose
    fields hold strings, Numbers that are safe integers, or booleans, two
    rows get the same identity exactly when they agree on every key field:
    the quoting of strings keeps the values apart, so that no separator
    inside a string can make two different rows collide. *)
Theorem literal_composite_keys_never_collide host1 h1 r1 host2 h2 r2
    tableName pkm fields :
  pkm !! tableName = Some (KeyList fields) →
  length fields ≠ 1 →
  "__proto__"%string ∉ fields →
  (∀ f, f ∈ fields → literal (obj_get r1 f) = true ∧ literal (obj_get r2 f) = true) →
  extractPrimaryKey host1 h1 r1 tableName pkm = extractPrimaryKey host2 h2 r2 tableName pkm
  ↔ ∀ f, f ∈ fields → obj_get r1 f = obj_get r2 f.
Proof.
  intros Hk Hlen _ Hlit.
  apply (delimited_keys_never_collide literal); try done.
  - apply literal_scalar.
  - apply literal_delimited.
Qed.

Lemma literal_composite_keys_never_collide_witness :
  extractPrimaryKey UTC_host ∅
    [("a", VString (with_dquotes "x','b':'y")); ("b", VString "z")] "t" ab_pkm
  = extractPrimaryKey UTC_host ∅
      [("a", VString "x"); ("b", VString (with_dquotes "y','b':'z"))] "t" ab_pkm
  ↔ ∀ f, f ∈ ["a"; "b"]%string →
         obj_get [("a", VString (with_dquotes "x','b':'y")); ("b", VString "z")] f
         = obj_get [("a", VString "x"); ("b", VString (with_dquotes "y','b':'z"))] f.
Proof.
  apply (literal_composite_keys_never_collide UTC_host ∅ _ UTC_host ∅ _
           "t" ab_pkm ["a"; "b"]).
  - reflexivity.
  - simpl. lia.
  - apply (bool_decide_unpack _). vm_compute. exact I.
  - intros f Hf. apply elem_of_cons in Hf as [->|Hf]; [by vm_compute|].
    apply list_elem_of_singleton in Hf as ->. by vm_compute.
Defined.

End CompositeKeyFacts.
